(** * picamserver: a shallow embedding of the camera server and of the
      file mover

    The development follows [picamserver.py] (StreamTee, TcpVideoStreamServer,
    Timer, Timelapse) and, of [moveimages.py], the checksum lookup
    (MD5SUM_REGEX, get_md5sum), the path test [is_subdir_of] and
    [FileMover.move_file] with its path checks.

    Conventions.
    - Python code that can raise is written in a state-and-exception monad
      [M St A]: a computation takes the mutable state and returns either a
      value or a raised exception, together with the state it leaves behind.
      [try_except] is Python's [try: ... except: ...].
    - Python sets are [gset]s; iterating a set walks [elements] of it.
    - A (wall-clock) [datetime] is the number of microseconds since
      [datetime.min]; a [timedelta] is a number of microseconds. *)

From Stdlib Require Import ZArith Lia Ascii String.
From Stdlib.Strings Require Import Byte.
From stdpp Require Import base tactics option list sets gmap strings pretty.

Local Open Scope Z_scope.

(** ** Exceptions and the state-and-exception monad *)

Module Py.

Inductive exn : Type :=
  | OSError
  | ValueError
  | PiCameraNotRecording
  | PiCameraRuntimeError
  | QueueEmpty.

Inductive outcome (A : Type) : Type :=
  | Ret (a : A)
  | Raise (e : exn).
Arguments Ret {A} a.
Arguments Raise {A} e.

Definition M (St A : Type) : Type := St → outcome A * St.

Definition ret {St A} (a : A) : M St A := λ st, (Ret a, st).

Definition raise {St A} (e : exn) : M St A := λ st, (Raise e, st).

Definition bind {St A B} (m : M St A) (k : A → M St B) : M St B :=
  λ st, match m st with
        | (Ret a, st') => k a st'
        | (Raise e, st') => (Raise e, st')
        end.

(** [try: body except <filter>: handler].  The handler runs on the state the
    body left behind; an exception the filter does not select propagates. *)
Definition try_except {St A} (body : M St A) (catches : exn → bool)
    (handler : exn → M St A) : M St A :=
  λ st, match body st with
        | (Ret a, st') => (Ret a, st')
        | (Raise e, st') => if catches e then handler e st' else (Raise e, st')
        end.

Definition get {St} : M St St := λ st, (Ret st, st).
Definition modify {St} (f : St → St) : M St unit := λ st, (Ret tt, f st).

(** Every exception of [exn] derives from [Exception], so both
    [except Exception:] and a bare [except:] select all of them. *)
Definition any_exception (e : exn) : bool := true.

Definition is_PiCameraNotRecording (e : exn) : bool :=
  match e with PiCameraNotRecording => true | _ => false end.

End Py.

Import Py.

#[global] Instance M_ret {St} : MRet (M St) := λ A, @ret St A.
#[global] Instance M_bind {St} : MBind (M St) := λ A B k m, @bind St A B m k.

(** ** Sinks: the file objects the video stream is written to *)

Module Sink.

(** A sink is identified by its handle. *)
Definition sink : Type := nat.
Definition bytes : Type := list Byte.byte.

#[global] Instance byte_eq_dec : EqDecision Byte.byte := Byte.byte_eq_dec.

Inductive event : Type :=
  | EvWrite (s : sink) (b : bytes)   (* [s.write(b)] returned *)
  | EvFlush (s : sink)               (* [s.flush()] returned *)
  | EvClose (s : sink).              (* [s.close()] was called *)

#[global] Instance event_eq_dec : EqDecision event.
Proof. solve_decision. Defined.

(** What the outside world keeps about the sinks: which are closed, which
    have lost their peer (a write on them raises), on which [close] itself
    raises, and everything that happened to them so far. *)
Record world : Type := World {
  closed : gset sink;
  broken : gset sink;
  close_raises : gset sink;
  log : list event;
}.

Definition record (e : event) (w : world) : world :=
  {| closed := closed w; broken := broken w;
     close_raises := close_raises w; log := log w ++ [e] |}.

Definition mark_closed (s : sink) (w : world) : world :=
  {| closed := closed w ∪ {[s]}; broken := broken w;
     close_raises := close_raises w; log := log w |}.

(** A write or flush on [s] fails when [s] was closed or its peer is gone. *)
Definition write_fails (w : world) (s : sink) : Prop :=
  s ∈ closed w ∨ s ∈ broken w.

#[global] Instance write_fails_dec w s : Decision (write_fails w s).
Proof. unfold write_fails. apply _. Defined.

(** What the tee asks of a sink in its loops. *)
Inductive request : Type :=
  | Write (b : bytes)
  | Flush.

Definition done_event (r : request) (s : sink) : event :=
  match r with
  | Write b => EvWrite s b
  | Flush => EvFlush s
  end.

(** [s.write(b)] and [s.flush()].  The world decides on which sinks a call
    raises: here on those of [closed] and of [broken], for both calls alike.
    Real sinks differ in this (the unbuffered [wfile] of a socketserver
    handler raises in [write] when the peer is gone and in [flush] when the
    file was closed); the results below only use that the call at hand
    raises or returns on a given sink. *)
Definition perform (r : request) (s : sink) : M world unit :=
  λ w, if decide (s ∈ closed w) then (Raise ValueError, w)
       else if decide (s ∈ broken w) then (Raise OSError, w)
       else (Ret tt, record (done_event r s) w).

(** [s.write(b)] *)
Definition write (s : sink) (b : bytes) : M world unit := perform (Write b) s.

(** [s.flush()] *)
Definition flush (s : sink) : M world unit := perform Flush s.

(** [s.close()] *)
Definition close (s : sink) : M world unit :=
  λ w, let w' := record (EvClose s) (mark_closed s w) in
       if decide (s ∈ close_raises w) then (Raise OSError, w')
       else (Ret tt, w').

(** The sink an event of the log happened to. *)
Definition sink_of (e : event) : sink :=
  match e with
  | EvWrite s _ | EvFlush s | EvClose s => s
  end.

End Sink.

(** ** StreamTee *)

Module StreamTee.
Import Sink.

(** The body of the [for] loop of [StreamTee.write], for the sink [s];
    [streams] is [self.__streams]. *)
Definition write_body (b : bytes) (s : sink) (streams : gset sink)
    : M world (gset sink) :=
  try_except (Sink.write s b ;; mret streams) any_exception (λ _,
    let streams' := streams ∖ {[s]} in
    try_except (Sink.close s) any_exception (λ _, mret tt) ;;
    mret streams').

Fixpoint write_loop (b : bytes) (snapshot : list sink) (streams : gset sink)
    : M world (gset sink) :=
  match snapshot with
  | [] => mret streams
  | s :: rest => streams' ← write_body b s streams; write_loop b rest streams'
  end.

(** [StreamTee.write(b)]: the loop walks [set(self.__streams)], a snapshot
    taken before the first write.  The result is the new [self.__streams]. *)
Definition write (streams : gset sink) (b : bytes) : M world (gset sink) :=
  write_loop b (elements streams) streams.

(** The body of the [for] loop of [StreamTee.flush]. *)
Definition flush_body (s : sink) (streams : gset sink)
    : M world (gset sink) :=
  try_except (Sink.flush s ;; mret streams) any_exception (λ _,
    let streams' := streams ∖ {[s]} in
    try_except (Sink.close s) any_exception (λ _, mret tt) ;;
    mret streams').

Fixpoint flush_loop (snapshot : list sink) (streams : gset sink)
    : M world (gset sink) :=
  match snapshot with
  | [] => mret streams
  | s :: rest => streams' ← flush_body s streams; flush_loop rest streams'
  end.

(** [StreamTee.flush()] *)
Definition flush (streams : gset sink) : M world (gset sink) :=
  flush_loop (elements streams) streams.

(** The two loops differ in the call they make on the sink only; this is
    their common form. *)
Definition each_body (r : request) (s : sink) (streams : gset sink)
    : M world (gset sink) :=
  try_except (perform r s ;; mret streams) any_exception (λ _,
    let streams' := streams ∖ {[s]} in
    try_except (Sink.close s) any_exception (λ _, mret tt) ;;
    mret streams').

Fixpoint each_loop (r : request) (snapshot : list sink) (streams : gset sink)
    : M world (gset sink) :=
  match snapshot with
  | [] => mret streams
  | s :: rest => streams' ← each_body r s streams; each_loop r rest streams'
  end.

Definition each (r : request) (streams : gset sink) : M world (gset sink) :=
  match r with
  | Write b => write streams b
  | Flush => flush streams
  end.

(** What a loop does to one sink of the snapshot, judged on the world the
    loop started in. *)
Definition loop_event (r : request) (w : world) (s : sink) : event :=
  if decide (write_fails w s) then EvClose s else done_event r s.

(** The sinks of the snapshot on which the call fails. *)
Definition failing (w : world) (snapshot : list sink) : gset sink :=
  list_to_set (filter (write_fails w) snapshot).

(** The body of the [for] loop of [StreamTee.close]: a sink whose [close]
    raises is discarded, the others stay in the set. *)
Definition close_body (s : sink) (streams : gset sink)
    : M world (gset sink) :=
  try_except (Sink.close s ;; mret streams) any_exception
    (λ _, mret (streams ∖ {[s]})).

Fixpoint close_loop (snapshot : list sink) (streams : gset sink)
    : M world (gset sink) :=
  match snapshot with
  | [] => mret streams
  | s :: rest => streams' ← close_body s streams; close_loop rest streams'
  end.

(** [StreamTee.close()] *)
Definition close (streams : gset sink) : M world (gset sink) :=
  close_loop (elements streams) streams.

(** The encoder hands the buffers [bs] to the tee one after the other. *)
Fixpoint write_all (streams : gset sink) (bs : list bytes)
    : M world (gset sink) :=
  match bs with
  | [] => mret streams
  | b :: rest => streams' ← write streams b; write_all streams' rest
  end.

(** The buffers that a log shows as written to the sink [s], in order. *)
Definition received (s : sink) (l : list event) : list bytes :=
  omap (λ e, match e with
             | EvWrite s' b => if decide (s' = s) then Some b else None
             | _ => None
             end) l.

End StreamTee.

(** ** TcpVideoStreamServer *)

Module TcpVideoStreamServer.
Import Sink.

(** [outputs] is [self.outputs].  [recording] is the camera's side: [None]
    while it is not recording, otherwise the [__streams] of the StreamTee the
    encoder currently writes to. *)
Record server : Type := Server {
  outputs : gset sink;
  recording : option (gset sink);
}.

Definition state : Type := server * world.

(** [StreamTee(streams)]: [__init__] copies its argument, [set(streams)]. *)
Definition StreamTee_init (streams : gset sink) : gset sink := streams.

(** [camera.start_recording(tee, ...)] *)
Definition start_recording (tee : gset sink) : M state unit :=
  modify (λ st, ({| outputs := outputs st.1; recording := Some tee |}, st.2)).

(** [camera.split_recording(tee)] raises when the camera is not recording. *)
Definition split_recording (tee : gset sink) : M state unit :=
  λ st, match recording st.1 with
        | None => (Raise PiCameraNotRecording, st)
        | Some _ =>
            (Ret tt, ({| outputs := outputs st.1; recording := Some tee |}, st.2))
        end.

Definition _outputs_changed : M state unit :=
  st ← get;
  try_except (split_recording (StreamTee_init (outputs st.1)))
    is_PiCameraNotRecording (λ _, mret tt).

Definition start : M state unit :=
  st ← get; start_recording (StreamTee_init (outputs st.1)).

Definition add_output (output : sink) : M state unit :=
  modify (λ st, ({| outputs := outputs st.1 ∪ {[output]};
                    recording := recording st.1 |}, st.2)) ;;
  _outputs_changed.

Definition remove_output (output : sink) : M state unit :=
  modify (λ st, ({| outputs := outputs st.1 ∖ {[output]};
                    recording := recording st.1 |}, st.2)) ;;
  _outputs_changed.

(** The encoder calls the tee it records to: [tee.write(b)] for a buffer of
    the stream, [tee.flush()] to flush it. *)
Definition encoder_call (r : request) : M state unit :=
  λ st, match recording st.1 with
        | None => (Ret tt, st)
        | Some streams =>
            match StreamTee.each r streams st.2 with
            | (Ret streams', w') =>
                (Ret tt, ({| outputs := outputs st.1;
                             recording := Some streams' |}, w'))
            | (Raise e, w') => (Raise e, (st.1, w'))
            end
        end.

Definition encoder_write (b : bytes) : M state unit := encoder_call (Write b).
Definition encoder_flush : M state unit := encoder_call Flush.

(** The peer of a sink goes away: from now on writes to it raise. *)
Definition peer_gone (s : sink) : M state unit :=
  modify (λ st, (st.1, {| closed := closed st.2;
                          broken := broken st.2 ∪ {[s]};
                          close_raises := close_raises st.2;
                          log := log st.2 |})).

(** What can happen to a running server: a handler's [handle] registers its
    [wfile], its [finish] removes it, the encoder emits a buffer or flushes,
    a peer disappears. *)
Inductive op : Type :=
  | Start
  | AddOutput (s : sink)
  | RemoveOutput (s : sink)
  | Broadcast (b : bytes)
  | FlushAll
  | PeerGone (s : sink).

Definition step (o : op) : M state unit :=
  match o with
  | Start => start
  | AddOutput s => add_output s
  | RemoveOutput s => remove_output s
  | Broadcast b => encoder_write b
  | FlushAll => encoder_flush
  | PeerGone s => peer_gone s
  end.

(** The step in which the encoder makes the call [r] on its tee. *)
Definition encoder_op (r : request) : op :=
  match r with
  | Write b => Broadcast b
  | Flush => FlushAll
  end.

Fixpoint run_ops (ops : list op) : M state unit :=
  match ops with
  | [] => mret tt
  | o :: rest => step o ;; run_ops rest
  end.

(** [__init__]: no outputs, nothing recorded to yet. *)
Definition init : state :=
  ({| outputs := ∅; recording := None |},
   {| closed := ∅; broken := ∅; close_raises := ∅; log := [] |}).

(** The sinks the encoder currently broadcasts to. *)
Definition active (st : state) : gset sink := default ∅ (recording st.1).

Definition is_AddOutput (X : sink) (o : op) : bool :=
  match o with AddOutput s => bool_decide (s = X) | _ => false end.

Definition is_RemoveOutput (X : sink) (o : op) : bool :=
  match o with RemoveOutput s => bool_decide (s = X) | _ => false end.

Definition is_Start (o : op) : bool :=
  match o with Start => true | _ => false end.

Definition is_redirect (o : op) : bool :=
  match o with Start | AddOutput _ | RemoveOutput _ => true | _ => false end.

(** The tee the camera records to only holds registered outputs. *)
Definition inv (st : state) : Prop := active st ⊆ outputs st.1.

End TcpVideoStreamServer.

(** ** Timer *)

Module Timer.

(** [self.q], a [queue.Queue()] without bound; every item is [None], so the
    queue is the number of items waiting in it. *)
Definition timer : Type := nat.

Definition init : timer := 0%nat.

Inductive wake : Type :=
  | Interrupted            (* [q.get] returned an item *)
  | Elapsed (seconds : Z). (* [queue.Empty] after the timeout *)

(** [q.get(timeout=seconds)] run to completion with no [put] arriving while
    it waits: an item already queued is returned at once. *)
Definition q_get (seconds : Z) : M timer unit :=
  λ q, match q with
       | O => (Raise QueueEmpty, O)
       | S q' => (Ret tt, q')
       end.

Definition is_QueueEmpty (e : exn) : bool :=
  match e with QueueEmpty => true | _ => false end.

(** [Timer.sleep(seconds)]; the result tells how the call came back. *)
Definition sleep (seconds : Z) : M timer wake :=
  try_except (q_get seconds ;; mret Interrupted)
    is_QueueEmpty (λ _, mret (Elapsed seconds)).

(** [Timer.interrupt()]: [q.put(None)], which never blocks on an unbounded
    queue. *)
Definition interrupt : M timer unit := modify S.

Fixpoint interrupts (n : nat) : M timer unit :=
  match n with
  | O => mret tt
  | S n' => interrupt ;; interrupts n'
  end.

Fixpoint sleeps (ds : list Z) : M timer (list wake) :=
  match ds with
  | [] => mret []
  | d :: rest => r ← sleep d; rs ← sleeps rest; mret (r :: rs)
  end.

End Timer.

(** ** datetime and timedelta *)

Module Datetime.

(** A wall-clock [datetime] is the number of microseconds since
    [datetime.min] (0001-01-01 00:00:00); a [timedelta] is a number of
    microseconds.  The scheduler only ever combines datetimes that carry the
    same [tzinfo] object, for which Python computes on the wall clock. *)
Definition datetime : Type := Z.
Definition timedelta : Type := Z.

Definition US_PER_SECOND : Z := 1000000.
Definition SECONDS_PER_DAY : Z := 86400.
Definition US_PER_DAY : Z := SECONDS_PER_DAY * US_PER_SECOND.

(** [timedelta(seconds=n)] *)
Definition seconds_delta (n : Z) : timedelta := n * US_PER_SECOND.

(** [td.seconds]: the seconds field of a normalised timedelta, without its
    days and microseconds. *)
Definition td_seconds (td : timedelta) : Z :=
  (td `div` US_PER_SECOND) `mod` SECONDS_PER_DAY.

(** [dt.microsecond] *)
Definition microsecond (dt : datetime) : Z := dt `mod` US_PER_SECOND.

Definition second (dt : datetime) : Z := (dt `div` US_PER_SECOND) `mod` 60.
Definition minute (dt : datetime) : Z := (dt `div` (60 * US_PER_SECOND)) `mod` 60.
Definition hour (dt : datetime) : Z := (dt `div` (3600 * US_PER_SECOND)) `mod` 24.

(** 00:00:00 of the day of [dt]. *)
Definition midnight (dt : datetime) : datetime := dt - dt `mod` US_PER_DAY.

(** [dt.toordinal()]: day 1 is 0001-01-01. *)
Definition toordinal (dt : datetime) : Z := dt `div` US_PER_DAY + 1.

Definition days_before_month (month : Z) : Z :=
  match month with
  | 1 => 0 | 2 => 31 | 3 => 59 | 4 => 90 | 5 => 120 | 6 => 151
  | 7 => 181 | 8 => 212 | 9 => 243 | 10 => 273 | 11 => 304 | _ => 334
  end.

Definition days_in_month (month : Z) : Z :=
  match month with
  | 2 => 28
  | 4 | 6 | 9 | 11 => 30
  | _ => 31
  end.

(** The standard library's [_ord2ymd]: ordinal to (year, month, day) in the
    proleptic Gregorian calendar. *)
Definition ord2ymd (ordinal : Z) : Z * Z * Z :=
  let n := ordinal - 1 in
  let n400 := n `div` 146097 in
  let n := n `mod` 146097 in
  let year := n400 * 400 + 1 in
  let n100 := n `div` 36524 in
  let n := n `mod` 36524 in
  let n4 := n `div` 1461 in
  let n := n `mod` 1461 in
  let n1 := n `div` 365 in
  let n := n `mod` 365 in
  let year := year + n100 * 100 + n4 * 4 + n1 in
  if (n1 =? 4) || (n100 =? 4) then (year - 1, 12, 31)
  else
    let leapyear := (n1 =? 3) && (negb (n4 =? 24) || (n100 =? 3)) in
    let month := Z.shiftr (n + 50) 5 in
    let preceding :=
      days_before_month month + (if (2 <? month) && leapyear then 1 else 0) in
    if n <? preceding then
      let month := month - 1 in
      let preceding := preceding
        - (days_in_month month + (if (month =? 2) && leapyear then 1 else 0)) in
      (year, month, n - preceding + 1)
    else (year, month, n - preceding + 1).

Definition year (dt : datetime) : Z := (ord2ymd (toordinal dt)).1.1.
Definition month (dt : datetime) : Z := (ord2ymd (toordinal dt)).1.2.
Definition day (dt : datetime) : Z := (ord2ymd (toordinal dt)).2.

(** The decimal digits of a number that is not negative. *)
Definition decimal (n : Z) : string := pretty (Z.to_N n).

(** [%m], [%d], [%H], [%M], [%S]: two digits, zero padded. *)
Definition pad2 (n : Z) : string :=
  if n <? 10 then "0" +:+ decimal n else decimal n.

(** [dt.strftime('%Y%m%d')] *)
Definition strftime_DATESTR_FORMAT (dt : datetime) : string :=
  decimal (year dt) +:+ pad2 (month dt) +:+ pad2 (day dt).

(** [dt.strftime('%Y%m%d_%H%M%S')] *)
Definition strftime_DATETIMESTR_FORMAT (dt : datetime) : string :=
  decimal (year dt) +:+ pad2 (month dt) +:+ pad2 (day dt) +:+ "_"
  +:+ pad2 (hour dt) +:+ pad2 (minute dt) +:+ pad2 (second dt).

(** A datetime from its calendar fields, for examples; [days] is the ordinal
    of the date. *)
Definition at_time (ordinal h m s us : Z) : datetime :=
  (ordinal - 1) * US_PER_DAY + ((h * 60 + m) * 60 + s) * US_PER_SECOND + us.

End Datetime.

(** ** os.path *)

Module PosixPath.

Definition sep : ascii := "/"%char.

Definition startswith_sep (s : string) : bool :=
  match s with
  | String c _ => bool_decide (c = sep)
  | EmptyString => false
  end.

Fixpoint endswith_sep (s : string) : bool :=
  match s with
  | EmptyString => false
  | String c EmptyString => bool_decide (c = sep)
  | String _ rest => endswith_sep rest
  end.

Definition is_empty (s : string) : bool :=
  match s with EmptyString => true | _ => false end.

(** One round of the loop of [posixpath.join]. *)
Definition join2 (path b : string) : string :=
  if startswith_sep b then b
  else if is_empty path || endswith_sep path then path +:+ b
  else path +:+ "/" +:+ b.

(** [os.path.join(a, b, c)] *)
Definition join (a b c : string) : string := join2 (join2 a b) c.

(** What [join2 path b] puts in front of a [b] that is not absolute. *)
Definition dir_prefix (path : string) : string :=
  if is_empty path || endswith_sep path then path else path +:+ "/".

Fixpoint has_sep (s : string) : bool :=
  match s with
  | EmptyString => false
  | String c rest => bool_decide (c = sep) || has_sep rest
  end.

(** [os.path.basename(p)]: what follows the last separator. *)
Fixpoint basename (p : string) : string :=
  match p with
  | EmptyString => EmptyString
  | String c rest =>
      if has_sep rest then basename rest
      else if bool_decide (c = sep) then rest else p
  end.

(** [os.path.exists(p)], on the set of paths that exist. *)
Definition path_exists (fs : gset string) (p : string) : bool :=
  bool_decide (p ∈ fs).

End PosixPath.

(** ** Timelapse *)

Module Timelapse.
Import Datetime PosixPath.

Definition bytes : Type := list Byte.byte.

(** The part of [astral.Location] the scheduler uses: [dawn(date=t,
    local=True)] and [dusk(date=t, local=True)]. *)
Record location : Type := Location {
  dawn : datetime → datetime;
  dusk : datetime → datetime;
}.

(** The fields of a [Timelapse] object. *)
Record timelapse : Type := Timelapse {
  interval : timedelta;
  loc : location;
  root_folders : gset string;
  fallback_folders : gset string;
}.

Inductive event : Type :=
  | EvWrote (root_folder filename : string) (* "Wrote image to '%s'" *)
  | EvError (root_folder : string)          (* "Error writing captured image ..." *)
  | EvSleep (delay : Z) (next_instant : datetime).

#[global] Instance storage_event_eq_dec : EqDecision event.
Proof. solve_decision. Defined.

(** The storage and the log: the files that exist, the root folders under
    which creating a file currently fails, and the records logged so far. *)
Record storage : Type := Storage {
  files : gset string;
  unwritable : gset string;
  log : list event;
}.

Definition record (e : event) : M storage unit :=
  modify (λ st, {| files := files st; unwritable := unwritable st;
                   log := log st ++ [e] |}).

(** [_is_night] *)
Definition _is_night (self : timelapse) (time : datetime) : bool :=
  (time <? dawn (loc self) time) || (dusk (loc self) time <? time).

(** [SUBDIR_TEMPLATE % {...}] *)
Definition SUBDIR_TEMPLATE (datestr night : string) : string :=
  datestr +:+ "/" +:+ night.

(** [FILE_NAME_TEMPLATE % {...}] *)
Definition FILE_NAME_TEMPLATE (datetimestr md5sum suffix : string) : string :=
  "img_" +:+ datetimestr +:+ "_md5-" +:+ md5sum +:+ suffix +:+ ".jpg".

(** ['_%d' % suffix_int] *)
Definition suffix_of (suffix_int : nat) : string := "_" +:+ pretty suffix_int.

(** The [while] loop of [generate_filename].  [filename] is [None] until the
    first round has bound it; [fuel] bounds the number of rounds. *)
Fixpoint generate_filename_loop (fuel : nat) (fs : gset string)
    (root_folder subdir datetime_str md5sum : string)
    (suffix_int : nat) (suffix_str : string) (filename : option string)
    : option string :=
  if bool_decide (suffix_int = 0%nat)
     || from_option (path_exists fs) false filename
  then
    match fuel with
    | O => None
    | S fuel' =>
        let file_name := FILE_NAME_TEMPLATE datetime_str md5sum suffix_str in
        let filename := join root_folder subdir file_name in
        let suffix_int := S suffix_int in
        let suffix_str := suffix_of suffix_int in
        generate_filename_loop fuel' fs root_folder subdir datetime_str md5sum
          suffix_int suffix_str (Some filename)
    end
  else filename.

(** [generate_filename]; [fs] is the set of paths that exist when it runs.
    One round more than there are paths is enough for the loop to end. *)
Definition generate_filename (self : timelapse) (fs : gset string)
    (root_folder : string) (time : datetime) (md5sum : string)
    : option string :=
  let date_str := strftime_DATESTR_FORMAT time in
  let datetime_str := strftime_DATETIMESTR_FORMAT time in
  let night_str := if _is_night self time then "night" else "" in
  let suffix_int := 0%nat in
  let suffix_str := "" in
  let subdir := SUBDIR_TEMPLATE date_str night_str in
  generate_filename_loop (S (size fs)) fs root_folder subdir datetime_str
    md5sum suffix_int suffix_str None.

(** The [k]-th name the loop tries: no suffix first, then [_1], [_2], ... *)
Definition candidate (self : timelapse) (root_folder : string)
    (time : datetime) (md5sum : string) (k : nat) : string :=
  join root_folder
    (SUBDIR_TEMPLATE (strftime_DATESTR_FORMAT time)
       (if _is_night self time then "night" else ""))
    (FILE_NAME_TEMPLATE (strftime_DATETIMESTR_FORMAT time) md5sum
       (match k with O => "" | S _ => suffix_of k end)).

Section WithDigest.

(** [hashlib.md5] over the whole buffer, as a hexadecimal string. *)
Variable hexdigest : bytes → string.

Definition __calc_md5sum (f : bytes) : string := hexdigest f.

(** [os.makedirs(dirname, exist_ok=True)], [open(filename, 'wb')] and
    [f.write(...)].  An unwritable root is one under which [makedirs] or
    [open] raises (a missing or read-only mount), so that no file appears;
    a failure of [write] after [open] has created the file (a full disk) is
    not part of this model. *)
Definition create_file (root_folder filename : string) : M storage unit :=
  λ st, if bool_decide (root_folder ∈ unwritable st)
        then (Raise OSError, st)
        else (Ret tt, {| files := files st ∪ {[filename]};
                         unwritable := unwritable st; log := log st |}).

(** The [try] block of [_write_to_file] for one root folder. *)
Definition write_attempt (self : timelapse) (input : bytes)
    (root_folder : string) (now : datetime) : M storage unit :=
  let md5sum := __calc_md5sum input in
  st ← get;
  match generate_filename self (files st) root_folder now md5sum with
  | None => raise ValueError (* out of rounds: never reached, see
                                [generate_filename_returns] *)
  | Some filename =>
      create_file root_folder filename ;;
      record (EvWrote root_folder filename)
  end.

(** One round of the [for] loop of [_write_to_file]: the [try] block and
    its bare [except], which sets [success = False] and logs. *)
Definition write_round (self : timelapse) (input : bytes) (now : datetime)
    (root_folder : string) (success : bool) : M storage bool :=
  try_except
    (write_attempt self input root_folder now ;; mret success)
    any_exception
    (λ _, record (EvError root_folder) ;; mret false).

Fixpoint write_loop (self : timelapse) (input : bytes) (now : datetime)
    (folders : list string) (success : bool) : M storage bool :=
  match folders with
  | [] => mret success
  | root_folder :: rest =>
      success ← write_round self input now root_folder success;
      write_loop self input now rest success
  end.

(** [_write_to_file(input, root_folders, now)] *)
Definition _write_to_file (self : timelapse) (input : bytes)
    (root_folders : gset string) (now : datetime) : M storage bool :=
  let success := true in
  write_loop self input now (elements root_folders) success.

(** [for fallback_folder in self.fallback_folders: ...] of [__run]: every
    round that is not left by [break] writes to all fallback folders. *)
Fixpoint fallback_loop (self : timelapse) (mem_stream : bytes)
    (now : datetime) (rounds : list string) (success : bool)
    : M storage bool :=
  match rounds with
  | [] => mret success
  | fallback_folder :: rest =>
      if success then mret success
      else
        success ← _write_to_file self mem_stream (fallback_folders self) now;
        fallback_loop self mem_stream now rest success
  end.

(** The two statements of [__run] that store a captured image. *)
Definition store (self : timelapse) (mem_stream : bytes) (now : datetime)
    : M storage bool :=
  success ← _write_to_file self mem_stream (root_folders self) now;
  fallback_loop self mem_stream now (elements (fallback_folders self)) success.

(** [__floorTime(dt, delta)].  [roundTo] is [delta.total_seconds()]; the
    quotient and product on it are taken exactly, in microseconds, which is
    what the floating-point operations give for whole seconds and for binary
    fractions of a second. *)
Definition __floorTime (dt : datetime) (delta : timedelta) : datetime :=
  let seconds := td_seconds (dt - 0) in
  let rounding_us := (seconds * US_PER_SECOND) `div` delta * delta in
  dt + (rounding_us - seconds * US_PER_SECOND) + - microsecond dt.

(** [next_instant] of [__wait_until_next_capture] *)
Definition next_instant (self : timelapse) (now : datetime) : datetime :=
  __floorTime (now + interval self) (interval self).

(** [__wait_until_next_capture]; [now] is what [_now()] returns in it.  The
    sleep itself leaves a record of its length, in microseconds. *)
Definition __wait_until_next_capture (self : timelapse) (now : datetime)
    : M storage unit :=
  let next := next_instant self now in
  let delay := Z.max 0 (next - now) in
  record (EvSleep delay next).

(** What the outside world decides about one round of the loop of [__run]:
    the clock at the capture, what [camera.capture] does, which root folders
    cannot be written, and the clock when the next sleep is computed. *)
Record tick : Type := Tick {
  tick_now : datetime;
  tick_capture : outcome bytes;
  tick_unwritable : gset string;
  tick_wait_now : datetime;
}.

Definition set_unwritable (u : gset string) : M storage unit :=
  modify (λ st, {| files := files st; unwritable := u; log := log st |}).

(** [camera.capture(mem_stream, 'jpeg')] *)
Definition camera_capture (t : tick) : M storage bytes :=
  match tick_capture t with
  | Ret image => mret image
  | Raise e => raise e
  end.

(** One round of [while self.keep_running]. *)
Definition run_round (self : timelapse) (t : tick) : M storage unit :=
  set_unwritable (tick_unwritable t) ;;
  let now := tick_now t in
  mem_stream ← camera_capture t;
  store self mem_stream now ;;
  __wait_until_next_capture self (tick_wait_now t).

(** The loop runs one round per element of [ticks]; after them
    [keep_running] is found false. *)
Fixpoint run_loop (self : timelapse) (ticks : list tick) : M storage unit :=
  match ticks with
  | [] => mret tt
  | t :: rest => run_round self t ;; run_loop self rest
  end.

(** [__run]; [start_now] is the clock at the first sleep. *)
Definition __run (self : timelapse) (start_now : datetime)
    (ticks : list tick) : M storage unit :=
  __wait_until_next_capture self start_now ;;
  run_loop self ticks.

End WithDigest.

Definition empty_storage : storage :=
  {| files := ∅; unwritable := ∅; log := [] |}.

Definition is_sleep (e : event) : bool :=
  match e with EvSleep _ _ => true | _ => false end.

(** How many sleeps a log records. *)
Definition count_sleeps (l : list event) : nat :=
  length (filter (λ e, is_sleep e = true) l).

(** Is [e] a record about the root folder [root]? *)
Definition about (root : string) (e : event) : bool :=
  match e with
  | EvWrote r _ | EvError r => bool_decide (r = root)
  | EvSleep _ _ => false
  end.

(** What a call of [_write_to_file] over [folders] adds to the log when the
    roots in [u] cannot be written: one record for every folder, an error
    for the unwritable ones and a written file for the others. *)
Definition records_of (folders : list string) (u : gset string)
    (new : list event) : Prop :=
  (∀ e, e ∈ new → ∃ r, r ∈ folders ∧
      ((r ∈ u ∧ e = EvError r) ∨ ((r ∉ u) ∧ ∃ p, e = EvWrote r p))) ∧
  (∀ r, r ∈ folders → r ∈ u → EvError r ∈ new) ∧
  (∀ r, r ∈ folders → r ∉ u → ∃ p, EvWrote r p ∈ new).

(** The files a log reports as written, in order. *)
Definition wrote (l : list event) : list string :=
  omap (λ e, match e with EvWrote _ p => Some p | _ => None end) l.

(** The instants that the sleeps of a log aim at, in order. *)
Definition aimed_at (l : list event) : list datetime :=
  omap (λ e, match e with EvSleep _ next => Some next | _ => None end) l.

(** The floored slot of a tick: what [__floorTime] makes of the clock read
    at the capture. *)
Definition slot (self : timelapse) (t : tick) : datetime :=
  __floorTime (tick_now t) (interval self).

(** The clock readings of the rounds [ticks] when no wake comes early: the
    clock at a capture is not before the instant [aimed] that the sleep
    before it was computed for, and it does not run backwards between the
    capture and the next computation of a sleep. *)
Fixpoint wakes_on_time (self : timelapse) (aimed : datetime)
    (ticks : list tick) : bool :=
  match ticks with
  | [] => true
  | t :: rest =>
      (aimed <=? tick_now t) && (tick_now t <=? tick_wait_now t)
      && wakes_on_time self (next_instant self (tick_wait_now t)) rest
  end.

End Timelapse.

(** ** The range of [datetime] *)

Module DatetimeRange.
Import Datetime Timelapse.

(** [datetime.max.toordinal()] *)
Definition MAXORDINAL : Z := 3652059.

(** [datetime.max], 9999-12-31 23:59:59.999999 *)
Definition datetime_max : datetime := MAXORDINAL * US_PER_DAY - 1.

(** [dt + td]: Python raises OverflowError, here [None], when the sum is
    outside of [datetime.min .. datetime.max]. *)
Definition datetime_add (dt : datetime) (td : timedelta) : option datetime :=
  if (0 <=? dt + td) && (dt + td <=? datetime_max) then Some (dt + td)
  else None.

(** [__floorTime] with the range check of its addition. *)
Definition floorTime_checked (dt : datetime) (delta : timedelta)
    : option datetime :=
  let seconds := td_seconds (dt - 0) in
  let rounding_us := (seconds * US_PER_SECOND) `div` delta * delta in
  datetime_add dt ((rounding_us - seconds * US_PER_SECOND) + - microsecond dt).

(** [next_instant] of [__wait_until_next_capture] with the range checks of
    [now + self.interval] and of [__floorTime]. *)
Definition next_instant_checked (self : timelapse) (now : datetime)
    : option datetime :=
  dt ← datetime_add now (interval self);
  floorTime_checked dt (interval self).

End DatetimeRange.

(** ** moveimages.py: the checksum of a file *)

Module MoveImages.
Import PosixPath.

(** A regular expression without repetition or alternative: a sequence of
    character classes, one per character. *)
Definition regex : Type := list (ascii → bool).

Definition lit (c : ascii) : ascii → bool := λ x, bool_decide (x = c).

Definition one_of (cs : list ascii) : ascii → bool :=
  λ x, bool_decide (x ∈ cs).

(** [[0-9A-Fa-f]] *)
Definition hexdigit (x : ascii) : bool :=
  let n := nat_of_ascii x in
  ((48 <=? n) && (n <=? 57) || (65 <=? n) && (n <=? 70)
   || (97 <=? n) && (n <=? 102))%nat.

(** [r"_md5-(?P<md5sum>[0-9A-Fa-f]32)[_\.]"]: the text [_md5-], one
    hexadecimal digit, the two characters [3] and [2], and then [_] or [.].
    The group [md5sum] spans the digit and the [32]. *)
Definition MD5SUM_REGEX : regex :=
  [lit "_"; lit "m"; lit "d"; lit "5"; lit "-";
   hexdigit; lit "3"; lit "2";
   one_of ["_"; "."]]%char.

(** Start and length of the group [md5sum] inside a match. *)
Definition md5sum_group : nat * nat := (5%nat, 3%nat).

(** Does [re] match a prefix of [s]? *)
Fixpoint match_here (re : regex) (s : string) : bool :=
  match re, s with
  | [], _ => true
  | cls :: re', String c s' => cls c && match_here re' s'
  | _ :: _, EmptyString => false
  end.

(** [re.search(s)]: the leftmost match, as the text from its start on. *)
Fixpoint search (re : regex) (s : string) : option string :=
  if match_here re s then Some s
  else match s with
       | EmptyString => None
       | String _ s' => search re s'
       end.

(** [match.group('md5sum')] *)
Definition group_md5sum (m : string) : string :=
  String.substring md5sum_group.1 md5sum_group.2 m.

(** Where a checksum came from. *)
Inductive md5_source : Type :=
  | FromBasename (md5sum : string)
  | FromFile (path : string).

(** [get_md5sum(path, try_from_basename)], up to the point where it either
    returns what it found in the name or opens the file to hash it. *)
Definition get_md5sum_source (path : string) (try_from_basename : bool)
    : md5_source :=
  if try_from_basename then
    match search MD5SUM_REGEX (basename path) with
    | Some m =>
        let md5sum := group_md5sum m in
        if negb (is_empty md5sum) then FromBasename md5sum else FromFile path
    | None => FromFile path
    end
  else FromFile path.

Section WithFiles.

(** The digest of the content of the file at a path; [None] when the file
    cannot be opened or read. *)
Variable file_md5 : string → option string.

(** [get_md5sum(path, try_from_basename)] *)
Definition get_md5sum (path : string) (try_from_basename : bool)
    : outcome string :=
  match get_md5sum_source path try_from_basename with
  | FromBasename md5sum => Ret md5sum
  | FromFile p =>
      match file_md5 p with
      | Some md5sum => Ret md5sum
      | None => Raise OSError
      end
  end.

End WithFiles.

End MoveImages.

(** ** Character classes and scans over strings, used to state what file
       names look like *)

Module Text.

(** Every character of [s] satisfies [P]. *)
Fixpoint sall (P : ascii → bool) (s : string) : bool :=
  match s with
  | EmptyString => true
  | String c rest => P c && sall P rest
  end.

Definition is_digit (c : ascii) : bool :=
  let n := nat_of_ascii c in ((48 <=? n) && (n <=? 57))%nat.

Definition is_not (x : ascii) (c : ascii) : bool := negb (bool_decide (c = x)).

(** The characters of a formatted timestamp: digits and [_]. *)
Definition stamp_char (c : ascii) : bool :=
  is_digit c || bool_decide (c = "_"%char).

(** [s] starts with the two characters [_m]. *)
Definition starts_um (s : string) : bool :=
  match s with
  | String c1 (String c2 _) =>
      bool_decide (c1 = "_"%char) && bool_decide (c2 = "m"%char)
  | _ => false
  end.

(** [_m] occurs nowhere in [s]. *)
Fixpoint um_free (s : string) : bool :=
  match s with
  | EmptyString => true
  | String _ rest => negb (starts_um s) && um_free rest
  end.

End Text.

(** ** Concrete configurations used in examples *)

Module Scenario.
Import Datetime Timelapse.

(** Dawn at 07:12 and dusk at 18:45 on every day. *)
Definition eksel : location :=
  {| dawn := λ t, midnight t + at_time 1 7 12 0 0;
     dusk := λ t, midnight t + at_time 1 18 45 0 0 |}.

(** The configuration of [picamserver.py]: one capture a minute, one primary
    and one fallback folder. *)
Definition every_minute : timelapse :=
  {| interval := seconds_delta 60; loc := eksel;
     root_folders := {["/mnt/usb/timelapse/"]};
     fallback_folders := {["/mnt/sdcard/timelapse/"]} |}.

Definition half_second : timelapse :=
  {| interval := 500000; loc := eksel;
     root_folders := ∅; fallback_folders := ∅ |}.

Definition two_primaries : timelapse :=
  {| interval := seconds_delta 60; loc := eksel;
     root_folders := {["/mnt/usb/timelapse/"; "/mnt/usb2/timelapse/"]};
     fallback_folders := {["/mnt/sdcard/timelapse/"]} |}.

Definition no_primary : timelapse :=
  {| interval := seconds_delta 60; loc := eksel;
     root_folders := ∅;
     fallback_folders := {["/mnt/sdcard/timelapse/"]} |}.

Definition usb : string := "/mnt/usb/timelapse/".
Definition digest : string := "d41d8cd98f00b204e9800998ecf8427e".
Definition hexdigest (_ : bytes) : string := digest.

(** 2020-01-01 14:00:00 *)
Definition two_pm : datetime := at_time 737425 14 0 0 0.

Definition taken : gset string :=
  {[ "/mnt/usb/timelapse/20200101/img_20200101_140000_md5-d41d8cd98f00b204e9800998ecf8427e.jpg";
     "/mnt/usb/timelapse/20200101/img_20200101_140000_md5-d41d8cd98f00b204e9800998ecf8427e_1.jpg" ]}.

Definition usb2_unmounted : storage :=
  {| files := ∅; unwritable := {["/mnt/usb2/timelapse/"]}; log := [] |}.

Definition usb_unmounted : storage :=
  {| files := ∅; unwritable := {["/mnt/usb/timelapse/"]}; log := [] |}.

Definition capture_fails : tick :=
  {| tick_now := two_pm; tick_capture := Raise PiCameraRuntimeError;
     tick_unwritable := ∅; tick_wait_now := two_pm + 2000000 |}.

Definition capture_works : tick :=
  {| tick_now := two_pm + 60000000; tick_capture := Ret [];
     tick_unwritable := ∅; tick_wait_now := two_pm + 62000000 |}.

Definition storage_down : tick :=
  {| tick_now := two_pm; tick_capture := Ret [];
     tick_unwritable := {["/mnt/usb/timelapse/"; "/mnt/sdcard/timelapse/"]};
     tick_wait_now := two_pm + 2000000 |}.

(** A folder that is both a primary and a fallback folder. *)
Definition shared_folder : timelapse :=
  {| interval := seconds_delta 60; loc := eksel;
     root_folders := {["/mnt/usb/timelapse/"; "/mnt/usb2/timelapse/"]};
     fallback_folders := {["/mnt/usb/timelapse/"]} |}.

(** An interval of three million days. *)
Definition three_million_days : timelapse :=
  {| interval := seconds_delta (3000000 * 86400); loc := eksel;
     root_folders := ∅; fallback_folders := ∅ |}.

(** The night of 2020-10-25, when summer time ends: a capture at
    02:00:00.2, the computation of the sleep after the capture of 02:59,
    and the clock read after that sleep, set back by one hour meanwhile. *)
Definition first_two_oclock : datetime := at_time 737723 2 0 0 200000.
Definition before_three : datetime := at_time 737723 2 59 0 300000.
Definition second_two_oclock : datetime := at_time 737723 2 0 0 100000.

Definition tick_at (now : datetime) : tick :=
  {| tick_now := now; tick_capture := Ret []; tick_unwritable := ∅;
     tick_wait_now := now + 2000000 |}.

(** A file whose content has changed since it was named: hashing it gives a
    digest other than the one in its name. *)
Definition changed_content (p : string) : option string :=
  Some "00000000000000000000000000000000".

(** Three sinks; the peer of sink 2 is gone and its [close] raises. *)
Definition demo_world : Sink.world :=
  {| Sink.closed := ∅; Sink.broken := {[2%nat]};
     Sink.close_raises := {[2%nat]}; Sink.log := [] |}.

(** Two clients connected and recording; the peer of client 1 is gone. *)
Definition two_clients : TcpVideoStreamServer.state :=
  ({| TcpVideoStreamServer.outputs := {[1%nat; 2%nat]};
      TcpVideoStreamServer.recording := Some {[1%nat; 2%nat]} |},
   {| Sink.closed := ∅; Sink.broken := {[1%nat]};
      Sink.close_raises := ∅; Sink.log := [] |}).

End Scenario.

(** ** os.path, continued: normpath, abspath, relpath *)

Module RelPath.
Import PosixPath.

(** [s.split('/')] *)
Fixpoint split_sep (s : string) : list string :=
  match s with
  | EmptyString => [EmptyString]
  | String c rest =>
      if bool_decide (c = sep) then EmptyString :: split_sep rest
      else match split_sep rest with
           | h :: t => String c h :: t
           | [] => [String c EmptyString]
           end
  end.

(** ['/'.join(comps)] *)
Fixpoint join_sep (comps : list string) : string :=
  match comps with
  | [] => ""
  | [c] => c
  | c :: rest => c +:+ "/" +:+ join_sep rest
  end.

(** [initial_slashes] of [normpath]: POSIX keeps two leading slashes and
    treats three or more as one. *)
Definition initial_slashes (path : string) : nat :=
  if String.prefix "///" path then 1%nat
  else if String.prefix "//" path then 2%nat
  else if String.prefix "/" path then 1%nat
  else 0%nat.

Definition is_nil {A} (l : list A) : bool :=
  match l with [] => true | _ => false end.

(** One round of the loop of [normpath] over the components. *)
Definition normpath_step (initial : nat) (new_comps : list string)
    (comp : string) : list string :=
  if bool_decide (comp = "") || bool_decide (comp = ".") then new_comps
  else if negb (bool_decide (comp = ".."))
          || (bool_decide (initial = 0%nat) && is_nil new_comps)
          || (negb (is_nil new_comps)
              && bool_decide (last new_comps = Some ".."))
  then new_comps ++ [comp]
  else removelast new_comps.

Fixpoint slashes (n : nat) : string :=
  match n with O => "" | S n' => String sep (slashes n') end.

(** [os.path.normpath] *)
Definition normpath (path : string) : string :=
  if is_empty path then "."
  else
    let initial := initial_slashes path in
    let comps := foldl (normpath_step initial) [] (split_sep path) in
    let path := join_sep comps in
    let path := if bool_decide (initial = 0%nat) then path
                else slashes initial +:+ path in
    if is_empty path then "." else path.

Definition isabs (path : string) : bool := startswith_sep path.

(** [os.path.abspath]; [cwd] is [os.getcwd()]. *)
Definition abspath (cwd path : string) : string :=
  normpath (if isabs path then path else join2 cwd path).

(** [os.path.realpath] on a file system without symbolic links. *)
Definition realpath (cwd path : string) : string := abspath cwd path.

(** [[x for x in p.split(sep) if x]] *)
Definition components (p : string) : list string :=
  filter (λ x, x ≠ "") (split_sep p).

(** [os.path.commonprefix] of two lists of components. *)
Fixpoint commonprefix (l1 l2 : list string) : list string :=
  match l1, l2 with
  | x :: l1', y :: l2' =>
      if bool_decide (x = y) then x :: commonprefix l1' l2' else []
  | _, _ => []
  end.

(** [join] applied to the elements of [rel_list] *)
Definition join_all (rel_list : list string) : string :=
  match rel_list with
  | [] => ""
  | a :: rest => foldl join2 a rest
  end.

(** The last lines of [relpath], from the two lists of components on. *)
Definition relpath_of (start_list path_list : list string) : string :=
  let i := length (commonprefix start_list path_list) in
  let rel_list :=
    replicate (length start_list - i) ".." ++ drop i path_list in
  if is_nil rel_list then "." else join_all rel_list.

(** [os.path.relpath(path, start)]; [None] is its ValueError for an empty
    [path]. *)
Definition relpath (cwd path start : string) : option string :=
  if is_empty path then None
  else
    let start_list := components (abspath cwd start) in
    let path_list := components (abspath cwd path) in
    Some (relpath_of start_list path_list).

(** [is_subdir_of(path, directory)] of [moveimages.py]; [None] stands for an
    exception raised by [relpath]. *)
Definition is_subdir_of (cwd path directory : string) : option bool :=
  let path := realpath cwd path in
  let directory := realpath cwd directory in
  relative ← relpath cwd path directory;
  Some (negb (String.prefix "../" relative)).

(** A component of a normalised absolute path: not empty, neither [.] nor
    [..], and without separator. *)
Definition clean (c : string) : Prop :=
  c ≠ "" ∧ c ≠ "." ∧ c ≠ ".." ∧ has_sep c = false.

(** A component that [join] appends to what came before. *)
Definition relative (c : string) : Prop := startswith_sep c = false.

End RelPath.

(** ** moveimages.py: moving one file *)

Module FileMover.
Import PosixPath MoveImages RelPath.

Definition bytes : Type := Sink.bytes.

(** What the methods of [FileMover] raise: a built-in exception or the
    module's own [InvalidPathException]. *)
Inductive failure : Type :=
  | Builtin (e : exn)
  | InvalidPathException (path : string).

Inductive result (A : Type) : Type :=
  | Done (a : A)
  | Failed (e : failure).
Arguments Done {A} a.
Arguments Failed {A} e.

Record filemover : Type := {
  src_folders : list string;
  dst_folders : list string;
  mountpoints : list string;
}.

Inductive action : Type :=
  | EvCopied (src dst : string)    (* [shutil.copy2(src, dst)] returned *)
  | EvRemoved (path : string).     (* [os.remove(path)] returned *)

#[global] Instance action_eq_dec : EqDecision action.
Proof. solve_decision. Defined.

(** The regular files of the file system, by real path, with what stands in
    the way of using them: files that cannot be opened for reading, paths
    that cannot be opened for writing (a read-only or missing folder), files
    that cannot be removed.  [journal] lists the copies and removals that
    were carried out. *)
Record disk : Type := Disk {
  content : gmap string bytes;
  unreadable : gset string;
  readonly : gset string;
  undeletable : gset string;
  journal : list action;
}.

Definition store_file (k : string) (b : bytes) (a : action) (d : disk) : disk :=
  {| content := <[k := b]> (content d); unreadable := unreadable d;
     readonly := readonly d; undeletable := undeletable d;
     journal := journal d ++ [a] |}.

Definition delete_file (k : string) (a : action) (d : disk) : disk :=
  {| content := delete k (content d); unreadable := unreadable d;
     readonly := readonly d; undeletable := undeletable d;
     journal := journal d ++ [a] |}.

Section WithMedium.

(** [os.getcwd()] *)
Variable cwd : string.
(** [hashlib.md5(content).hexdigest()] *)
Variable hexdigest : bytes → string.
(** What a file holds after [content] was written to it: the content itself
    on a sound medium. *)
Variable written : string → bytes → bytes.

(** The file a path names. *)
Definition key (path : string) : string := realpath cwd path.

(** [os.path.isfile(path)] *)
Definition isfile (d : disk) (path : string) : bool :=
  bool_decide (is_Some (content d !! key path)).

(** Opening the file at [path] and hashing what it holds. *)
Definition file_md5 (d : disk) (path : string) : option string :=
  if decide (key path ∈ unreadable d) then None
  else hexdigest <$> content d !! key path.

(** [any([is_subdir_of(path, x) for x in folders])] *)
Definition is_path_of (folders : list string) (path : string) : option bool :=
  existsb id <$> mapM (is_subdir_of cwd path) folders.

Definition is_src_path (self : filemover) (path : string) : option bool :=
  is_path_of (src_folders self) path.

Definition is_dst_path (self : filemover) (path : string) : option bool :=
  is_path_of (dst_folders self) path.

Definition check_path (inside : option bool) (path : string) : result string :=
  match inside with
  | None => Failed (Builtin ValueError)
  | Some true => Done path
  | Some false => Failed (InvalidPathException path)
  end.

Definition _check_src_path (self : filemover) (src_path : string)
    : result string :=
  check_path (is_src_path self src_path) src_path.

Definition _check_dst_path (self : filemover) (dst_path : string)
    : result string :=
  check_path (is_dst_path self dst_path) dst_path.

(** The first loop of [move_file]: the check of every destination path. *)
Fixpoint check_dst_paths (self : filemover) (filename : string)
    (dst_dir_paths : list string) : result unit :=
  match dst_dir_paths with
  | [] => Done tt
  | dst_dir_path :: rest =>
      match _check_dst_path self (join2 dst_dir_path filename) with
      | Done _ => check_dst_paths self filename rest
      | Failed e => Failed e
      end
  end.

(** [shutil.copy2(src, dst)]: refuses to copy a file onto itself, opens the
    source for reading and the destination for writing. *)
Definition copy2 (src dst : string) (d : disk) : outcome unit * disk :=
  if decide (key src = key dst ∧ is_Some (content d !! key src))
  then (Raise OSError, d)
  else match content d !! key src with
       | None => (Raise OSError, d)
       | Some b =>
           if decide (key src ∈ unreadable d) then (Raise OSError, d)
           else if decide (key dst ∈ readonly d) then (Raise OSError, d)
           else (Ret tt,
                 store_file (key dst) (written (key dst) b)
                   (EvCopied src dst) d)
       end.

(** [os.remove(path)] *)
Definition remove (path : string) (d : disk) : outcome unit * disk :=
  if decide (is_Some (content d !! key path) ∧ key path ∉ undeletable d)
  then (Ret tt, delete_file (key path) (EvRemoved path) d)
  else (Raise OSError, d).

(** The test at the head of the second loop of [move_file]: the destination
    file exists and its checksum is that of the source. *)
Definition already_there (src_md5sum dst_path : string) (d : disk) : bool :=
  if isfile d dst_path then
    match get_md5sum (file_md5 d) dst_path false with
    | Ret dst_md5sum => bool_decide (dst_md5sum = src_md5sum)
    | Raise _ => false
    end
  else false.

(** One round of the second loop of [move_file], on [all_ok] and the disk. *)
Definition copy_round (src_path src_md5sum filename : string)
    (acc : bool * disk) (dst_dir_path : string) : bool * disk :=
  let '(all_ok, d) := acc in
  let dst_path := join2 dst_dir_path filename in
  if already_there src_md5sum dst_path d then (all_ok, d)
  else
    match copy2 src_path dst_path d with
    | (Raise _, d') => (false, d')
    | (Ret _, d') =>
        match get_md5sum (file_md5 d') dst_path false with
        | Raise _ => (false, d')
        | Ret dst_md5sum =>
            if bool_decide (src_md5sum ≠ dst_md5sum) then (false, d')
            else (all_ok, d')
        end
    end.

Definition copy_loop (src_path src_md5sum filename : string)
    (dst_dir_paths : list string) (d : disk) : bool * disk :=
  foldl (copy_round src_path src_md5sum filename) (true, d) dst_dir_paths.

(** [FileMover.move_file(src_dir_path, filename, dst_dir_paths)] *)
Definition move_file (self : filemover) (src_dir_path filename : string)
    (dst_dir_paths : list string) (d : disk) : result unit * disk :=
  if bool_decide (length dst_dir_paths = 0%nat)
  then (Failed (Builtin ValueError), d)
  else
    match _check_src_path self (join2 src_dir_path filename) with
    | Failed e => (Failed e, d)
    | Done src_path =>
        match check_dst_paths self filename dst_dir_paths with
        | Failed e => (Failed e, d)
        | Done _ =>
            match get_md5sum (file_md5 d) src_path true with
            | Raise _ => (Done tt, d)
            | Ret src_md5sum =>
                (* [os.stat(src_path).st_size] *)
                if isfile d src_path then
                  let '(all_ok, d') :=
                    copy_loop src_path src_md5sum filename dst_dir_paths d in
                  if all_ok then
                    match remove src_path d' with
                    | (Ret _, d'') => (Done tt, d'')
                    | (Raise e, d'') => (Failed (Builtin e), d'')
                    end
                  else (Done tt, d')
                else (Failed (Builtin OSError), d)
            end
        end
    end.

End WithMedium.

End FileMover.

(** ** Disks and configurations used in the examples of [move_file] *)

Module MoverScenario.
Import FileMover.

(** The configuration of [moveimages.py]. *)
Definition mover : filemover :=
  {| src_folders := ["/mnt/usb/timelapse/"; "/mnt/sdcard/timelapse/"];
     dst_folders := ["/mnt/storage0/timelapse/"];
     mountpoints := ["/mnt/storage0/"] |}.

(** A configuration in which a source folder is a destination folder too. *)
Definition overlapping : filemover :=
  {| src_folders := ["/mnt/usb/timelapse/"];
     dst_folders := ["/mnt/usb/timelapse/"; "/mnt/storage0/timelapse/"];
     mountpoints := [] |}.

Definition picture : bytes := [x01; x02; x03]%byte.

(** A toy checksum of 32 characters that tells an empty file from others. *)
Definition toy_digest (b : bytes) : string :=
  match b with
  | [] => "d41d8cd98f00b204e9800998ecf8427e"
  | _ :: _ => "5289df737df57326fcdd22597afb1fac"
  end.

(** A medium that stores what it is given, and one that loses it. *)
Definition sound (k : string) (b : bytes) : bytes := b.
Definition lossy (k : string) (b : bytes) : bytes := [].

Definition one_picture : disk :=
  {| content := {[ "/mnt/usb/timelapse/a.jpg" := picture ]};
     unreadable := ∅; readonly := ∅; undeletable := ∅; journal := [] |}.

Definition marked_picture : disk :=
  {| content := {[ "/mnt/usb/timelapse/img_md5-a32.jpg" := picture ]};
     unreadable := ∅; readonly := ∅; undeletable := ∅; journal := [] |}.

End MoverScenario.

(** * Part II: properties *)

(** ** Generic facts about the monad *)

Module PyFacts.

Lemma bind_ret {St A B} (m : M St A) (k : A → M St B) st a st' :
  m st = (Ret a, st') → (m ≫= k) st = k a st'.
Proof. unfold mbind, M_bind, bind. by intros ->. Qed.

Lemma bind_raise {St A B} (m : M St A) (k : A → M St B) st e st' :
  m st = (Raise e, st') → (m ≫= k) st = (Raise e, st').
Proof. unfold mbind, M_bind, bind. by intros ->. Qed.

End PyFacts.

(** ** StreamTee.write *)

Module StreamTeeFacts.
Import Sink StreamTee PyFacts.

Lemma each_body_ok r s streams w :
  ¬ write_fails w s →
  each_body r s streams w = (Ret streams, record (done_event r s) w).
Proof.
  intros Hok. unfold each_body, try_except, mbind, M_bind, bind, perform.
  unfold write_fails in Hok.
  destruct (decide (s ∈ closed w)); [tauto|].
  destruct (decide (s ∈ broken w)); [tauto|]. done.
Qed.

Lemma each_body_fail r s streams w :
  write_fails w s →
  each_body r s streams w
  = (Ret (streams ∖ {[s]}), record (EvClose s) (mark_closed s w)).
Proof.
  intros Hf. unfold each_body, try_except, mbind, M_bind, bind, perform.
  unfold write_fails in Hf.
  destruct (decide (s ∈ closed w)) as [|Hnc]; simpl.
  - unfold Sink.close. by destruct (decide (s ∈ close_raises w)).
  - destruct (decide (s ∈ broken w)); [|tauto]. simpl.
    unfold Sink.close. by destruct (decide (s ∈ close_raises w)).
Qed.

Lemma write_fails_record e w s : write_fails (record e w) s ↔ write_fails w s.
Proof. done. Qed.

Lemma write_fails_mark_closed x w s :
  s ≠ x → write_fails (mark_closed x w) s ↔ write_fails w s.
Proof. unfold write_fails, mark_closed; simpl. set_solver. Qed.

Lemma filter_write_fails_ext w1 w2 (l : list sink) :
  (∀ s, s ∈ l → write_fails w1 s ↔ write_fails w2 s) →
  filter (write_fails w1) l = filter (write_fails w2) l.
Proof.
  induction l as [|x l IH]; intros H; [done|].
  rewrite !filter_cons.
  rewrite IH by (intros; apply H; by right).
  pose proof (H x (list_elem_of_here _ _)).
  destruct (decide (write_fails w1 x)), (decide (write_fails w2 x));
    try done; tauto.
Qed.

Lemma loop_event_ext r w1 w2 (l : list sink) :
  (∀ s, s ∈ l → write_fails w1 s ↔ write_fails w2 s) →
  loop_event r w1 <$> l = loop_event r w2 <$> l.
Proof.
  induction l as [|x l IH]; intros H; [done|]. rewrite !fmap_cons.
  rewrite IH by (intros; apply H; by right). f_equal.
  unfold loop_event.
  pose proof (H x (list_elem_of_here _ _)).
  destruct (decide (write_fails w1 x)), (decide (write_fails w2 x)); tauto.
Qed.

(** A whole loop, in closed form. *)
Lemma each_loop_run r snapshot : ∀ streams w,
  NoDup snapshot →
  each_loop r snapshot streams w
  = (Ret (streams ∖ failing w snapshot),
     {| closed := closed w ∪ failing w snapshot;
        broken := broken w;
        close_raises := close_raises w;
        log := log w ++ (loop_event r w <$> snapshot) |}).
Proof.
  induction snapshot as [|s rest IH]; intros streams w Hnd.
  - simpl. unfold mret, M_ret, ret, failing. simpl.
    rewrite app_nil_r. destruct w; simpl. f_equal; [f_equal|f_equal]; set_solver.
  - apply NoDup_cons in Hnd as [Hs Hrest]. cbn [each_loop].
    destruct (decide (write_fails w s)) as [Hf|Hok].
    + erewrite bind_ret by (by apply each_body_fail).
      rewrite IH by done.
      set (w1 := record (EvClose s) (mark_closed s w)).
      assert (Hext : ∀ x, x ∈ rest → write_fails w1 x ↔ write_fails w x).
      { intros x Hx. unfold w1. rewrite write_fails_record.
        apply write_fails_mark_closed. intros ->. done. }
      unfold failing. rewrite (filter_write_fails_ext _ _ _ Hext).
      rewrite (loop_event_ext _ _ _ _ Hext).
      rewrite filter_cons, fmap_cons. destruct (decide (write_fails w s)); [|done].
      unfold loop_event at 2. destruct (decide (write_fails w s)); [|done].
      simpl. rewrite <- app_assoc. simpl.
      f_equal; [f_equal|f_equal]; set_solver.
    + erewrite bind_ret by (by apply each_body_ok).
      rewrite IH by done.
      set (w1 := record (done_event r s) w).
      assert (Hext : ∀ x, x ∈ rest → write_fails w1 x ↔ write_fails w x).
      { intros x Hx. unfold w1. by rewrite write_fails_record. }
      unfold failing. rewrite (filter_write_fails_ext _ _ _ Hext).
      rewrite (loop_event_ext _ _ _ _ Hext).
      rewrite filter_cons, fmap_cons. destruct (decide (write_fails w s)); [done|].
      unfold loop_event at 2. destruct (decide (write_fails w s)); [done|].
      simpl. rewrite <- app_assoc. simpl. done.
Qed.

Lemma write_loop_each b snapshot : ∀ streams w,
  write_loop b snapshot streams w = each_loop (Write b) snapshot streams w.
Proof.
  induction snapshot as [|s rest IH]; intros streams w; [done|].
  cbn [write_loop each_loop]. unfold mbind, M_bind, bind.
  change (write_body b s streams w) with (each_body (Write b) s streams w).
  destruct (each_body (Write b) s streams w) as [[streams'|e] w']; [|done].
  apply IH.
Qed.

Lemma flush_loop_each snapshot : ∀ streams w,
  flush_loop snapshot streams w = each_loop Flush snapshot streams w.
Proof.
  induction snapshot as [|s rest IH]; intros streams w; [done|].
  cbn [flush_loop each_loop]. unfold mbind, M_bind, bind.
  change (flush_body s streams w) with (each_body Flush s streams w).
  destruct (each_body Flush s streams w) as [[streams'|e] w']; [|done].
  apply IH.
Qed.

(** [StreamTee.write] and [StreamTee.flush], in closed form. *)
Lemma each_run r streams w :
  each r streams w
  = (Ret (streams ∖ failing w (elements streams)),
     {| closed := closed w ∪ failing w (elements streams);
        broken := broken w;
        close_raises := close_raises w;
        log := log w ++ (loop_event r w <$> elements streams) |}).
Proof.
  destruct r as [b|]; simpl.
  - unfold StreamTee.write. rewrite write_loop_each.
    apply each_loop_run, NoDup_elements.
  - unfold StreamTee.flush. rewrite flush_loop_each.
    apply each_loop_run, NoDup_elements.
Qed.

End StreamTeeFacts.

Module StreamTeeSpec.
Import Sink StreamTee PyFacts StreamTeeFacts.
Import Scenario.

(** C5.  [StreamTee.write(b)] returns to its caller whatever the sinks do.
    A sink of the snapshot whose write fails is discarded from the tee's set
    and closed; every sink of the snapshot whose own write does not fail
    stays in the set and has received [b]. *)
Theorem write_best_effort (streams : gset sink) (b : bytes) (w : world) :
  ∃ streams' w' new,
    StreamTee.write streams b w = (Ret streams', w') ∧
    log w' = log w ++ new ∧
    ∀ X, X ∈ streams →
      (write_fails w X →
         (X ∉ streams') ∧ X ∈ closed w' ∧ EvClose X ∈ new ∧
         (∀ Y, Y ∈ streams → Y ≠ X → ¬ write_fails w Y →
               Y ∈ streams' ∧ EvWrite Y b ∈ new)) ∧
      (¬ write_fails w X → X ∈ streams' ∧ EvWrite X b ∈ new).
Proof.
  change (StreamTee.write streams b w) with (each (Write b) streams w).
  rewrite each_run.
  eexists _, _, _. split; [reflexivity|]. split; [reflexivity|].
  assert (Hfail : ∀ Z, Z ∈ streams → write_fails w Z →
            Z ∈ failing w (elements streams) ∧
            EvClose Z ∈ loop_event (Write b) w <$> elements streams).
  { intros Z HZ Hf. split.
    - unfold failing. rewrite elem_of_list_to_set, list_elem_of_filter.
      split; [done|]. by apply elem_of_elements.
    - apply list_elem_of_fmap. exists Z. split; [|by apply elem_of_elements].
      unfold loop_event. by destruct (decide (write_fails w Z)). }
  assert (Hok : ∀ Z, Z ∈ streams → ¬ write_fails w Z →
            (Z ∉ failing w (elements streams)) ∧
            EvWrite Z b ∈ loop_event (Write b) w <$> elements streams).
  { intros Z HZ Hf. split.
    - unfold failing. rewrite elem_of_list_to_set, list_elem_of_filter. tauto.
    - apply list_elem_of_fmap. exists Z. split; [|by apply elem_of_elements].
      unfold loop_event. by destruct (decide (write_fails w Z)). }
  intros X HX. split.
  - intros Hf. destruct (Hfail X HX Hf) as [HXf HXc]. simpl.
    repeat split; [set_solver|set_solver|done|..];
      destruct (Hok Y) as [? ?]; try done. set_solver.
  - intros Hnf. destruct (Hok X HX Hnf) as [? ?]. split; [set_solver|done].
Qed.

Lemma write_best_effort_witness :
  ∃ streams' w' new,
    StreamTee.write {[1%nat; 2%nat; 3%nat]} [x2a%byte] demo_world
      = (Ret streams', w') ∧
    log w' = log demo_world ++ new ∧
    (2%nat ∉ streams') ∧ 2%nat ∈ closed w' ∧ EvClose 2%nat ∈ new ∧
    1%nat ∈ streams' ∧ EvWrite 1%nat [x2a%byte] ∈ new ∧
    3%nat ∈ streams' ∧ EvWrite 3%nat [x2a%byte] ∈ new.
Proof.
  destruct (write_best_effort {[1%nat; 2%nat; 3%nat]} [x2a%byte] demo_world)
    as (streams' & w' & new & Hrun & Hlog & H).
  exists streams', w', new. split; [exact Hrun|]. split; [exact Hlog|].
  assert (Hfails : write_fails demo_world 2%nat).
  { unfold write_fails, demo_world; simpl. set_solver. }
  assert (Hok : ∀ Y : sink, Y ≠ 2%nat → ¬ write_fails demo_world Y).
  { intros Y HY. unfold write_fails, demo_world; simpl. set_solver. }
  destruct (H 2%nat) as [Hfail _]; [set_solver|].
  destruct (Hfail Hfails) as (Hout & Hclosed & Hclose & Hothers).
  destruct (Hothers 1%nat) as [H1 H1']; [set_solver|lia|apply Hok; lia|].
  destruct (Hothers 3%nat) as [H3 H3']; [set_solver|lia|apply Hok; lia|].
  repeat split; assumption.
Defined.

(** Scenario 4 of the specification: three clients, the second one's socket
    is gone; the next buffer reaches clients 1 and 3 and the set shrinks
    from three sinks to two. *)
Example three_clients_one_gone :
  let r := StreamTee.write {[1%nat; 2%nat; 3%nat]} [x2a%byte] demo_world in
  r.1 = Ret ({[1%nat; 3%nat]} : gset sink) ∧
  log r.2 ≡ₚ [EvWrite 1%nat [x2a%byte]; EvClose 2%nat; EvWrite 3%nat [x2a%byte]].
Proof.
  split; [by vm_compute|].
  assert (log (StreamTee.write {[1%nat; 2%nat; 3%nat]} [x2a%byte] demo_world).2
          = [EvClose 2%nat; EvWrite 3%nat [x2a%byte]; EvWrite 1%nat [x2a%byte]])
    as -> by (by vm_compute).
  symmetry. apply (Permutation_cons_append [_; _]).
Qed.

End StreamTeeSpec.

(** ** TcpVideoStreamServer: which sinks the encoder broadcasts to *)

Module TcpVideoStreamServerFacts.
Import Sink StreamTee TcpVideoStreamServer PyFacts StreamTeeFacts.

Lemma encoder_call_run r st :
  ∃ st', encoder_call r st = (Ret tt, st') ∧
         outputs st'.1 = outputs st.1 ∧
         active st' = active st ∖ failing st.2 (elements (active st)) ∧
         closed st.2 ⊆ closed st'.2.
Proof.
  destruct st as [[outs rec] w]. unfold encoder_call, active. simpl.
  destruct rec as [streams|]; simpl.
  - rewrite each_run.
    eexists. split; [reflexivity|]. simpl. split; [done|]. split; [done|].
    set_solver.
  - eexists. split; [reflexivity|]. simpl. set_solver.
Qed.

Lemma _outputs_changed_run st :
  _outputs_changed st
  = (Ret tt, ({| outputs := outputs st.1;
                 recording := match recording st.1 with
                              | None => None
                              | Some _ => Some (outputs st.1)
                              end |}, st.2)).
Proof.
  destruct st as [[outs rec] w].
  unfold _outputs_changed, mbind, M_bind, bind, get, try_except,
    split_recording, StreamTee_init. simpl.
  by destruct rec.
Qed.

Lemma step_returns o st : ∃ st', step o st = (Ret tt, st').
Proof.
  destruct o; simpl.
  - eexists. reflexivity.
  - unfold add_output, mbind, M_bind, bind, modify.
    rewrite _outputs_changed_run. eauto.
  - unfold remove_output, mbind, M_bind, bind, modify.
    rewrite _outputs_changed_run. eauto.
  - destruct (encoder_call_run (Write b) st) as (st' & Hst' & _).
    unfold encoder_write. rewrite Hst'. eauto.
  - destruct (encoder_call_run Flush st) as (st' & Hst' & _).
    unfold encoder_flush. rewrite Hst'. eauto.
  - eexists. reflexivity.
Qed.

Lemma run_ops_returns ops : ∀ st, ∃ st', run_ops ops st = (Ret tt, st').
Proof.
  induction ops as [|o ops IH]; intros st; simpl.
  - eexists. reflexivity.
  - destruct (step_returns o st) as [st1 H1].
    erewrite bind_ret by exact H1. apply IH.
Qed.

Lemma run_ops_cons o ops st st1 :
  step o st = (Ret tt, st1) → run_ops (o :: ops) st = run_ops ops st1.
Proof. intros H. simpl. by erewrite bind_ret by exact H. Qed.

Lemma run_ops_app ops1 ops2 : ∀ st st1,
  run_ops ops1 st = (Ret tt, st1) →
  run_ops (ops1 ++ ops2) st = run_ops ops2 st1.
Proof.
  induction ops1 as [|o ops1 IH]; intros st st1 H; simpl in *.
  - unfold mret, M_ret, ret in H. by simplify_eq.
  - destruct (step_returns o st) as [st' Hst'].
    erewrite bind_ret in H by exact Hst'.
    erewrite bind_ret by exact Hst'. by apply IH.
Qed.

(** A broadcast or a lost peer never enlarges the set being broadcast to. *)
Lemma step_quiet_active o st st' :
  is_redirect o = false → step o st = (Ret tt, st') →
  active st' ⊆ active st ∧ outputs st'.1 = outputs st.1.
Proof.
  destruct o; simpl; try done; intros _ H.
  - destruct (encoder_call_run (Write b) st) as (st1 & H1 & Ho & Ha & _).
    unfold encoder_write in H. rewrite H1 in H. simplify_eq.
    split; [set_solver|done].
  - destruct (encoder_call_run Flush st) as (st1 & H1 & Ho & Ha & _).
    unfold encoder_flush in H. rewrite H1 in H. simplify_eq.
    split; [set_solver|done].
  - unfold peer_gone, modify in H. simplify_eq. by destruct st as [[??]?].
Qed.

Lemma step_inv o st st' : inv st → step o st = (Ret tt, st') → inv st'.
Proof.
  unfold inv. intros Hinv H. destruct o; simpl in H.
  - unfold start, mbind, M_bind, bind, get, start_recording, modify,
      StreamTee_init in H. simplify_eq. unfold active; simpl. done.
  - unfold add_output, mbind, M_bind, bind, modify in H.
    rewrite _outputs_changed_run in H. simplify_eq.
    destruct st as [[outs [t|]] w]; unfold active; simpl; set_solver.
  - unfold remove_output, mbind, M_bind, bind, modify in H.
    rewrite _outputs_changed_run in H. simplify_eq.
    destruct st as [[outs [t|]] w]; unfold active; simpl; set_solver.
  - destruct (step_quiet_active (Broadcast b) st st' eq_refl H) as [? Ho].
    rewrite Ho. set_solver.
  - destruct (step_quiet_active FlushAll st st' eq_refl H) as [? Ho].
    rewrite Ho. set_solver.
  - destruct (step_quiet_active (PeerGone s) st st' eq_refl H) as [? Ho].
    rewrite Ho. set_solver.
Qed.

(** Only [add_output X] puts [X] into [self.outputs]. *)
Lemma step_outputs_no_add X o st st' :
  is_AddOutput X o = false → step o st = (Ret tt, st') →
  X ∉ outputs st.1 → X ∉ outputs st'.1.
Proof.
  intros Hno H HX. destruct o; simpl in *.
  - unfold start, mbind, M_bind, bind, get, start_recording, modify in H.
    by simplify_eq.
  - apply bool_decide_eq_false in Hno.
    unfold add_output, mbind, M_bind, bind, modify in H.
    rewrite _outputs_changed_run in H. simplify_eq. simpl. set_solver.
  - unfold remove_output, mbind, M_bind, bind, modify in H.
    rewrite _outputs_changed_run in H. simplify_eq. simpl. set_solver.
  - destruct (step_quiet_active (Broadcast b) st st' eq_refl H) as [? Ho].
    by rewrite Ho.
  - destruct (step_quiet_active FlushAll st st' eq_refl H) as [? Ho].
    by rewrite Ho.
  - destruct (step_quiet_active (PeerGone s) st st' eq_refl H) as [? Ho].
    by rewrite Ho.
Qed.

Lemma run_quiet_active ops : ∀ st st',
  forallb (λ o, negb (is_redirect o)) ops = true →
  run_ops ops st = (Ret tt, st') → active st' ⊆ active st.
Proof.
  induction ops as [|o ops IH]; intros st st' Hq H.
  - simpl in H. unfold mret, M_ret, ret in H. by simplify_eq.
  - simpl in Hq. apply andb_true_iff in Hq as [Ho Hq].
    apply negb_true_iff in Ho.
    destruct (step_returns o st) as [st1 H1].
    rewrite (run_ops_cons _ _ _ _ H1) in H.
    destruct (step_quiet_active _ _ _ Ho H1) as [? _].
    specialize (IH _ _ Hq H). set_solver.
Qed.

Lemma run_no_add ops X : ∀ st st',
  forallb (λ o, negb (is_AddOutput X o)) ops = true →
  run_ops ops st = (Ret tt, st') →
  inv st → X ∉ outputs st.1 → inv st' ∧ X ∉ outputs st'.1.
Proof.
  induction ops as [|o ops IH]; intros st st' Hq H Hinv HX.
  - simpl in H. unfold mret, M_ret, ret in H. by simplify_eq.
  - simpl in Hq. apply andb_true_iff in Hq as [Ho Hq].
    apply negb_true_iff in Ho.
    destruct (step_returns o st) as [st1 H1].
    rewrite (run_ops_cons _ _ _ _ H1) in H.
    apply (IH _ _ Hq H).
    + by eapply step_inv.
    + by eapply step_outputs_no_add.
Qed.

Lemma run_inv ops : ∀ st st',
  run_ops ops st = (Ret tt, st') → inv st → inv st'.
Proof.
  induction ops as [|o ops IH]; intros st st' H Hinv.
  - simpl in H. unfold mret, M_ret, ret in H. by simplify_eq.
  - destruct (step_returns o st) as [st1 H1].
    rewrite (run_ops_cons _ _ _ _ H1) in H.
    eapply IH; [done|]. by eapply step_inv.
Qed.

Lemma sink_of_loop_event r w s : sink_of (loop_event r w s) = s.
Proof. unfold loop_event. case_decide; [done|]. by destruct r. Qed.

(** A step only calls sinks of the tee in use: what it adds to the log are
    events of those sinks. *)
Lemma step_log X o st st' :
  step o st = (Ret tt, st') → X ∉ active st →
  ∃ new, log st'.2 = log st.2 ++ new ∧ Forall (λ e, sink_of e ≠ X) new.
Proof.
  intros H HX.
  assert (Hencoder : ∀ r, encoder_call r st = (Ret tt, st') →
            ∃ new, log st'.2 = log st.2 ++ new
                   ∧ Forall (λ e, sink_of e ≠ X) new).
  { intros r Hr. destruct st as [[outs [streams|]] w];
      unfold encoder_call, active in *; cbn [fst snd recording default] in *.
    - rewrite each_run in Hr. simplify_eq. cbn [snd log].
      eexists. split; [reflexivity|].
      apply Forall_fmap, Forall_forall. intros s Hs%elem_of_elements.
      simpl. rewrite sink_of_loop_event. by intros ->.
    - simplify_eq. exists []. by rewrite app_nil_r. }
  destruct o; simpl in H.
  - unfold start, mbind, M_bind, bind, get, start_recording, modify in H.
    simplify_eq. exists []. by rewrite app_nil_r.
  - unfold add_output, mbind, M_bind, bind, modify in H.
    rewrite _outputs_changed_run in H. simplify_eq.
    exists []. by rewrite app_nil_r.
  - unfold remove_output, mbind, M_bind, bind, modify in H.
    rewrite _outputs_changed_run in H. simplify_eq.
    exists []. by rewrite app_nil_r.
  - by apply (Hencoder (Write b)).
  - by apply (Hencoder Flush).
  - unfold peer_gone, modify in H. simplify_eq.
    exists []. by rewrite app_nil_r.
Qed.

(** Only [remove_output X] takes [X] out of [self.outputs]. *)
Lemma step_outputs_no_remove X o st st' :
  is_RemoveOutput X o = false → step o st = (Ret tt, st') →
  X ∈ outputs st.1 → X ∈ outputs st'.1.
Proof.
  intros Hno H HX. destruct o; simpl in *.
  - unfold start, mbind, M_bind, bind, get, start_recording, modify in H.
    by simplify_eq.
  - unfold add_output, mbind, M_bind, bind, modify in H.
    rewrite _outputs_changed_run in H. simplify_eq. simpl. set_solver.
  - apply bool_decide_eq_false in Hno.
    unfold remove_output, mbind, M_bind, bind, modify in H.
    rewrite _outputs_changed_run in H. simplify_eq. simpl. set_solver.
  - destruct (step_quiet_active (Broadcast b) st st' eq_refl H) as [? Ho].
    by rewrite Ho.
  - destruct (step_quiet_active FlushAll st st' eq_refl H) as [? Ho].
    by rewrite Ho.
  - destruct (step_quiet_active (PeerGone s) st st' eq_refl H) as [? Ho].
    by rewrite Ho.
Qed.

Lemma run_no_remove X ops : ∀ st st',
  forallb (λ o, negb (is_RemoveOutput X o)) ops = true →
  run_ops ops st = (Ret tt, st') → X ∈ outputs st.1 → X ∈ outputs st'.1.
Proof.
  induction ops as [|o ops IH]; intros st st' Hq H HX.
  - simpl in H. unfold mret, M_ret, ret in H. by simplify_eq.
  - simpl in Hq. apply andb_true_iff in Hq as [Ho Hq].
    apply negb_true_iff in Ho.
    destruct (step_returns o st) as [st1 H1].
    rewrite (run_ops_cons _ _ _ _ H1) in H.
    apply (IH _ _ Hq H). by eapply step_outputs_no_remove.
Qed.

(** Without a redirect a sink that is not in the tee stays out of it, stays
    registered if it was, and nothing happens to it. *)
Lemma run_quiet_log X ops : ∀ st st',
  forallb (λ o, negb (is_redirect o)) ops = true →
  run_ops ops st = (Ret tt, st') → X ∉ active st →
  (X ∉ active st') ∧ outputs st'.1 = outputs st.1 ∧
  ∃ new, log st'.2 = log st.2 ++ new ∧ Forall (λ e, sink_of e ≠ X) new.
Proof.
  induction ops as [|o ops IH]; intros st st' Hq H HX.
  - simpl in H. unfold mret, M_ret, ret in H. simplify_eq.
    split; [done|]. split; [done|]. exists []. by rewrite app_nil_r.
  - simpl in Hq. apply andb_true_iff in Hq as [Ho Hq].
    apply negb_true_iff in Ho.
    destruct (step_returns o st) as [st1 H1].
    rewrite (run_ops_cons _ _ _ _ H1) in H.
    destruct (step_quiet_active _ _ _ Ho H1) as [Hsub Hout].
    destruct (step_log X _ _ _ H1 HX) as (new1 & Hlog1 & Hall1).
    destruct (IH _ _ Hq H) as (HX' & Hout' & new2 & Hlog2 & Hall2).
    { set_solver. }
    split; [done|]. split; [congruence|].
    exists (new1 ++ new2). split; [by rewrite Hlog2, Hlog1, <- app_assoc|].
    by apply Forall_app.
Qed.

(** Once a sink is not registered, it stays out of the outputs and of every
    tee, and nothing happens to it, until it is added again. *)
Lemma run_no_add_log X ops : ∀ st st',
  forallb (λ o, negb (is_AddOutput X o)) ops = true →
  run_ops ops st = (Ret tt, st') → inv st → X ∉ outputs st.1 →
  inv st' ∧ (X ∉ outputs st'.1) ∧
  ∃ new, log st'.2 = log st.2 ++ new ∧ Forall (λ e, sink_of e ≠ X) new.
Proof.
  induction ops as [|o ops IH]; intros st st' Hq H Hinv HX.
  - simpl in H. unfold mret, M_ret, ret in H. simplify_eq.
    split; [done|]. split; [done|]. exists []. by rewrite app_nil_r.
  - simpl in Hq. apply andb_true_iff in Hq as [Ho Hq].
    apply negb_true_iff in Ho.
    destruct (step_returns o st) as [st1 H1].
    rewrite (run_ops_cons _ _ _ _ H1) in H.
    destruct (step_log X _ _ _ H1) as (new1 & Hlog1 & Hall1).
    { unfold inv in Hinv. set_solver. }
    destruct (IH _ _ Hq H) as (Hinv' & HX' & new2 & Hlog2 & Hall2).
    { by eapply step_inv. }
    { by eapply step_outputs_no_add. }
    split; [done|]. split; [done|].
    exists (new1 ++ new2). split; [by rewrite Hlog2, Hlog1, <- app_assoc|].
    by apply Forall_app.
Qed.

End TcpVideoStreamServerFacts.

Module TcpVideoStreamServerSpec.
Import Sink StreamTee TcpVideoStreamServer PyFacts StreamTeeFacts TcpVideoStreamServerFacts.
Import Scenario.

(** C4, as the code has it.  A sink whose write or flush fails when the
    encoder calls the tee leaves the set of the tee in use, while the
    server's [outputs] keep it.  For as long as no redirect happens it stays
    out of the tee and no call is made on it: whatever has become of the
    sinks meanwhile (the world [w]), broadcasts and flushes add no event of
    this sink to the log.  The [outputs] hold it until [remove_output] is
    called for it; from then on no tee contains it and nothing happens to
    it, redirects included, unless [add_output] is called for it again. *)
Theorem failed_sink_stays_out (st : state) (r : request) (X : sink) :
  inv st → X ∈ active st → write_fails st.2 X →
  ∃ st1, run_ops [encoder_op r] st = (Ret tt, st1) ∧
    (X ∉ active st1) ∧ X ∈ outputs st1.1 ∧
    (∀ ops w, forallb (λ o, negb (is_RemoveOutput X o)) ops = true →
       ∃ st2, run_ops ops (st1.1, w) = (Ret tt, st2) ∧ X ∈ outputs st2.1) ∧
    (∀ ops w, forallb (λ o, negb (is_redirect o)) ops = true →
       ∃ st2 new, run_ops ops (st1.1, w) = (Ret tt, st2) ∧
                  (X ∉ active st2) ∧ X ∈ outputs st2.1 ∧
                  log st2.2 = log w ++ new ∧
                  Forall (λ e, sink_of e ≠ X) new) ∧
    (∀ ops ops' w, forallb (λ o, negb (is_AddOutput X o)) ops' = true →
       ∃ sta st2 new,
         run_ops (ops ++ [RemoveOutput X]) st1 = (Ret tt, sta) ∧
         run_ops ops' (sta.1, w) = (Ret tt, st2) ∧
         (X ∉ outputs st2.1) ∧ (X ∉ active st2) ∧
         log st2.2 = log w ++ new ∧
         Forall (λ e, sink_of e ≠ X) new).
Proof.
  intros Hinv HX Hf.
  destruct (run_ops_returns [encoder_op r] st) as [st1 H1].
  exists st1. split; [done|].
  assert (HX1 : (X ∉ active st1) ∧ X ∈ outputs st1.1).
  { assert (Hstep : step (encoder_op r) st = encoder_call r st)
      by (by destruct r).
    destruct (encoder_call_run r st) as (st' & Hst' & Ho & Ha & _).
    rewrite <- Hstep in Hst'. cbn [run_ops] in H1.
    erewrite bind_ret in H1 by exact Hst'.
    unfold mret, M_ret, ret in H1. simplify_eq. rewrite Ha, Ho.
    assert (X ∈ failing st.2 (elements (active st))).
    { unfold failing. rewrite elem_of_list_to_set, list_elem_of_filter.
      split; [done|]. by apply elem_of_elements. }
    unfold inv in Hinv. set_solver. }
  destruct HX1 as [HX1 HXo].
  split; [done|]. split; [done|]. split; [|split].
  - intros ops w Hq. destruct (run_ops_returns ops (st1.1, w)) as [st2 H2].
    exists st2. split; [done|]. by apply (run_no_remove X _ _ _ Hq H2).
  - intros ops w Hq. destruct (run_ops_returns ops (st1.1, w)) as [st2 H2].
    destruct (run_quiet_log X _ _ _ Hq H2) as (HX2 & Hout & new & Hlog & Hall).
    { done. }
    exists st2, new. split; [done|]. split; [done|].
    split; [by rewrite Hout|done].
  - intros ops ops' w Hq.
    destruct (run_ops_returns ops st1) as [stm Hm].
    destruct (step_returns (RemoveOutput X) stm) as [sta Ha].
    destruct (run_ops_returns ops' (sta.1, w)) as [st2 H2].
    assert (Hinv1 : inv st1) by (by eapply run_inv).
    assert (Hinvm : inv stm) by (by eapply run_inv).
    assert (Hinva : inv sta) by (by eapply step_inv).
    assert (HXa : X ∉ outputs sta.1).
    { simpl in Ha. unfold remove_output, mbind, M_bind, bind, modify in Ha.
      rewrite _outputs_changed_run in Ha. simplify_eq. simpl. set_solver. }
    destruct (run_no_add_log X _ _ _ Hq H2) as (Hinv2 & HX2 & new & Hlog & Hall);
      [done..|].
    exists sta, st2, new. split.
    { rewrite (run_ops_app _ _ _ _ Hm). cbn [run_ops].
      by erewrite bind_ret by exact Ha. }
    split; [done|]. split; [done|]. split; [|done].
    unfold inv in Hinv2. set_solver.
Qed.

Lemma failed_sink_stays_out_witness :
  ∃ st1, run_ops [encoder_op (Write [x2a%byte])] two_clients = (Ret tt, st1) ∧
    (1%nat ∉ active st1) ∧ 1%nat ∈ outputs st1.1 ∧
    (∃ st2, run_ops [AddOutput 3%nat; Broadcast [x2b%byte]]
              (st1.1, TcpVideoStreamServer.init.2) = (Ret tt, st2) ∧
            1%nat ∈ outputs st2.1) ∧
    (∃ st2 new,
       run_ops [Broadcast [x2b%byte]; FlushAll; PeerGone 2%nat]
         (st1.1, TcpVideoStreamServer.init.2) = (Ret tt, st2) ∧
       (1%nat ∉ active st2) ∧ 1%nat ∈ outputs st2.1 ∧
       log st2.2 = log TcpVideoStreamServer.init.2 ++ new ∧
       Forall (λ e, sink_of e ≠ 1%nat) new) ∧
    (∃ sta st2 new,
       run_ops ([AddOutput 3%nat] ++ [RemoveOutput 1%nat]) st1
         = (Ret tt, sta) ∧
       run_ops [AddOutput 4%nat; Broadcast [x2b%byte]]
         (sta.1, TcpVideoStreamServer.init.2) = (Ret tt, st2) ∧
       (1%nat ∉ outputs st2.1) ∧ (1%nat ∉ active st2) ∧
       log st2.2 = log TcpVideoStreamServer.init.2 ++ new ∧
       Forall (λ e, sink_of e ≠ 1%nat) new).
Proof.
  destruct (failed_sink_stays_out two_clients (Write [x2a%byte]) 1%nat)
    as (st1 & Hrun & Hout & Hreg & Hkept & Hquiet & Hremoved).
  - unfold inv. vm_compute. set_solver.
  - vm_compute. set_solver.
  - right. vm_compute. set_solver.
  - exists st1. split; [exact Hrun|]. split; [exact Hout|].
    split; [exact Hreg|]. split; [|split].
    + apply Hkept. reflexivity.
    + apply Hquiet. reflexivity.
    + apply Hremoved. reflexivity.
Defined.

(** In the world [init.2] every sink is open and has its peer: the sink
    that left the tee is not written although a write to it would succeed,
    while sink 2 receives the buffer. *)
Example dropped_sink_is_not_called :
  let st1 := (run_ops [Broadcast [x2a%byte]] two_clients).2 in
  let st2 := (run_ops [Broadcast [x2b%byte]]
                (st1.1, TcpVideoStreamServer.init.2)).2 in
  log st2.2 = [EvWrite 2%nat [x2b%byte]].
Proof. by vm_compute. Qed.

(** C4 as stated fails.  Sink 1 fails during a broadcast and leaves the tee;
    before its handler has called [remove_output], a third client connects.
    [add_output 3] rebuilds the tee from [self.outputs], which still holds
    sink 1: it is back in the set without having been added again, and the
    next broadcast calls its [write], fails and closes it a second time. *)
Lemma failed_sink_is_added_back :
  ∃ st1 st2 st3,
    run_ops [Start; AddOutput 1%nat; AddOutput 2%nat; PeerGone 1%nat;
             Broadcast [x2a%byte]] init = (Ret tt, st1) ∧
    active st1 = {[2%nat]} ∧
    run_ops [AddOutput 3%nat] st1 = (Ret tt, st2) ∧
    active st2 = {[1%nat; 2%nat; 3%nat]} ∧
    run_ops [Broadcast [x2b%byte]] st2 = (Ret tt, st3) ∧
    filter (λ e, e = EvClose 1%nat) (log st3.2)
      = [EvClose 1%nat; EvClose 1%nat].
Proof.
  eexists _, _, _.
  split; [by vm_compute|]. split; [by vm_compute|].
  split; [by vm_compute|]. split; [by vm_compute|].
  split; [by vm_compute|]. by vm_compute.
Qed.

End TcpVideoStreamServerSpec.

(** ** Timer *)

Module TimerSpec.
Import Timer PyFacts.

Lemma interrupts_run n q : interrupts n q = (Ret tt, (n + q)%nat).
Proof.
  revert q. induction n as [|n IH]; intros q; simpl; [done|].
  unfold mbind, M_bind, bind, interrupt, modify. rewrite IH.
  f_equal. lia.
Qed.

Lemma sleep_empty d : sleep d O = (Ret (Elapsed d), O).
Proof. done. Qed.

Lemma sleep_pending d q : sleep d (S q) = (Ret Interrupted, q).
Proof. done. Qed.

Lemma sleeps_run ds : ∀ q,
  sleeps ds q
  = (Ret (replicate (q `min` length ds) Interrupted ++ (Elapsed <$> drop q ds)),
     (q - length ds)%nat).
Proof.
  induction ds as [|d ds IH]; intros q.
  - simpl. rewrite Nat.min_0_r, drop_nil. simpl.
    unfold mret, M_ret, ret. f_equal. lia.
  - cbn [sleeps]. destruct q as [|q].
    + erewrite bind_ret by apply sleep_empty.
      erewrite bind_ret by apply IH. simpl. done.
    + erewrite bind_ret by apply sleep_pending.
      erewrite bind_ret by apply IH. simpl. done.
Qed.

(** C9, as the code has it.  [interrupt()] returns at once whether or not a
    sleep is waiting, and it is never lost: with [q] interrupts already
    queued, [n] more make the next [n + q] sleeps come back early, and only
    those; a later sleep runs for its full time. *)
Theorem interrupts_wake_as_many_sleeps (q : timer) (n : nat) (ds : list Z) :
  (interrupts n ;; sleeps ds) q
  = (Ret (replicate ((n + q) `min` length ds) Interrupted
          ++ (Elapsed <$> drop (n + q) ds)),
     (n + q - length ds)%nat).
Proof.
  erewrite bind_ret by apply interrupts_run. apply sleeps_run.
Qed.

(** An interrupt sent while nobody sleeps ends the next sleep at once. *)
Example interrupt_before_sleep (d : Z) :
  (interrupt ;; sleep d) Timer.init = (Ret Interrupted, Timer.init).
Proof. reflexivity. Qed.

(** C9 as stated fails: a second [interrupt()] is not absorbed.  After one
    interrupt the second of two sleeps of 60 seconds runs its full time;
    after two interrupts it comes back early as well. *)
Lemma interrupt_twice_differs_from_once :
  (interrupts 1 ;; sleeps [60; 60]) Timer.init
    = (Ret [Interrupted; Elapsed 60], 0%nat) ∧
  (interrupts 2 ;; sleeps [60; 60]) Timer.init
    = (Ret [Interrupted; Interrupted], 0%nat).
Proof. split; reflexivity. Qed.

End TimerSpec.

(** ** Timelapse: the schedule *)

Module ScheduleFacts.
Import Datetime Timelapse DatetimeRange.

Lemma midnight_split (dt : datetime) :
  midnight dt = dt - td_seconds dt * US_PER_SECOND - microsecond dt.
Proof.
  unfold midnight, td_seconds, microsecond, US_PER_DAY, SECONDS_PER_DAY,
    US_PER_SECOND.
  Z.div_mod_to_equations. lia.
Qed.

(** For an interval of [k] whole seconds the floor drops the microseconds
    and the seconds beyond the last multiple of [k] within the day. *)
Lemma floorTime_whole_seconds (dt : datetime) (k : Z) :
  0 < k →
  __floorTime dt (seconds_delta k)
  = midnight dt + (td_seconds dt `div` k) * seconds_delta k.
Proof.
  intros Hk. rewrite midnight_split. unfold __floorTime, seconds_delta.
  rewrite Z.sub_0_r.
  rewrite Z.div_mul_cancel_r by (unfold US_PER_SECOND; lia).
  lia.
Qed.

Lemma td_seconds_range (dt : datetime) : 0 ≤ td_seconds dt < SECONDS_PER_DAY.
Proof. unfold td_seconds, SECONDS_PER_DAY. apply Z.mod_pos_bound. lia. Qed.

Lemma microsecond_range (dt : datetime) : 0 ≤ microsecond dt < US_PER_SECOND.
Proof. unfold microsecond, US_PER_SECOND. apply Z.mod_pos_bound. lia. Qed.

Lemma midnight_add_within_day (dt : datetime) (x : Z) :
  0 ≤ x < US_PER_DAY → midnight (midnight dt + x) = midnight dt.
Proof.
  unfold midnight, US_PER_DAY, SECONDS_PER_DAY, US_PER_SECOND. intros Hx.
  Z.div_mod_to_equations. lia.
Qed.

Lemma floorTime_gt (dt : datetime) (k : Z) :
  0 < k → dt - seconds_delta k < __floorTime dt (seconds_delta k).
Proof.
  intros Hk. rewrite floorTime_whole_seconds by done.
  rewrite midnight_split.
  pose proof (td_seconds_range dt) as Hs.
  pose proof (microsecond_range dt) as Hu.
  pose proof (Z.mod_pos_bound (td_seconds dt) k Hk) as Hm.
  pose proof (Z.div_mod (td_seconds dt) k ltac:(lia)) as Hd.
  unfold seconds_delta, US_PER_SECOND in *. nia.
Qed.

Lemma td_seconds_of_midnight_plus (dt : datetime) (x : Z) :
  0 ≤ x < SECONDS_PER_DAY →
  td_seconds (midnight dt + x * US_PER_SECOND) = x
  ∧ microsecond (midnight dt + x * US_PER_SECOND) = 0.
Proof.
  unfold td_seconds, microsecond, midnight, US_PER_DAY, SECONDS_PER_DAY,
    US_PER_SECOND. intros Hx.
  Z.div_mod_to_equations. lia.
Qed.

Lemma floored_seconds_range (dt : datetime) (k : Z) :
  0 < k → 0 ≤ td_seconds dt `div` k * k < SECONDS_PER_DAY.
Proof.
  intros Hk. pose proof (td_seconds_range dt).
  pose proof (Z.mod_pos_bound (td_seconds dt) k Hk).
  pose proof (Z.div_mod (td_seconds dt) k ltac:(lia)).
  assert (0 ≤ td_seconds dt `div` k) by (apply Z.div_pos; lia).
  nia.
Qed.

Lemma floorTime_le (dt : datetime) (k : Z) :
  0 < k → __floorTime dt (seconds_delta k) ≤ dt.
Proof.
  intros Hk. rewrite floorTime_whole_seconds by done.
  rewrite midnight_split.
  pose proof (microsecond_range dt).
  pose proof (Z.mod_pos_bound (td_seconds dt) k Hk).
  pose proof (Z.div_mod (td_seconds dt) k ltac:(lia)).
  unfold seconds_delta, US_PER_SECOND in *. nia.
Qed.

Lemma floorTime_idem (dt : datetime) (k : Z) :
  0 < k →
  __floorTime (__floorTime dt (seconds_delta k)) (seconds_delta k)
  = __floorTime dt (seconds_delta k).
Proof.
  intros Hk. set (f := __floorTime dt (seconds_delta k)).
  pose proof (floored_seconds_range dt k Hk) as Hrange.
  assert (Hf : f = midnight dt + td_seconds dt `div` k * k * US_PER_SECOND).
  { unfold f. rewrite floorTime_whole_seconds by done.
    unfold seconds_delta. lia. }
  destruct (td_seconds_of_midnight_plus dt _ Hrange) as [Hs _].
  rewrite <- Hf in Hs.
  rewrite floorTime_whole_seconds by done. rewrite Hs.
  rewrite Z.div_mul by lia.
  rewrite Hf at 1. rewrite midnight_add_within_day.
  - rewrite Hf. unfold seconds_delta. lia.
  - unfold US_PER_DAY, SECONDS_PER_DAY, US_PER_SECOND in *. lia.
Qed.

Lemma same_day_seconds (a b : datetime) :
  a ≤ b → a `div` US_PER_DAY = b `div` US_PER_DAY →
  midnight a = midnight b ∧ td_seconds a ≤ td_seconds b.
Proof.
  unfold midnight, td_seconds, US_PER_DAY, SECONDS_PER_DAY, US_PER_SECOND.
  intros Hab Hday. Z.div_mod_to_equations. lia.
Qed.

Lemma later_day_midnight (a b : datetime) :
  a `div` US_PER_DAY < b `div` US_PER_DAY →
  midnight a + US_PER_DAY ≤ midnight b.
Proof.
  unfold midnight, US_PER_DAY, SECONDS_PER_DAY, US_PER_SECOND.
  intros Hday. Z.div_mod_to_equations. lia.
Qed.

(** For whole seconds the floor is monotone. *)
Lemma floorTime_mono (a b : datetime) (k : Z) :
  0 < k → a ≤ b →
  __floorTime a (seconds_delta k) ≤ __floorTime b (seconds_delta k).
Proof.
  intros Hk Hab. rewrite !floorTime_whole_seconds by done.
  pose proof (floored_seconds_range a k Hk) as Ha.
  pose proof (floored_seconds_range b k Hk) as Hb.
  destruct (decide (a `div` US_PER_DAY = b `div` US_PER_DAY)) as [Hday|Hday].
  - destruct (same_day_seconds a b Hab Hday) as [-> Hs].
    assert (td_seconds a `div` k ≤ td_seconds b `div` k)
      by (by apply Z.div_le_mono).
    unfold seconds_delta, US_PER_SECOND. nia.
  - assert (a `div` US_PER_DAY ≤ b `div` US_PER_DAY) as Hle.
    { apply Z.div_le_mono; [|done].
      unfold US_PER_DAY, SECONDS_PER_DAY, US_PER_SECOND. lia. }
    pose proof (later_day_midnight a b ltac:(lia)) as Hm.
    unfold seconds_delta, US_PER_DAY, SECONDS_PER_DAY, US_PER_SECOND in *.
    nia.
Qed.

Lemma datetime_add_Some (dt : datetime) (td : timedelta) :
  0 ≤ dt + td ≤ datetime_max → datetime_add dt td = Some (dt + td).
Proof.
  intros [H0 Hmax]. unfold datetime_add.
  apply Z.leb_le in H0. apply Z.leb_le in Hmax. by rewrite H0, Hmax.
Qed.

(** Within the range of [datetime] neither addition overflows, and the
    instant computed is that of [next_instant]. *)
Lemma next_instant_checked_in_range (self : timelapse) (now : datetime)
    (k : Z) :
  0 < k → interval self = seconds_delta k →
  0 ≤ now → now + interval self ≤ datetime_max →
  next_instant_checked self now = Some (next_instant self now).
Proof.
  intros Hk Hi H0 Hmax. unfold next_instant_checked, next_instant.
  rewrite Hi in *.
  assert (0 < seconds_delta k) by (unfold seconds_delta, US_PER_SECOND; lia).
  rewrite datetime_add_Some by lia. cbn [mbind option_bind].
  set (dt := now + seconds_delta k) in *.
  pose proof (floorTime_gt dt k Hk) as Hgt.
  pose proof (floorTime_le dt k Hk) as Hle.
  unfold floorTime_checked.
  assert (∀ x y z : Z, x + (y + - z) = x + y + - z) as Hassoc by (intros; lia).
  rewrite datetime_add_Some; rewrite Hassoc.
  - done.
  - change (0 ≤ __floorTime dt (seconds_delta k) ≤ datetime_max).
    unfold dt in *. lia.
Qed.

(** When no wake comes early the slots of the rounds lie at or after the
    instant the first sleep aimed at, and each slot lies before the next. *)
Lemma slots_increase (self : timelapse) (k : Z) (ticks : list tick) :
  0 < k → interval self = seconds_delta k →
  ∀ aimed,
    __floorTime aimed (interval self) = aimed →
    wakes_on_time self aimed ticks = true →
    Forall (λ t, aimed ≤ slot self t) ticks ∧
    ∀ i j ti tj, (i < j)%nat → ticks !! i = Some ti → ticks !! j = Some tj →
                 slot self ti < slot self tj.
Proof.
  intros Hk Hi. induction ticks as [|t rest IH]; intros aimed Hgrid Hw.
  { split; [constructor|]. intros i j ti tj _ Hti. by destruct i. }
  cbn [wakes_on_time] in Hw.
  apply andb_true_iff in Hw as [[Hnow Hwait]%andb_true_iff Hrest].
  apply Z.leb_le in Hnow. apply Z.leb_le in Hwait.
  assert (aimed ≤ slot self t) as Haimed.
  { rewrite <- Hgrid. unfold slot. rewrite Hi. by apply floorTime_mono. }
  assert (slot self t < next_instant self (tick_wait_now t)) as Hnext.
  { unfold slot, next_instant. rewrite Hi.
    pose proof (floorTime_le (tick_now t) k Hk).
    pose proof (floorTime_gt (tick_wait_now t + seconds_delta k) k Hk). lia. }
  destruct (IH (next_instant self (tick_wait_now t))) as [Hall Hsorted].
  { unfold next_instant. rewrite Hi. by apply floorTime_idem. }
  { done. }
  split.
  - constructor; [done|]. eapply Forall_impl; [exact Hall|].
    intros t' Ht'. simpl in Ht'. lia.
  - intros i j ti tj Hij Hti Htj. destruct j as [|j]; [lia|].
    cbn [lookup list_lookup] in Htj. destruct i as [|i].
    + injection Hti as <-. rewrite Forall_forall in Hall.
      apply list_elem_of_lookup_2 in Htj. specialize (Hall tj Htj).
      simpl in Hall. lia.
    + apply (Hsorted i j); [lia|done..].
Qed.

End ScheduleFacts.

Module ScheduleSpec.
Import Datetime Timelapse DatetimeRange ScheduleFacts.
Import Scenario.

(** C3, for an interval of whole seconds and within the range of
    [datetime].  Neither addition overflows; the next tick lies strictly
    after [now] and at most one interval after it, on a whole multiple of
    the interval from the midnight that the floor starts from.  In a run
    whose first sleep is computed at [now], the rounds fall into slots that
    lie at or after that tick and each before the next, as long as no wake
    comes early: the clock read at a capture is not before the instant the
    sleep before it aimed at ([run_aims] shows that the sleeps of [__run]
    aim at the instants [wakes_on_time] takes). *)
Theorem next_instant_after_now (self : timelapse) (now : datetime) (k : Z) :
  0 < k → interval self = seconds_delta k →
  0 ≤ now → now + interval self ≤ datetime_max →
  let next := next_instant self now in
  next_instant_checked self now = Some next ∧
  now < next ≤ now + interval self ∧
  midnight next = midnight (now + interval self) ∧
  (∃ m, 0 ≤ m ∧ next = midnight (now + interval self) + m * interval self) ∧
  (∀ ticks, wakes_on_time self next ticks = true →
     Forall (λ t, next ≤ slot self t) ticks ∧
     ∀ i j ti tj, (i < j)%nat →
       ticks !! i = Some ti → ticks !! j = Some tj →
       slot self ti < slot self tj).
Proof.
  intros Hk Hi H0 Hmax. cbn zeta.
  split; [by apply (next_instant_checked_in_range self now k)|].
  split; [|split; [|split]].
  - unfold next_instant. rewrite Hi.
    pose proof (floorTime_gt (now + seconds_delta k) k Hk).
    pose proof (floorTime_le (now + seconds_delta k) k Hk). lia.
  - unfold next_instant. rewrite Hi.
    rewrite floorTime_whole_seconds by done.
    apply midnight_add_within_day.
    pose proof (floored_seconds_range (now + seconds_delta k) k Hk).
    unfold seconds_delta, US_PER_DAY, SECONDS_PER_DAY, US_PER_SECOND in *. nia.
  - unfold next_instant. rewrite Hi.
    exists (td_seconds (now + seconds_delta k) `div` k). split.
    + apply Z.div_pos; [|lia]. apply td_seconds_range.
    + by rewrite floorTime_whole_seconds.
  - intros ticks Hw. apply (slots_increase self k ticks Hk Hi); [|done].
    unfold next_instant. rewrite Hi. by apply floorTime_idem.
Qed.

Lemma next_instant_after_now_witness :
  let now := at_time 737425 14 0 0 300000 in
  let next := next_instant every_minute now in
  next_instant_checked every_minute now = Some next ∧
  now < next ≤ now + interval every_minute ∧
  midnight next = midnight (now + interval every_minute) ∧
  (∃ m, 0 ≤ m ∧
        next = midnight (now + interval every_minute)
               + m * interval every_minute) ∧
  (∀ ticks, wakes_on_time every_minute next ticks = true →
     Forall (λ t, next ≤ slot every_minute t) ticks ∧
     ∀ i j ti tj, (i < j)%nat →
       ticks !! i = Some ti → ticks !! j = Some tj →
       slot every_minute ti < slot every_minute tj).
Proof.
  apply (next_instant_after_now every_minute (at_time 737425 14 0 0 300000) 60).
  - lia.
  - reflexivity.
  - vm_compute. discriminate.
  - vm_compute. discriminate.
Defined.

(** Three rounds that wake on time, one minute apart. *)
Example three_rounds_on_time :
  let now := at_time 737425 14 0 0 300000 in
  let ticks := [tick_at (at_time 737425 14 1 0 100000);
                tick_at (at_time 737425 14 2 0 400000);
                tick_at (at_time 737425 14 3 0 0)] in
  wakes_on_time every_minute (next_instant every_minute now) ticks = true ∧
  slot every_minute <$> ticks
  = [at_time 737425 14 1 0 0; at_time 737425 14 2 0 0; at_time 737425 14 3 0 0].
Proof. split; reflexivity. Qed.

Example next_instant_every_minute :
  next_instant every_minute (at_time 737425 14 0 0 300000)
  = at_time 737425 14 1 0 0.
Proof. reflexivity. Qed.

(** C3 as stated fails for an interval that is not a whole number of
    seconds.  With half a second and [now] at 00:00:00.300000, the floor of
    [now + interval] = 00:00:00.800000 is 00:00:00.000000, which lies before
    [now]. *)
Lemma next_instant_not_after_now :
  let self := half_second in
  let now := at_time 737425 0 0 0 300000 in
  0 < interval self ∧
  next_instant self now = at_time 737425 0 0 0 0 ∧
  next_instant self now < now.
Proof. vm_compute. repeat split. Qed.

(** C3 also fails, for the interval of one minute, when a wake comes before
    the instant its sleep aimed at.  [_now()] reads the local wall clock and
    nothing guards against its being set back.  In the night in which summer
    time ends a capture is made at 02:00:00.2; the sleep computed at
    02:59:00.3 aims at 03:00:00; the clock read after it shows 02:00:00.1,
    and this capture falls into the slot 02:00:00 a second time. *)
Lemma clock_set_back_repeats_slot :
  let self := every_minute in
  next_instant self before_three = at_time 737723 3 0 0 0 ∧
  second_two_oclock < next_instant self before_three ∧
  wakes_on_time self (next_instant self before_three)
    [tick_at second_two_oclock] = false ∧
  slot self (tick_at first_two_oclock) = at_time 737723 2 0 0 0 ∧
  slot self (tick_at second_two_oclock) = slot self (tick_at first_two_oclock).
Proof. repeat split; reflexivity. Qed.

(** Outside of the range of [datetime] the sum [now + self.interval]
    overflows and no instant is computed. *)
Example next_instant_overflow :
  next_instant_checked three_million_days two_pm = None.
Proof. reflexivity. Qed.

End ScheduleSpec.

(** ** Strings *)

Module TextFacts.
Import Text.

Lemma app_cons (c : ascii) (s1 s2 : string) :
  String c s1 +:+ s2 = String c (s1 +:+ s2).
Proof. done. Qed.

Lemma app_nil_l (s : string) : "" +:+ s = s.
Proof. done. Qed.

Lemma app_nil_r (s : string) : s +:+ "" = s.
Proof. induction s as [|c s IH]; [done|]. by rewrite app_cons, IH. Qed.

Lemma app_assoc (s1 s2 s3 : string) : s1 +:+ (s2 +:+ s3) = (s1 +:+ s2) +:+ s3.
Proof. induction s1 as [|c s1 IH]; [done|]. by rewrite !app_cons, IH. Qed.

Lemma length_app (s1 s2 : string) :
  String.length (s1 +:+ s2) = (String.length s1 + String.length s2)%nat.
Proof. induction s1 as [|c s1 IH]; [done|]. rewrite app_cons. cbn. by rewrite IH. Qed.

(** Cancellation on the right. *)
Lemma app_inj_r (t s1 s2 : string) : s1 +:+ t = s2 +:+ t → s1 = s2.
Proof.
  revert s2. induction s1 as [|c1 s1 IH]; intros [|c2 s2] H;
    rewrite ?app_cons, ?app_nil_l in H.
  - done.
  - apply (f_equal String.length) in H. cbn in H. rewrite length_app in H. lia.
  - apply (f_equal String.length) in H. cbn in H. rewrite length_app in H. lia.
  - injection H as -> H. f_equal. by apply IH.
Qed.

Lemma sall_app P (s1 s2 : string) :
  sall P (s1 +:+ s2) = sall P s1 && sall P s2.
Proof.
  induction s1 as [|c s1 IH]; [done|]. rewrite app_cons. cbn. rewrite IH.
  by rewrite andb_assoc.
Qed.

Lemma sall_impl (P Q : ascii → bool) (s : string) :
  (∀ c, P c = true → Q c = true) → sall P s = true → sall Q s = true.
Proof.
  intros HPQ. induction s as [|c s IH]; [done|]. cbn.
  rewrite !andb_true_iff. intros [??]. auto.
Qed.

Lemma pretty_N_char_digit (d : N) : is_digit (pretty_N_char d) = true.
Proof. unfold pretty_N_char. by repeat case_match. Qed.

Lemma pretty_N_go_digits (x : N) : ∀ s,
  sall is_digit s = true → sall is_digit (pretty_N_go x s) = true.
Proof.
  induction (N.lt_wf_0 x) as [x _ IH]; intros s Hs.
  destruct (decide (x = 0)%N) as [->|Hx].
  - by rewrite pretty_N_go_0.
  - rewrite pretty_N_go_step by lia. apply IH.
    + apply N.div_lt; lia.
    + cbn. by rewrite pretty_N_char_digit.
Qed.

Lemma pretty_N_digits (x : N) : sall is_digit (pretty x) = true.
Proof.
  unfold pretty, pretty_N. case_decide; [done|]. by apply pretty_N_go_digits.
Qed.

Lemma pretty_nat_digits (n : nat) : sall is_digit (pretty n) = true.
Proof. apply pretty_N_digits. Qed.

End TextFacts.

(** ** Timelapse: day and night *)

Module NightSpec.
Import Datetime Timelapse.
Import Scenario.

(** C7.  A time is classified as night exactly when it lies before the dawn
    or after the dusk computed for it; with a dawn that is not after the
    dusk, the instants of dawn and of dusk themselves are day. *)
Theorem is_night_iff (self : timelapse) (t : datetime) :
  (_is_night self t = true ↔ t < dawn (loc self) t ∨ dusk (loc self) t < t) ∧
  (dawn (loc self) t ≤ dusk (loc self) t →
   t = dawn (loc self) t ∨ t = dusk (loc self) t →
   _is_night self t = false).
Proof.
  unfold _is_night. split.
  - rewrite orb_true_iff, !Z.ltb_lt. done.
  - intros Hle Hb. apply orb_false_iff. rewrite !Z.ltb_ge. lia.
Qed.

Lemma is_night_iff_witness :
  _is_night every_minute (at_time 737425 7 12 0 0) = false ∧
  _is_night every_minute (at_time 737425 18 45 0 0) = false.
Proof.
  split.
  - apply (proj2 (is_night_iff every_minute (at_time 737425 7 12 0 0))).
    + vm_compute. discriminate.
    + left. reflexivity.
  - apply (proj2 (is_night_iff every_minute (at_time 737425 18 45 0 0))).
    + vm_compute. discriminate.
    + right. reflexivity.
Defined.

(** Scenarios 1 and 2 of the specification: dawn 07:12, dusk 18:45. *)
Example tick_at_14_00_is_day :
  _is_night every_minute (at_time 737425 14 0 0 0) = false.
Proof. reflexivity. Qed.

Example tick_at_21_30_is_night :
  _is_night every_minute (at_time 737425 21 30 0 0) = true.
Proof. reflexivity. Qed.

End NightSpec.

(** ** Timelapse: file names *)

Module NameFacts.
Import Datetime PosixPath Timelapse Text TextFacts.

Lemma join2_relative (path b : string) :
  startswith_sep b = false → join2 path b = dir_prefix path +:+ b.
Proof.
  intros Hb. unfold join2, dir_prefix. rewrite Hb.
  destruct (is_empty path || endswith_sep path); [done|].
  by rewrite app_assoc.
Qed.

Lemma FILE_NAME_TEMPLATE_relative dts md5 sfx :
  startswith_sep (FILE_NAME_TEMPLATE dts md5 sfx) = false.
Proof. done. Qed.

Lemma join_file_name root subdir dts md5 sfx :
  join root subdir (FILE_NAME_TEMPLATE dts md5 sfx)
  = dir_prefix (join2 root subdir) +:+ FILE_NAME_TEMPLATE dts md5 sfx.
Proof. unfold join. by apply join2_relative. Qed.

Lemma suffix_inj (j k : nat) :
  match j with O => "" | S _ => suffix_of j end
  = match k with O => "" | S _ => suffix_of k end → j = k.
Proof.
  unfold suffix_of. destruct j as [|j], k as [|k]; try done.
  intros H. apply (inj (String.app "_")) in H.
  by apply (inj pretty) in H.
Qed.

#[global] Instance candidate_inj self root time md5 :
  Inj (=) (=) (candidate self root time md5).
Proof.
  intros j k. unfold candidate. rewrite !join_file_name.
  intros H. apply (inj (String.app _)) in H.
  unfold FILE_NAME_TEMPLATE in H.
  do 4 apply (inj (String.app _)) in H.
  apply app_inj_r in H. by apply suffix_inj.
Qed.

Section Loop.

Variables (self : timelapse) (fs : gset string) (root : string)
  (time : datetime) (md5 : string).

Let cand := candidate self root time md5.
Let subdir := SUBDIR_TEMPLATE (strftime_DATESTR_FORMAT time)
                (if _is_night self time then "night" else "").
Let dts := strftime_DATETIMESTR_FORMAT time.

Lemma loop_round fuel n sfx fn :
  generate_filename_loop (S fuel) fs root subdir dts md5 n sfx fn
  = if bool_decide (n = 0%nat) || from_option (path_exists fs) false fn
    then generate_filename_loop fuel fs root subdir dts md5 (S n)
           (suffix_of (S n))
           (Some (join root subdir (FILE_NAME_TEMPLATE dts md5 sfx)))
    else fn.
Proof. done. Qed.

Lemma loop_out_of_fuel n sfx fn :
  generate_filename_loop 0 fs root subdir dts md5 n sfx fn
  = if bool_decide (n = 0%nat) || from_option (path_exists fs) false fn
    then None else fn.
Proof. done. Qed.

(** From the state the loop is in after it has tried candidate [n]. *)
Lemma loop_finds fuel : ∀ n,
  (∃ k, (n ≤ k ≤ n + fuel)%nat ∧ cand k ∉ fs) →
  ∃ k, (n ≤ k)%nat ∧
    generate_filename_loop fuel fs root subdir dts md5 (S n)
      (suffix_of (S n)) (Some (cand n)) = Some (cand k) ∧
    (cand k ∉ fs) ∧ ∀ j, (n ≤ j < k)%nat → cand j ∈ fs.
Proof.
  induction fuel as [|fuel IH]; intros n (k0 & Hk0 & Hfree).
  - assert (k0 = n) as -> by lia. exists n. split; [lia|].
    rewrite loop_out_of_fuel. simpl. unfold path_exists.
    rewrite bool_decide_eq_false_2 by done.
    split; [done|]. split; [done|]. intros; lia.
  - rewrite loop_round. simpl. unfold path_exists.
    destruct (decide (cand n ∈ fs)) as [Hin|Hout].
    + rewrite bool_decide_eq_true_2 by done.
      destruct (IH (S n)) as (k & Hk & Hrun & Hk1 & Hk2).
      { exists k0. split; [|done].
        assert (k0 ≠ n) by (intros ->; done). lia. }
      exists k. split; [lia|]. split; [exact Hrun|]. split; [done|].
      intros j Hj. destruct (decide (j = n)) as [->|]; [done|].
      apply Hk2. lia.
    + rewrite bool_decide_eq_false_2 by done.
      exists n. split; [lia|]. split; [done|]. split; [done|]. intros; lia.
Qed.

(** Among the first [size fs + 1] candidates one does not exist. *)
Lemma free_candidate : ∃ k, (k ≤ size fs)%nat ∧ cand k ∉ fs.
Proof.
  destruct (decide (Forall (λ k, cand k ∈ fs) (seq 0 (S (size fs)))))
    as [Hall|Hex].
  - exfalso.
    assert (Hnd : NoDup (cand <$> seq 0 (S (size fs)))).
    { apply NoDup_fmap_2; [apply _|apply NoDup_seq]. }
    assert (Hsub : list_to_set (cand <$> seq 0 (S (size fs))) ⊆ fs).
    { intros p Hp. apply elem_of_list_to_set in Hp.
      apply list_elem_of_fmap in Hp as (k & -> & Hk).
      rewrite Forall_forall in Hall. by apply Hall. }
    apply subseteq_size in Hsub.
    rewrite size_list_to_set in Hsub by done.
    rewrite length_fmap, length_seq in Hsub. lia.
  - apply not_Forall_Exists in Hex; [|apply _].
    apply Exists_exists in Hex as (k & Hk & Hfree).
    apply elem_of_seq in Hk. exists k. split; [lia|done].
Qed.

Lemma generate_filename_run :
  ∃ k, generate_filename self fs root time md5 = Some (cand k) ∧
       (cand k ∉ fs) ∧ ∀ j, (j < k)%nat → cand j ∈ fs.
Proof.
  unfold generate_filename. fold subdir dts. rewrite loop_round. simpl.
  destruct free_candidate as (k0 & Hk0 & Hfree).
  destruct (loop_finds (size fs) 0) as (k & _ & Hrun & Hk1 & Hk2).
  { exists k0. split; [lia|done]. }
  exists k. split; [exact Hrun|]. split; [done|].
  intros j Hj. apply Hk2. lia.
Qed.

End Loop.

End NameFacts.

Module NameSpec.
Import Datetime PosixPath Timelapse Text TextFacts NameFacts.
Import Scenario.

(** C6, as the code has it.  On the set [fs] of existing paths
    [generate_filename] returns the first of the candidates (no suffix, then
    [_1], [_2], ...) that does not exist; the candidates before it all
    exist.  The result depends on the time only through its two formatted
    strings and the night flag.  A later call made when the earlier result
    exists returns a different path, with a larger suffix if the paths that
    existed before still exist. *)
Theorem generate_filename_first_free (self : timelapse) (fs : gset string)
    (root : string) (time : datetime) (md5 : string) :
  ∃ k,
    generate_filename self fs root time md5
      = Some (candidate self root time md5 k) ∧
    (candidate self root time md5 k ∉ fs) ∧
    (∀ j, (j < k)%nat → candidate self root time md5 j ∈ fs) ∧
    (∀ time',
       strftime_DATESTR_FORMAT time' = strftime_DATESTR_FORMAT time →
       strftime_DATETIMESTR_FORMAT time' = strftime_DATETIMESTR_FORMAT time →
       _is_night self time' = _is_night self time →
       generate_filename self fs root time' md5
       = generate_filename self fs root time md5) ∧
    (∀ fs', candidate self root time md5 k ∈ fs' →
       ∃ k', generate_filename self fs' root time md5
               = Some (candidate self root time md5 k') ∧
             (candidate self root time md5 k' ∉ fs') ∧
             k' ≠ k ∧ (fs ⊆ fs' → (k < k')%nat)).
Proof.
  destruct (generate_filename_run self fs root time md5)
    as (k & Hrun & Hfree & Hbelow).
  exists k. split; [done|]. split; [done|]. split; [done|]. split.
  - intros time' Hd Hdt Hn. unfold generate_filename. by rewrite Hd, Hdt, Hn.
  - intros fs' Hk.
    destruct (generate_filename_run self fs' root time md5)
      as (k' & Hrun' & Hfree' & Hbelow').
    exists k'. split; [done|]. split; [done|]. split.
    + intros ->. done.
    + intros Hsub. destruct (decide (k < k')%nat) as [|Hge]; [done|].
      exfalso. assert (k' ≠ k) by (intros ->; done).
      apply Hfree', Hsub, Hbelow. lia.
Qed.

Lemma generate_filename_first_free_witness :
  ∃ k,
    generate_filename every_minute taken usb two_pm digest
      = Some (candidate every_minute usb two_pm digest k) ∧
    (candidate every_minute usb two_pm digest k ∉ taken) ∧
    generate_filename every_minute taken usb (two_pm + 999999) digest
      = generate_filename every_minute taken usb two_pm digest ∧
    (∃ k', generate_filename every_minute
             (taken ∪ {[candidate every_minute usb two_pm digest k]})
             usb two_pm digest
             = Some (candidate every_minute usb two_pm digest k') ∧
           (k < k')%nat).
Proof.
  destruct (generate_filename_first_free every_minute taken usb two_pm digest)
    as (k & Hrun & Hfree & _ & Hsame & Hnext).
  exists k. split; [exact Hrun|]. split; [exact Hfree|]. split.
  - apply Hsame; reflexivity.
  - destruct (Hnext (taken ∪ {[candidate every_minute usb two_pm digest k]}))
      as (k' & Hrun' & _ & _ & Hlt).
    + apply elem_of_union. right. apply elem_of_singleton. reflexivity.
    + exists k'. split; [exact Hrun'|]. apply Hlt.
      apply union_subseteq_l.
Defined.

Example generate_filename_free :
  generate_filename every_minute ∅ usb two_pm digest
  = Some "/mnt/usb/timelapse/20200101/img_20200101_140000_md5-d41d8cd98f00b204e9800998ecf8427e.jpg".
Proof. by vm_compute. Qed.

Example generate_filename_night :
  generate_filename every_minute ∅ "/mnt/usb/timelapse"
    (at_time 737425 21 30 0 0) digest
  = Some "/mnt/usb/timelapse/20200101/night/img_20200101_213000_md5-d41d8cd98f00b204e9800998ecf8427e.jpg".
Proof. by vm_compute. Qed.

Example generate_filename_taken :
  generate_filename every_minute taken usb two_pm digest
  = Some "/mnt/usb/timelapse/20200101/img_20200101_140000_md5-d41d8cd98f00b204e9800998ecf8427e_2.jpg".
Proof. by vm_compute. Qed.

(** Without the premise that the earlier paths still exist the suffix can
    get smaller: with the unsuffixed name and [_1] taken the call issues
    [_2]; when only that file exists afterwards, the next call issues the
    unsuffixed name. *)
Example generate_filename_smaller_suffix :
  generate_filename every_minute
    {[candidate every_minute usb two_pm digest 0;
      candidate every_minute usb two_pm digest 1]} usb two_pm digest
  = Some (candidate every_minute usb two_pm digest 2) ∧
  generate_filename every_minute
    {[candidate every_minute usb two_pm digest 2]} usb two_pm digest
  = Some (candidate every_minute usb two_pm digest 0).
Proof. split; by vm_compute. Qed.

(** C6 as stated fails in its last part: [generate_filename] neither creates
    the file nor remembers what it returned.  Two calls with no file created
    in between return the same path, here both times with the suffix [_2]. *)
Lemma generate_filename_reissues :
  ∃ p,
    generate_filename every_minute taken usb two_pm digest = Some p ∧
    p = candidate every_minute usb two_pm digest 2 ∧
    (p ∉ taken) ∧
    generate_filename every_minute taken usb two_pm digest = Some p.
Proof.
  eexists. split; [by vm_compute|]. split; [by vm_compute|].
  split; [|by vm_compute]. by vm_compute.
Qed.

End NameSpec.

(** ** Timelapse: storing a capture *)

Module StoreFacts.
Import Datetime PosixPath Timelapse PyFacts NameFacts.

Section WithDigest.

Variable hexdigest : bytes → string.
Variable self : timelapse.
Variable input : bytes.
Variable now : datetime.

Lemma attempt_unwritable root success st :
  root ∈ unwritable st →
  write_round hexdigest self input now root success st
  = (Ret false, {| files := files st; unwritable := unwritable st;
                   log := log st ++ [EvError root] |}).
Proof.
  intros Hu. unfold write_round, try_except, write_attempt, mbind, M_bind, bind,
    get, create_file.
  destruct (generate_filename_run self (files st) root now
              (__calc_md5sum hexdigest input)) as (k & -> & _).
  by rewrite bool_decide_eq_true_2.
Qed.

Lemma attempt_writable root success st :
  root ∉ unwritable st →
  ∃ p, generate_filename self (files st) root now (hexdigest input) = Some p ∧
    (p ∉ files st) ∧
    write_round hexdigest self input now root success st
    = (Ret success, {| files := files st ∪ {[p]}; unwritable := unwritable st;
                       log := log st ++ [EvWrote root p] |}).
Proof.
  intros Hu. unfold write_round, try_except, write_attempt, mbind, M_bind, bind,
    get, create_file, __calc_md5sum.
  destruct (generate_filename_run self (files st) root now (hexdigest input))
    as (k & Hg & Hfree & _).
  rewrite Hg. eexists. split; [done|]. split; [done|].
  by rewrite bool_decide_eq_false_2.
Qed.

Lemma records_of_nil u : records_of [] u [].
Proof.
  split; [|split]; intros ? H; by apply not_elem_of_nil in H.
Qed.

Lemma records_of_cons r folders u e new :
  ((r ∈ u ∧ e = EvError r) ∨ ((r ∉ u) ∧ ∃ p, e = EvWrote r p)) →
  records_of folders u new → records_of (r :: folders) u (e :: new).
Proof.
  intros He (H1 & H2 & H3). split; [|split].
  - intros e' [->|He']%elem_of_cons.
    + exists r. split; [by left|done].
    + destruct (H1 e' He') as (r' & ? & ?). exists r'. split; [by right|done].
  - intros r' [->|Hr']%elem_of_cons Hu.
    + destruct He as [[_ ->]|[? _]]; [by left|done].
    + right. by apply H2.
  - intros r' [->|Hr']%elem_of_cons Hu.
    + destruct He as [[? _]|[_ [p ->]]]; [done|]. exists p. by left.
    + destruct (H3 r' Hr' Hu) as [p ?]. exists p. by right.
Qed.

Lemma folders_write_loop_run folders : ∀ success st,
  ∃ st' new,
    write_loop hexdigest self input now folders success st
    = (Ret (success && bool_decide (Forall (λ r, r ∉ unwritable st) folders)),
       st') ∧
    unwritable st' = unwritable st ∧
    files st ⊆ files st' ∧
    log st' = log st ++ new ∧
    records_of folders (unwritable st) new.
Proof.
  induction folders as [|root rest IH]; intros success st.
  - exists st, []. simpl. rewrite app_nil_r, andb_true_r.
    split; [done|]. split; [done|]. split; [done|]. split; [done|].
    apply records_of_nil.
  - cbn [write_loop].
    destruct (decide (root ∈ unwritable st)) as [Hu|Hw].
    + erewrite bind_ret by (by apply attempt_unwritable).
      destruct (IH false {| files := files st; unwritable := unwritable st;
                            log := log st ++ [EvError root] |})
        as (st' & new & Hrun & Hu' & Hf' & Hlog & Hrec).
      exists st', (EvError root :: new). simpl in *.
      rewrite Hrun. split.
      { f_equal. f_equal. symmetry. apply andb_false_iff. right.
        apply bool_decide_eq_false_2. intros [? _]%Forall_cons. done. }
      split; [done|]. split; [done|]. split.
      { by rewrite Hlog, <- app_assoc. }
      apply records_of_cons; [by left|done].
    + destruct (attempt_writable root success st Hw) as (p & _ & _ & Hatt).
      erewrite bind_ret by exact Hatt.
      destruct (IH success {| files := files st ∪ {[p]};
                              unwritable := unwritable st;
                              log := log st ++ [EvWrote root p] |})
        as (st' & new & Hrun & Hu' & Hf' & Hlog & Hrec).
      exists st', (EvWrote root p :: new). simpl in *.
      rewrite Hrun. split.
      { f_equal. f_equal. f_equal. apply bool_decide_ext.
        rewrite Forall_cons. tauto. }
      split; [done|]. split; [set_solver|]. split.
      { by rewrite Hlog, <- app_assoc. }
      apply records_of_cons; [right; eauto|done].
Qed.

(** [_write_to_file] returns, with [True] exactly when no folder failed. *)
Lemma _write_to_file_run (folders : gset string) st :
  ∃ st' new,
    _write_to_file hexdigest self input folders now st
    = (Ret (bool_decide (∀ r, r ∈ folders → r ∉ unwritable st)), st') ∧
    unwritable st' = unwritable st ∧
    files st ⊆ files st' ∧
    log st' = log st ++ new ∧
    records_of (elements folders) (unwritable st) new.
Proof.
  unfold _write_to_file.
  destruct (folders_write_loop_run (elements folders) true st)
    as (st' & new & Hrun & ? & ? & ? & ?).
  exists st', new. rewrite Hrun. split; [|done].
  f_equal. f_equal. simpl. apply bool_decide_ext.
  rewrite Forall_forall. by setoid_rewrite elem_of_elements.
Qed.

End WithDigest.

End StoreFacts.

Module RunFacts.
Import Datetime PosixPath Timelapse PyFacts NameFacts StoreFacts.

Section WithDigest.

Variable hexdigest : bytes → string.
Variable self : timelapse.

Lemma records_of_about folders u new e :
  records_of folders u new → e ∈ new →
  ∃ r, r ∈ folders ∧ about r e = true ∧ is_sleep e = false.
Proof.
  intros (H1 & _ & _) He. destruct (H1 e He) as (r & Hr & He').
  exists r. split; [done|].
  destruct He' as [[_ ->]|[_ [p ->]]]; simpl;
    by rewrite bool_decide_eq_true_2.
Qed.

Lemma records_of_each folders u new r :
  records_of folders u new → r ∈ folders →
  ∃ e, e ∈ new ∧ about r e = true.
Proof.
  intros (_ & H2 & H3) Hr. destruct (decide (r ∈ u)) as [Hu|Hu].
  - exists (EvError r). split; [by apply H2|].
    simpl. by rewrite bool_decide_eq_true_2.
  - destruct (H3 r Hr Hu) as [p Hp]. exists (EvWrote r p). split; [done|].
    simpl. by rewrite bool_decide_eq_true_2.
Qed.

Lemma fallback_loop_success mem_stream now rounds st :
  fallback_loop hexdigest self mem_stream now rounds true st = (Ret true, st).
Proof. by destruct rounds. Qed.

Lemma fallback_loop_run mem_stream now rounds : ∀ success st,
  ∃ b st' new,
    fallback_loop hexdigest self mem_stream now rounds success st
      = (Ret b, st') ∧
    unwritable st' = unwritable st ∧
    log st' = log st ++ new ∧
    (∀ e, e ∈ new → ∃ r, r ∈ fallback_folders self ∧ about r e = true
                        ∧ is_sleep e = false) ∧
    (success = false → rounds ≠ [] →
     ∀ f, f ∈ fallback_folders self → ∃ e, e ∈ new ∧ about f e = true).
Proof.
  induction rounds as [|round rest IH]; intros success st.
  - exists success, st, []. simpl. rewrite app_nil_r.
    repeat split; try done. intros e He. by apply not_elem_of_nil in He.
  - destruct success.
    + exists true, st, []. rewrite fallback_loop_success, app_nil_r.
      repeat split; try done. intros e He. by apply not_elem_of_nil in He.
    + cbn [fallback_loop].
      destruct (_write_to_file_run hexdigest self mem_stream now
                  (fallback_folders self) st)
        as (st1 & new1 & Hrun1 & Hu1 & _ & Hlog1 & Hrec1).
      erewrite bind_ret by exact Hrun1.
      destruct (IH (bool_decide (∀ r, r ∈ fallback_folders self →
                                      r ∉ unwritable st)) st1)
        as (b & st' & new2 & Hrun2 & Hu2 & Hlog2 & Hab2 & _).
      exists b, st', (new1 ++ new2). split; [done|]. split; [congruence|].
      split; [by rewrite Hlog2, Hlog1, <- app_assoc|]. split.
      * intros e [He|He]%elem_of_app; [|by apply Hab2].
        destruct (records_of_about _ _ _ _ Hrec1 He) as (r & Hr & ? & ?).
        exists r. split; [by apply elem_of_elements|done].
      * intros _ _ f Hf.
        destruct (records_of_each _ _ _ f Hrec1) as (e & He & ?);
          [by apply elem_of_elements|].
        exists e. split; [|done]. apply elem_of_app. by left.
Qed.

(** The two statements of [__run] that store a capture, together. *)
Lemma store_run mem_stream now st :
  ∃ b st' new,
    store hexdigest self mem_stream now st = (Ret b, st') ∧
    unwritable st' = unwritable st ∧
    log st' = log st ++ new ∧
    (∀ e, e ∈ new → is_sleep e = false) ∧
    (∀ r, r ∈ root_folders self →
       (r ∈ unwritable st → EvError r ∈ new) ∧
       (r ∉ unwritable st → ∃ p, EvWrote r p ∈ new)) ∧
    ((∀ r, r ∈ root_folders self → r ∉ unwritable st) →
     b = true ∧ ∀ e, e ∈ new → ∃ r p, r ∈ root_folders self ∧ e = EvWrote r p) ∧
    ((∃ r, r ∈ root_folders self ∧ r ∈ unwritable st) →
     ∀ f, f ∈ fallback_folders self → ∃ e, e ∈ new ∧ about f e = true).
Proof.
  unfold store.
  destruct (_write_to_file_run hexdigest self mem_stream now
              (root_folders self) st)
    as (st1 & new1 & Hrun1 & Hu1 & _ & Hlog1 & Hrec1).
  erewrite bind_ret by exact Hrun1.
  destruct (fallback_loop_run mem_stream now
              (elements (fallback_folders self))
              (bool_decide (∀ r, r ∈ root_folders self → r ∉ unwritable st))
              st1)
    as (b & st' & new2 & Hrun2 & Hu2 & Hlog2 & Hab2 & Hall2).
  exists b, st', (new1 ++ new2). split; [done|]. split; [congruence|].
  split; [by rewrite Hlog2, Hlog1, <- app_assoc|]. split; [|split; [|split]].
  - intros e [He|He]%elem_of_app.
    + by destruct (records_of_about _ _ _ _ Hrec1 He) as (r & _ & _ & ?).
    + by destruct (Hab2 e He) as (r & _ & _ & ?).
  - intros r Hr%elem_of_elements. destruct Hrec1 as (_ & H2 & H3). split.
    + intros Hu. apply elem_of_app. left. by apply H2.
    + intros Hu. destruct (H3 r Hr Hu) as [p Hp]. exists p.
      apply elem_of_app. by left.
  - intros Hall. rewrite bool_decide_eq_true_2 in Hrun2 by done.
    rewrite fallback_loop_success in Hrun2. simplify_eq.
    split; [done|]. intros e He.
    assert (new2 = []) as ->.
    { rewrite <- (app_nil_r (log st')) in Hlog2 at 1.
      by apply app_inv_head in Hlog2. }
    rewrite app_nil_r in He.
    destruct Hrec1 as (H1 & _ & _).
    destruct (H1 e He) as (r & Hr & [[Hu _]|[_ [p ->]]]).
    + apply elem_of_elements in Hr. by apply Hall in Hr.
    + exists r, p. split; [by apply elem_of_elements|done].
  - intros (r & Hr & Hu) f Hf.
    rewrite bool_decide_eq_false_2 in Hrun2, Hall2 by (intros H; by apply (H r)).
    destruct (Hall2 eq_refl) with (f := f) as (e & He & ?); [|done|].
    { intros Hnil. apply elements_empty_inv in Hnil.
      apply leibniz_equiv in Hnil. set_solver. }
    exists e. split; [|done]. apply elem_of_app. by right.
Qed.

Lemma count_sleeps_app l1 l2 :
  count_sleeps (l1 ++ l2) = (count_sleeps l1 + count_sleeps l2)%nat.
Proof. unfold count_sleeps. by rewrite filter_app, length_app. Qed.

Lemma count_sleeps_none l :
  (∀ e, e ∈ l → is_sleep e = false) → count_sleeps l = 0%nat.
Proof.
  unfold count_sleeps. induction l as [|e l IH]; intros H; [done|].
  rewrite filter_cons. rewrite (H e) by by left.
  case_decide; [done|]. apply IH. intros; apply H. by right.
Qed.

Lemma wait_run now st :
  __wait_until_next_capture self now st
  = (Ret tt, {| files := files st; unwritable := unwritable st;
                log := log st ++ [EvSleep (Z.max 0 (next_instant self now - now))
                                         (next_instant self now)] |}).
Proof. done. Qed.

(** A round in which the capture succeeds runs to its sleep, whatever the
    writes do. *)
Lemma run_round_captured t image st :
  tick_capture t = Ret image →
  ∃ st' new,
    run_round hexdigest self t st = (Ret tt, st') ∧
    log st' = log st ++ new ∧
    count_sleeps new = 1%nat ∧
    (∀ r, r ∈ root_folders self →
       (r ∈ tick_unwritable t → EvError r ∈ new) ∧
       (r ∉ tick_unwritable t → ∃ p, EvWrote r p ∈ new)).
Proof.
  intros Hc. unfold run_round, camera_capture. rewrite Hc.
  unfold mbind at 1, M_bind at 1, bind at 1. unfold set_unwritable, modify.
  unfold mbind at 1, M_bind at 1, bind at 1. unfold mret, M_ret, ret.
  set (st0 := {| files := files st; unwritable := tick_unwritable t;
                 log := log st |}).
  destruct (store_run image (tick_now t) st0)
    as (b & st1 & new & Hrun & _ & Hlog & Hns & Hall & _).
  erewrite bind_ret by exact Hrun. rewrite wait_run.
  eexists _, (new ++ [_]). split; [reflexivity|]. simpl.
  split; [by rewrite Hlog, <- app_assoc|]. split.
  - rewrite count_sleeps_app, count_sleeps_none by done. done.
  - intros r Hr. destruct (Hall r Hr) as [Herr Hwrote]. split.
    + intros Hu. apply elem_of_app. left. by apply Herr.
    + intros Hu. destruct (Hwrote Hu) as [p Hp]. exists p.
      apply elem_of_app. by left.
Qed.

Lemma run_loop_captured ticks : ∀ st,
  Forall (λ t, ∃ image, tick_capture t = Ret image) ticks →
  ∃ st' new,
    run_loop hexdigest self ticks st = (Ret tt, st') ∧
    log st' = log st ++ new ∧
    count_sleeps new = length ticks.
Proof.
  induction ticks as [|t ticks IH]; intros st Hall.
  - exists st, []. by rewrite app_nil_r.
  - apply Forall_cons in Hall as [[image Hc] Hall].
    destruct (run_round_captured t image st Hc)
      as (st1 & new1 & Hrun1 & Hlog1 & Hn1 & _).
    destruct (IH st1 Hall) as (st' & new2 & Hrun2 & Hlog2 & Hn2).
    exists st', (new1 ++ new2). cbn [run_loop].
    erewrite bind_ret by exact Hrun1. split; [done|].
    split; [by rewrite Hlog2, Hlog1, <- app_assoc|].
    rewrite count_sleeps_app, Hn1, Hn2. done.
Qed.

Lemma aimed_at_app l1 l2 : aimed_at (l1 ++ l2) = aimed_at l1 ++ aimed_at l2.
Proof. unfold aimed_at. apply omap_app. Qed.

Lemma aimed_at_none l : (∀ e, e ∈ l → is_sleep e = false) → aimed_at l = [].
Proof.
  induction l as [|e l IH]; intros H; [done|].
  assert (is_sleep e = false) as He by (apply H; by left).
  destruct e; try done; apply IH; intros; apply H; by right.
Qed.

Lemma run_round_aims t image st :
  tick_capture t = Ret image →
  ∃ st',
    run_round hexdigest self t st = (Ret tt, st') ∧
    aimed_at (log st')
    = aimed_at (log st) ++ [next_instant self (tick_wait_now t)].
Proof.
  intros Hc. unfold run_round, camera_capture. rewrite Hc.
  unfold mbind at 1, M_bind at 1, bind at 1. unfold set_unwritable, modify.
  unfold mbind at 1, M_bind at 1, bind at 1. unfold mret, M_ret, ret.
  set (st0 := {| files := files st; unwritable := tick_unwritable t;
                 log := log st |}).
  destruct (store_run image (tick_now t) st0)
    as (b & st1 & new & Hrun & _ & Hlog & Hns & _).
  erewrite bind_ret by exact Hrun. rewrite wait_run.
  eexists. split; [reflexivity|]. cbn [log]. rewrite Hlog. cbn [log].
  rewrite !aimed_at_app, (aimed_at_none new) by done.
  by rewrite app_nil_r.
Qed.

(** The sleeps of a run aim at the instants [next_instant] gives for the
    clock read before the loop and at the end of every round. *)
Lemma run_loop_aims ticks : ∀ st,
  Forall (λ t, ∃ image, tick_capture t = Ret image) ticks →
  ∃ st',
    run_loop hexdigest self ticks st = (Ret tt, st') ∧
    aimed_at (log st')
    = aimed_at (log st)
      ++ ((λ t, next_instant self (tick_wait_now t)) <$> ticks).
Proof.
  induction ticks as [|t ticks IH]; intros st Hall.
  - exists st. by rewrite app_nil_r.
  - apply Forall_cons in Hall as [[image Hc] Hall].
    destruct (run_round_aims t image st Hc) as (st1 & Hrun1 & Haim1).
    destruct (IH st1 Hall) as (st' & Hrun' & Haim).
    exists st'. cbn [run_loop]. erewrite bind_ret by exact Hrun1.
    split; [done|]. rewrite Haim, Haim1, <- app_assoc. done.
Qed.

Lemma run_aims (start_now : datetime) ticks st :
  Forall (λ t, ∃ image, tick_capture t = Ret image) ticks →
  ∃ st',
    __run hexdigest self start_now ticks st = (Ret tt, st') ∧
    aimed_at (log st')
    = aimed_at (log st)
      ++ next_instant self start_now
         :: ((λ t, next_instant self (tick_wait_now t)) <$> ticks).
Proof.
  intros Hall. unfold __run.
  erewrite bind_ret by apply wait_run.
  destruct (run_loop_aims ticks
              {| files := files st; unwritable := unwritable st;
                 log := log st ++ [EvSleep (Z.max 0 (next_instant self start_now
                                                     - start_now))
                                           (next_instant self start_now)] |}
              Hall) as (st' & Hrun & Haim).
  exists st'. split; [done|]. rewrite Haim. cbn [log].
  by rewrite aimed_at_app, <- app_assoc.
Qed.

End WithDigest.

End RunFacts.

Module StoreSpec.
Import Datetime PosixPath Timelapse PyFacts StoreFacts RunFacts.
Import Scenario.

(** C1, as the code has it.  A tick stores a capture in two passes.  The
    primary pass is [_write_to_file] over the primary folders; it reports
    success exactly when no primary folder failed.  When it does, or when
    there is no fallback folder, the tick ends in the state the primary pass
    left: nothing more is written or logged.  Otherwise the fallback pass
    follows on that state: [_write_to_file] over the fallback folders, with
    one record for every fallback folder, an error for those that cannot be
    written and a written file for the others - also for a folder that the
    primary pass has written already.  A fallback pass that succeeds ends
    the tick; what the tick logs after a pass that fails comes from further
    fallback passes. *)
Theorem fallback_when_a_primary_write_failed (hexdigest : bytes → string)
    (self : timelapse) (mem_stream : bytes) (now : datetime) (st : storage) :
  ∃ b1 st1 b st',
    _write_to_file hexdigest self mem_stream (root_folders self) now st
      = (Ret b1, st1) ∧
    (b1 = true ↔ ∀ r, r ∈ root_folders self → r ∉ unwritable st) ∧
    store hexdigest self mem_stream now st = (Ret b, st') ∧
    (b1 = true ∨ fallback_folders self = ∅ → b = b1 ∧ st' = st1) ∧
    (b1 = false → fallback_folders self ≠ ∅ →
     ∃ b2 st2 new2 more,
       _write_to_file hexdigest self mem_stream (fallback_folders self) now
         st1 = (Ret b2, st2) ∧
       log st2 = log st1 ++ new2 ∧
       records_of (elements (fallback_folders self)) (unwritable st) new2 ∧
       log st' = log st2 ++ more ∧
       (∀ e, e ∈ more →
          ∃ f, f ∈ fallback_folders self ∧ about f e = true) ∧
       (b2 = true → b = true ∧ st' = st2)).
Proof.
  destruct (_write_to_file_run hexdigest self mem_stream now
              (root_folders self) st)
    as (st1 & new1 & Hrun1 & Hu1 & _ & Hlog1 & Hrec1).
  set (b1 := bool_decide (∀ r, r ∈ root_folders self → r ∉ unwritable st))
    in *.
  destruct (fallback_loop_run hexdigest self mem_stream now
              (elements (fallback_folders self)) b1 st1)
    as (b & st' & new & Hrun & _ & _ & _ & _).
  exists b1, st1, b, st'. split; [done|].
  split; [apply bool_decide_eq_true|].
  unfold store. erewrite bind_ret by exact Hrun1.
  split; [done|]. split.
  - intros [Hb1|Hempty].
    + rewrite Hb1, fallback_loop_success in Hrun. by simplify_eq.
    + rewrite Hempty, elements_empty in Hrun. cbn [fallback_loop] in Hrun.
      unfold mret, M_ret, ret in Hrun. by simplify_eq.
  - intros Hb1 Hne.
    destruct (elements (fallback_folders self)) as [|f rest] eqn:Hel.
    { apply elements_empty_inv, leibniz_equiv in Hel. done. }
    rewrite Hb1 in Hrun. cbn [fallback_loop] in Hrun.
    destruct (_write_to_file_run hexdigest self mem_stream now
                (fallback_folders self) st1)
      as (st2 & new2 & Hrun2 & Hu2 & _ & Hlog2 & Hrec2).
    erewrite bind_ret in Hrun by exact Hrun2.
    set (b2 := bool_decide (∀ r, r ∈ fallback_folders self →
                                 r ∉ unwritable st1)) in *.
    destruct (fallback_loop_run hexdigest self mem_stream now rest b2 st2)
      as (b' & st'' & more & Hrun' & _ & Hlog' & Hab' & _).
    rewrite Hrun' in Hrun. simplify_eq.
    exists b2, st2, new2, more. split; [done|]. split; [done|].
    split; [by rewrite <- Hel, <- Hu1|]. split; [done|]. split.
    + intros e He. destruct (Hab' e He) as (r & ? & ? & _). by exists r.
    + intros Hb2. rewrite Hb2, fallback_loop_success in Hrun'.
      by simplify_eq.
Qed.

Lemma fallback_when_a_primary_write_failed_witness :
  ∃ st1 b st' b2 st2 new2 more p,
    _write_to_file Scenario.hexdigest shared_folder []
      (root_folders shared_folder) two_pm usb2_unmounted = (Ret false, st1) ∧
    store Scenario.hexdigest shared_folder [] two_pm usb2_unmounted
      = (Ret b, st') ∧
    _write_to_file Scenario.hexdigest shared_folder []
      (fallback_folders shared_folder) two_pm st1 = (Ret b2, st2) ∧
    log st2 = log st1 ++ new2 ∧
    EvWrote "/mnt/usb/timelapse/" p ∈ new2 ∧
    log st' = log st2 ++ more.
Proof.
  destruct (fallback_when_a_primary_write_failed Scenario.hexdigest
              shared_folder [] two_pm usb2_unmounted)
    as (b1 & st1 & b & st' & Hrun1 & Hb1 & Hrun & _ & Hfallback).
  assert (b1 = false) as ->.
  { destruct b1; [|reflexivity]. exfalso.
    apply (proj1 Hb1 eq_refl "/mnt/usb2/timelapse/").
    - unfold shared_folder; cbn [root_folders].
      apply elem_of_union_r. by apply elem_of_singleton_2.
    - unfold usb2_unmounted; cbn [unwritable]. by apply elem_of_singleton_2. }
  destruct (Hfallback eq_refl)
    as (b2 & st2 & new2 & more & Hrun2 & Hlog2 & Hrec2 & Hlog' & _).
  { unfold shared_folder; cbn [fallback_folders].
    intros H. apply (not_elem_of_empty (C:=gset string) "/mnt/usb/timelapse/").
    rewrite <- H. by apply elem_of_singleton_2. }
  destruct Hrec2 as (_ & _ & Hwrote).
  destruct (Hwrote "/mnt/usb/timelapse/") as [p Hp].
  { apply elem_of_elements. unfold shared_folder; cbn [fallback_folders].
    by apply elem_of_singleton_2. }
  { unfold usb2_unmounted; cbn [unwritable].
    intros H. apply elem_of_singleton_1 in H. discriminate H. }
  exists st1, b, st', b2, st2, new2, more, p.
  split; [exact Hrun1|]. split; [exact Hrun|]. split; [exact Hrun2|].
  split; [exact Hlog2|]. split; [exact Hp|exact Hlog'].
Defined.

(** C1 as stated fails.  With two primary folders of which one cannot be
    written, the write to the other one succeeds and the fallback folder is
    written all the same. *)
Lemma fallback_written_after_a_primary_success :
  let r := store Scenario.hexdigest two_primaries [] two_pm usb2_unmounted in
  r.1 = Ret true ∧
  log r.2 =
    [EvWrote "/mnt/usb/timelapse/"
       "/mnt/usb/timelapse/20200101/img_20200101_140000_md5-d41d8cd98f00b204e9800998ecf8427e.jpg";
     EvError "/mnt/usb2/timelapse/";
     EvWrote "/mnt/sdcard/timelapse/"
       "/mnt/sdcard/timelapse/20200101/img_20200101_140000_md5-d41d8cd98f00b204e9800998ecf8427e.jpg"].
Proof. split; by vm_compute. Qed.

(** A folder that is primary and fallback is written in both passes, under
    two names. *)
Example shared_folder_written_twice :
  let r := store Scenario.hexdigest shared_folder [] two_pm usb2_unmounted in
  r.1 = Ret true ∧
  log r.2 =
    [EvWrote "/mnt/usb/timelapse/"
       "/mnt/usb/timelapse/20200101/img_20200101_140000_md5-d41d8cd98f00b204e9800998ecf8427e.jpg";
     EvError "/mnt/usb2/timelapse/";
     EvWrote "/mnt/usb/timelapse/"
       "/mnt/usb/timelapse/20200101/img_20200101_140000_md5-d41d8cd98f00b204e9800998ecf8427e_1.jpg"].
Proof. split; by vm_compute. Qed.

(** Scenario 3 of the specification: the primary folder cannot be written,
    the fallback can; the file exists only under the fallback root. *)
Example primary_unmounted :
  let r := store Scenario.hexdigest every_minute [] two_pm usb_unmounted in
  r.1 = Ret true ∧
  elements (files r.2) =
    [ "/mnt/sdcard/timelapse/20200101/img_20200101_140000_md5-d41d8cd98f00b204e9800998ecf8427e.jpg" ].
Proof. split; by vm_compute. Qed.

(** C10.  Over no folders [_write_to_file] returns [True] and changes
    nothing; a tick of a scheduler without primary folders therefore counts
    as a success, writes no file and never turns to the fallback folders. *)
Theorem empty_primary_is_success (hexdigest : bytes → string)
    (self : timelapse) (mem_stream : bytes) (now : datetime) (st : storage) :
  _write_to_file hexdigest self mem_stream ∅ now st = (Ret true, st) ∧
  (root_folders self = ∅ →
   store hexdigest self mem_stream now st = (Ret true, st)).
Proof.
  assert (H : _write_to_file hexdigest self mem_stream ∅ now st = (Ret true, st)).
  { unfold _write_to_file. by rewrite elements_empty. }
  split; [done|]. intros Hempty. unfold store. rewrite Hempty.
  erewrite bind_ret by exact H. apply fallback_loop_success.
Qed.

Lemma empty_primary_is_success_witness :
  _write_to_file Scenario.hexdigest no_primary [] ∅ two_pm empty_storage
    = (Ret true, empty_storage) ∧
  store Scenario.hexdigest no_primary [] two_pm empty_storage
    = (Ret true, empty_storage).
Proof.
  destruct (empty_primary_is_success Scenario.hexdigest no_primary [] two_pm
              empty_storage) as [Hwrite Hstore].
  split; [exact Hwrite|]. apply Hstore. reflexivity.
Defined.

End StoreSpec.

Module RunSpec.
Import Datetime PosixPath Timelapse PyFacts StoreFacts RunFacts.
Import Scenario.

(** C2, as the code has it.  Failing writes never end the loop of [__run]:
    when every capture returns, the loop runs all its rounds and sleeps
    after each of them; within a round every primary folder is attempted
    whichever of them fail, a failure is logged and the folders that can be
    written get their file. *)
Theorem run_survives_write_failures (hexdigest : bytes → string)
    (self : timelapse) (start_now : datetime) (ticks : list tick)
    (st : storage) :
  Forall (λ t, ∃ image, tick_capture t = Ret image) ticks →
  (∃ st' new,
     __run hexdigest self start_now ticks st = (Ret tt, st') ∧
     log st' = log st ++ new ∧
     count_sleeps new = S (length ticks)) ∧
  (∀ t st0, t ∈ ticks →
     ∃ st1 new,
       run_round hexdigest self t st0 = (Ret tt, st1) ∧
       log st1 = log st0 ++ new ∧
       count_sleeps new = 1%nat ∧
       ∀ r, r ∈ root_folders self →
         (r ∈ tick_unwritable t → EvError r ∈ new) ∧
         (r ∉ tick_unwritable t → ∃ p, EvWrote r p ∈ new)).
Proof.
  intros Hall. split.
  - unfold __run. erewrite bind_ret by apply wait_run.
    set (st0 := {| files := files st |}).
    destruct (run_loop_captured hexdigest self ticks st0 Hall)
      as (st' & new & Hrun & Hlog & Hn).
    exists st', (EvSleep (Z.max 0 (next_instant self start_now - start_now))
                   (next_instant self start_now) :: new).
    split; [done|]. split.
    + rewrite Hlog. simpl. by rewrite <- app_assoc.
    + unfold count_sleeps in *. rewrite filter_cons_True by done.
      simpl. by rewrite Hn.
  - intros t st0 Ht. rewrite Forall_forall in Hall.
    destruct (Hall t Ht) as [image Hc].
    by apply (run_round_captured hexdigest self t image st0).
Qed.

Lemma run_survives_write_failures_witness :
  (∃ st' new,
     __run Scenario.hexdigest every_minute (two_pm - 30000000)
       [storage_down; capture_works] empty_storage = (Ret tt, st') ∧
     log st' = log empty_storage ++ new ∧
     count_sleeps new = 3%nat) ∧
  (∃ st1 new,
     run_round Scenario.hexdigest every_minute storage_down empty_storage
       = (Ret tt, st1) ∧
     log st1 = log empty_storage ++ new ∧
     count_sleeps new = 1%nat ∧
     EvError "/mnt/usb/timelapse/" ∈ new).
Proof.
  destruct (run_survives_write_failures Scenario.hexdigest every_minute
              (two_pm - 30000000) [storage_down; capture_works] empty_storage)
    as [Hrun Hround].
  - repeat constructor; by eexists.
  - split; [exact Hrun|].
    destruct (Hround storage_down empty_storage)
      as (st1 & new & Hr & Hlog & Hn & Hall); [by left|].
    exists st1, new. split; [exact Hr|]. split; [exact Hlog|].
    split; [exact Hn|].
    apply (Hall "/mnt/usb/timelapse/").
    + unfold every_minute; cbn [root_folders]. by apply elem_of_singleton_2.
    + unfold storage_down; cbn [tick_unwritable].
      apply elem_of_union_l. by apply elem_of_singleton_2.
Defined.

(** C2 as stated fails for the capture: [camera.capture] is called outside
    any [try].  When it raises in the first of two rounds, the exception
    leaves [__run]: nothing is logged for it, the sleep after the round is
    not reached and the second round never runs. *)
Lemma capture_failure_ends_run :
  __run Scenario.hexdigest every_minute (two_pm - 30000000)
    [capture_fails; capture_works] empty_storage
  = (Raise PiCameraRuntimeError,
     {| files := ∅; unwritable := ∅;
        log := [EvSleep 30000000 two_pm] |}).
Proof. by vm_compute. Qed.

Example run_one_round :
  let r := __run Scenario.hexdigest every_minute (two_pm - 30000000)
             [capture_works] empty_storage in
  r.1 = Ret tt ∧
  log r.2 =
    [EvSleep 30000000 two_pm;
     EvWrote "/mnt/usb/timelapse/"
       "/mnt/usb/timelapse/20200101/img_20200101_140100_md5-d41d8cd98f00b204e9800998ecf8427e.jpg";
     EvSleep 58000000 (two_pm + 120000000)].
Proof. split; by vm_compute. Qed.

End RunSpec.

(** ** moveimages.py: looking for the checksum in a generated name *)

Module MoveImagesFacts.
Import Datetime PosixPath Timelapse MoveImages Text TextFacts NameFacts.

Ltac by_cases_on_char c :=
  destruct c as [[] [] [] [] [] [] [] []]; try done.

Lemma digit_stamp c : is_digit c = true → stamp_char c = true.
Proof. unfold stamp_char. by intros ->. Qed.

Lemma stamp_not_sep c : stamp_char c = true → is_not sep c = true.
Proof. by_cases_on_char c. Qed.

Lemma stamp_not_m c : stamp_char c = true → is_not "m" c = true.
Proof. by_cases_on_char c. Qed.

Lemma hex_not_sep c : hexdigit c = true → is_not sep c = true.
Proof. by_cases_on_char c. Qed.

Lemma hex_not_underscore c : hexdigit c = true → is_not "_" c = true.
Proof. by_cases_on_char c. Qed.

Lemma hex_not_delimiter c :
  hexdigit c = true → one_of ["_"; "."]%char c = false.
Proof. by_cases_on_char c. Qed.

(** *** The shape of the formatted timestamp *)

Lemma decimal_digits n : sall is_digit (decimal n) = true.
Proof. apply pretty_N_digits. Qed.

Lemma decimal_stamp n : sall stamp_char (decimal n) = true.
Proof. eapply sall_impl; [apply digit_stamp|apply decimal_digits]. Qed.

Lemma pad2_stamp n : sall stamp_char (pad2 n) = true.
Proof.
  unfold pad2. case_match; [|apply decimal_stamp].
  rewrite sall_app, decimal_stamp. done.
Qed.

Lemma strftime_DATETIMESTR_FORMAT_stamp t :
  sall stamp_char (strftime_DATETIMESTR_FORMAT t) = true.
Proof.
  unfold strftime_DATETIMESTR_FORMAT.
  rewrite !sall_app, decimal_stamp, !pad2_stamp. done.
Qed.

Lemma suffix_stamp k :
  sall stamp_char (match k with O => "" | S _ => suffix_of k end) = true.
Proof.
  destruct k as [|k]; [done|]. unfold suffix_of. rewrite sall_app. simpl.
  eapply sall_impl; [apply digit_stamp|apply pretty_nat_digits].
Qed.

(** *** Separators and [basename] *)

Lemma has_sep_sall s : has_sep s = negb (sall (is_not sep) s).
Proof.
  induction s as [|c s IH]; [done|]. simpl. rewrite IH. unfold is_not.
  by destruct (bool_decide (c = sep)), (sall _ s).
Qed.

Lemma has_sep_app s1 s2 : has_sep (s1 +:+ s2) = has_sep s1 || has_sep s2.
Proof.
  rewrite !has_sep_sall, sall_app. by destruct (sall _ s1), (sall _ s2).
Qed.

Lemma endswith_sep_has_sep s : endswith_sep s = true → has_sep s = true.
Proof.
  induction s as [|c s IH]; [done|]. simpl. destruct s as [|c' s].
  - intros ->. done.
  - intros H. rewrite IH by done. by rewrite orb_true_r.
Qed.

Lemma endswith_sep_snoc s : endswith_sep (s +:+ "/") = true.
Proof.
  induction s as [|c s IH]; [done|]. rewrite app_cons.
  destruct s as [|c' s]; [done|]. rewrite app_cons in *. exact IH.
Qed.

Lemma dir_prefix_shape p :
  dir_prefix p = "" ∨ endswith_sep (dir_prefix p) = true.
Proof.
  unfold dir_prefix. destruct (is_empty p) eqn:He; simpl.
  - left. by destruct p.
  - destruct (endswith_sep p) eqn:Hs; [by right|].
    right. apply endswith_sep_snoc.
Qed.

Lemma basename_after_dir (P b : string) :
  has_sep b = false → P = "" ∨ endswith_sep P = true →
  basename (P +:+ b) = b.
Proof.
  intros Hb. induction P as [|c P IH]; intros HP.
  - rewrite app_nil_l. destruct b as [|c b]; [done|]. simpl in *.
    apply orb_false_iff in Hb as [Hc Hb]. by rewrite Hb, Hc.
  - destruct HP as [|HP]; [done|]. rewrite app_cons. simpl.
    rewrite has_sep_app, Hb, orb_false_r.
    destruct P as [|c' P].
    + simpl in HP. rewrite app_nil_l. simpl. by rewrite HP.
    + rewrite (endswith_sep_has_sep (String c' P)) by exact HP.
      apply IH. by right.
Qed.

(** *** Searching for MD5SUM_REGEX *)

Lemma match_here_starts_um s :
  match_here MD5SUM_REGEX s = true → starts_um s = true.
Proof.
  destruct s as [|c1 [|c2 s]]; simpl; unfold lit.
  - done.
  - rewrite andb_false_r. done.
  - intros H. apply andb_true_iff in H as [-> H].
    apply andb_true_iff in H as [-> _]. done.
Qed.

Lemma search_um_free s : um_free s = true → search MD5SUM_REGEX s = None.
Proof.
  induction s as [|c s IH]; [done|].
  intros H. cbn [um_free] in H. apply andb_true_iff in H as [Hs Hf].
  cbn [search]. destruct (match_here MD5SUM_REGEX (String c s)) eqn:Hm.
  - apply match_here_starts_um in Hm. by rewrite Hm in Hs.
  - by apply IH.
Qed.

Lemma starts_um_before_underscore c A T :
  starts_um (String c (A +:+ String "_" T)) = starts_um (String c (A +:+ "_")).
Proof. by destruct A. Qed.

Lemma search_skip A T :
  um_free (A +:+ "_") = true →
  search MD5SUM_REGEX (A +:+ String "_" T)
  = search MD5SUM_REGEX (String "_" T).
Proof.
  induction A as [|c A IH]; [done|]. rewrite !app_cons.
  intros H. cbn [um_free] in H. apply andb_true_iff in H as [Hs Hf].
  cbn [search].
  destruct (match_here MD5SUM_REGEX (String c (A +:+ String "_" T))) eqn:Hm.
  - apply match_here_starts_um in Hm.
    rewrite starts_um_before_underscore in Hm. by rewrite Hm in Hs.
  - by apply IH.
Qed.

Lemma um_free_no_m s : sall (is_not "m") s = true → um_free s = true.
Proof.
  induction s as [|c s IH]; [done|]. cbn [sall um_free].
  intros [Hc Hs]%andb_true_iff. rewrite IH by done. rewrite andb_true_r.
  destruct s as [|c' s]; [done|]. simpl in *.
  apply andb_true_iff in Hs as [Hc' _]. unfold is_not in Hc'.
  apply negb_true_iff in Hc'. by rewrite Hc', andb_false_r.
Qed.

Lemma um_free_cons c s :
  um_free (String c s) = negb (starts_um (String c s)) && um_free s.
Proof. done. Qed.

Lemma um_free_cons_no_m c s :
  sall (is_not "m") s = true → um_free (String c s) = true.
Proof.
  intros Hs. rewrite um_free_cons, (um_free_no_m s) by done.
  rewrite andb_true_r. destruct s as [|c' s]; [done|]. simpl in *.
  apply andb_true_iff in Hs as [Hc' _]. unfold is_not in Hc'.
  apply negb_true_iff in Hc'. by rewrite Hc', andb_false_r.
Qed.

Lemma um_free_after_no_underscore s1 s2 :
  sall (is_not "_") s1 = true → um_free s2 = true →
  um_free (s1 +:+ s2) = true.
Proof.
  intros H1 H2. induction s1 as [|c s1 IH]; [done|]. rewrite app_cons.
  cbn [sall] in H1. apply andb_true_iff in H1 as [Hc H1].
  cbn [um_free]. rewrite IH by done. rewrite andb_true_r.
  unfold is_not in Hc. apply negb_true_iff in Hc.
  unfold starts_um. destruct (s1 +:+ s2); [done|]. by rewrite Hc.
Qed.

End MoveImagesFacts.

Module MoveImagesSpec.
Import Datetime PosixPath Timelapse MoveImages Text TextFacts NameFacts.
Import MoveImagesFacts Scenario.

Lemma match_here_at_tag m0 m1 m2 m3 R T :
  hexdigit m3 = true →
  match_here MD5SUM_REGEX
    ("_md5-" +:+ String m0 (String m1 (String m2 (String m3 R))) +:+ T)
  = false.
Proof.
  intros H3. rewrite !app_cons, app_nil_l. simpl.
  rewrite (hex_not_delimiter m3 H3). by rewrite !andb_false_r.
Qed.

Lemma search_file_name dts md5 sfx :
  sall stamp_char dts = true →
  String.length md5 = 32%nat → sall hexdigit md5 = true →
  sall stamp_char sfx = true →
  search MD5SUM_REGEX (FILE_NAME_TEMPLATE dts md5 sfx) = None.
Proof.
  intros Hdts Hlen Hhex Hsfx. unfold FILE_NAME_TEMPLATE.
  rewrite (app_assoc "img_" dts).
  change ("_md5-" +:+ md5 +:+ sfx +:+ ".jpg")
    with (String "_" ("md5-" +:+ md5 +:+ sfx +:+ ".jpg")).
  rewrite search_skip.
  2:{ rewrite <- app_assoc, !app_cons, app_nil_l.
      rewrite (um_free_cons "i"), (um_free_cons "m").
      rewrite (um_free_cons_no_m "g"); [done|].
      cbn [sall]. rewrite sall_app.
      by rewrite (sall_impl _ _ _ stamp_not_m Hdts). }
  assert (Hrest : um_free ("md5-" +:+ md5 +:+ sfx +:+ ".jpg") = true).
  { apply um_free_after_no_underscore; [done|].
    apply um_free_after_no_underscore.
    - eapply sall_impl; [apply hex_not_underscore|done].
    - apply um_free_no_m. rewrite sall_app. simpl. rewrite andb_true_r.
      eapply sall_impl; [apply stamp_not_m|done]. }
  cbn [search].
  destruct md5 as [|m0 [|m1 [|m2 [|m3 R]]]]; try done.
  assert (H3 : hexdigit m3 = true).
  { simpl in Hhex. repeat (apply andb_true_iff in Hhex as [? Hhex]). done. }
  change (String "_" ("md5-" +:+ String m0 (String m1 (String m2 (String m3 R)))
                      +:+ sfx +:+ ".jpg"))
    with ("_md5-" +:+ String m0 (String m1 (String m2 (String m3 R)))
                  +:+ sfx +:+ ".jpg").
  rewrite match_here_at_tag by done.
  by apply search_um_free.
Qed.

Lemma file_name_no_sep dts md5 sfx :
  sall stamp_char dts = true → sall hexdigit md5 = true →
  sall stamp_char sfx = true →
  has_sep (FILE_NAME_TEMPLATE dts md5 sfx) = false.
Proof.
  intros Hdts Hhex Hsfx. rewrite has_sep_sall. unfold FILE_NAME_TEMPLATE.
  rewrite !sall_app.
  rewrite (sall_impl _ _ _ stamp_not_sep Hdts),
    (sall_impl _ _ _ hex_not_sep Hhex), (sall_impl _ _ _ stamp_not_sep Hsfx).
  done.
Qed.

Lemma basename_candidate self root time md5 k :
  sall hexdigit md5 = true →
  basename (candidate self root time md5 k)
  = FILE_NAME_TEMPLATE (strftime_DATETIMESTR_FORMAT time) md5
      (match k with O => "" | S _ => suffix_of k end).
Proof.
  intros Hhex. unfold candidate. rewrite join_file_name.
  apply basename_after_dir; [|apply dir_prefix_shape].
  apply file_name_no_sep;
    [apply strftime_DATETIMESTR_FORMAT_stamp|done|apply suffix_stamp].
Qed.

(** C8, on the code.  For a digest of 32 hexadecimal digits no name that
    [generate_filename] can produce is matched by MD5SUM_REGEX: the pattern
    asks for one hexadecimal digit followed by the characters [32].
    [get_md5sum] with [try_from_basename=True] therefore always opens the
    file and returns the digest of its content, or raises when the file
    cannot be read. *)
Theorem generated_name_is_not_parsed (self : timelapse) (root : string)
    (time : datetime) (md5 : string) (k : nat)
    (file_md5 : string → option string) :
  String.length md5 = 32%nat → sall hexdigit md5 = true →
  let p := candidate self root time md5 k in
  search MD5SUM_REGEX (basename p) = None ∧
  get_md5sum_source p true = FromFile p ∧
  get_md5sum file_md5 p true
  = match file_md5 p with Some d => Ret d | None => Raise OSError end.
Proof.
  intros Hlen Hhex p.
  assert (Hs : search MD5SUM_REGEX (basename p) = None).
  { unfold p. rewrite basename_candidate by done.
    apply search_file_name;
      [apply strftime_DATETIMESTR_FORMAT_stamp|done|done|apply suffix_stamp]. }
  assert (Hsrc : get_md5sum_source p true = FromFile p).
  { unfold get_md5sum_source. by rewrite Hs. }
  split; [done|]. split; [done|]. unfold get_md5sum. by rewrite Hsrc.
Qed.

Lemma generated_name_is_not_parsed_witness :
  let p := candidate every_minute usb two_pm digest 0 in
  search MD5SUM_REGEX (basename p) = None ∧
  get_md5sum_source p true = FromFile p ∧
  get_md5sum changed_content p true
  = match changed_content p with Some d => Ret d | None => Raise OSError end.
Proof.
  apply (generated_name_is_not_parsed every_minute usb two_pm digest 0
           changed_content); reflexivity.
Defined.

(** What the pattern does match: one digit and [32]. *)
Example regex_matches_one_digit :
  get_md5sum_source "/mnt/usb/timelapse/20200101/img_20200101_140000_md5-d32.jpg" true
  = FromBasename "d32".
Proof. reflexivity. Qed.

Example generated_name_read_from_file :
  get_md5sum changed_content
    "/mnt/usb/timelapse/20200101/img_20200101_140000_md5-d41d8cd98f00b204e9800998ecf8427e.jpg"
    true
  = Ret "00000000000000000000000000000000".
Proof. reflexivity. Qed.

End MoveImagesSpec.

(** ** More on StreamTee: flush, close, and what a sink receives *)

Module StreamTeeMore.
Import Sink StreamTee PyFacts StreamTeeFacts.
Import Scenario.

Lemma elem_of_failing w (l : list sink) X :
  X ∈ failing w l ↔ X ∈ l ∧ write_fails w X.
Proof.
  unfold failing. rewrite elem_of_list_to_set, list_elem_of_filter. tauto.
Qed.

(** X1.  [StreamTee.flush()] returns to its caller whatever the sinks do: a
    sink whose flush fails is discarded and closed, every other sink of the
    set stays and has been flushed. *)
Theorem flush_best_effort (streams : gset sink) (w : world) :
  ∃ streams' w' new,
    StreamTee.flush streams w = (Ret streams', w') ∧
    log w' = log w ++ new ∧
    streams' = streams ∖ failing w (elements streams) ∧
    (∀ X, X ∈ streams → write_fails w X →
          (X ∉ streams') ∧ X ∈ closed w' ∧ EvClose X ∈ new) ∧
    (∀ Y, Y ∈ streams → ¬ write_fails w Y →
          Y ∈ streams' ∧ EvFlush Y ∈ new).
Proof.
  change (StreamTee.flush streams w) with (each Flush streams w).
  rewrite each_run. eexists _, _, _.
  split; [reflexivity|]. split; [reflexivity|]. split; [reflexivity|]. split.
  - intros X HX Hf.
    assert (X ∈ failing w (elements streams)).
    { apply elem_of_failing. split; [by apply elem_of_elements|done]. }
    simpl. split; [set_solver|]. split; [set_solver|].
    apply list_elem_of_fmap. exists X. split; [|by apply elem_of_elements].
    unfold loop_event. by destruct (decide (write_fails w X)).
  - intros Y HY Hok.
    assert (Y ∉ failing w (elements streams)).
    { rewrite elem_of_failing. tauto. }
    split; [set_solver|].
    apply list_elem_of_fmap. exists Y. split; [|by apply elem_of_elements].
    unfold loop_event. by destruct (decide (write_fails w Y)).
Qed.

Lemma flush_best_effort_witness :
  ∃ streams' w' new,
    StreamTee.flush {[1%nat; 2%nat; 3%nat]} demo_world = (Ret streams', w') ∧
    log w' = log demo_world ++ new ∧
    (2%nat ∉ streams') ∧ 2%nat ∈ closed w' ∧ EvClose 2%nat ∈ new ∧
    1%nat ∈ streams' ∧ EvFlush 1%nat ∈ new.
Proof.
  destruct (flush_best_effort {[1%nat; 2%nat; 3%nat]} demo_world)
    as (streams' & w' & new & Hrun & Hlog & _ & Hfail & Hok).
  exists streams', w', new. split; [exact Hrun|]. split; [exact Hlog|].
  destruct (Hfail 2%nat) as (H1 & H2 & H3); [set_solver| |].
  { unfold write_fails, demo_world; simpl. set_solver. }
  destruct (Hok 1%nat) as (H4 & H5); [set_solver| |].
  { unfold write_fails, demo_world; simpl. set_solver. }
  repeat split; assumption.
Defined.

(** *** What one sink receives *)

Lemma received_app s l1 l2 :
  received s (l1 ++ l2) = received s l1 ++ received s l2.
Proof. unfold received. apply omap_app. Qed.

Lemma received_loop_event_absent b w Y (l : list sink) :
  Y ∉ l → received Y (loop_event (Write b) w <$> l) = [].
Proof.
  induction l as [|x l IH]; intros HY; [done|].
  apply not_elem_of_cons in HY as [Hne HY].
  rewrite fmap_cons. unfold received in *. cbn [omap list_omap].
  rewrite IH by done. unfold loop_event.
  destruct (decide (write_fails w x)); simpl; [done|].
  destruct (decide (x = Y)); [congruence|done].
Qed.

Lemma received_loop_event b w Y (l : list sink) :
  NoDup l →
  received Y (loop_event (Write b) w <$> l)
  = if decide (Y ∈ l ∧ ¬ write_fails w Y) then [b] else [].
Proof.
  induction l as [|x l IH]; intros Hnd.
  - case_decide as H; [|done]. destruct H as [H _]. by apply not_elem_of_nil in H.
  - apply NoDup_cons in Hnd as [Hx Hnd]. rewrite fmap_cons.
    change (received Y (?e :: ?t)) with (received Y ([e] ++ t)).
    rewrite received_app. destruct (decide (x = Y)) as [->|Hne].
    + rewrite received_loop_event_absent by done. rewrite app_nil_r.
      unfold received, loop_event. cbn [omap list_omap].
      destruct (decide (write_fails w Y)) as [Hf|Hok]; simpl.
      * rewrite decide_False; [done|]. intros [_ H]. by apply H.
      * rewrite decide_True by done.
        rewrite decide_True; [done|]. split; [by left|done].
    + rewrite IH by done.
      assert (received Y [loop_event (Write b) w x] = []) as ->.
      { unfold received, loop_event. cbn [omap list_omap].
        destruct (decide (write_fails w x)); simpl; [done|].
        by rewrite decide_False. }
      simpl. apply decide_ext. rewrite elem_of_cons. naive_solver.
Qed.

(** X3.  Buffers handed to the tee one after the other reach a sink of the
    set on which writes do not fail exactly once each and in the order they
    were written; the sink is still in the set afterwards. *)
Theorem delivery_in_order (bs : list bytes) : ∀ (streams : gset sink)
    (w : world) (Y : sink),
  Y ∈ streams → ¬ write_fails w Y →
  ∃ streams' w',
    write_all streams bs w = (Ret streams', w') ∧
    Y ∈ streams' ∧ ¬ write_fails w' Y ∧
    received Y (log w') = received Y (log w) ++ bs.
Proof.
  induction bs as [|b bs IH]; intros streams w Y HY Hok.
  - exists streams, w. by rewrite app_nil_r.
  - cbn [write_all].
    change (StreamTee.write streams b) with (each (Write b) streams).
    erewrite bind_ret by apply each_run.
    set (F := failing w (elements streams)).
    assert (HYF : Y ∉ F).
    { unfold F. rewrite elem_of_failing. tauto. }
    destruct (IH (streams ∖ F)
                {| closed := closed w ∪ F; broken := broken w;
                   close_raises := close_raises w;
                   log := log w ++ (loop_event (Write b) w <$> elements streams) |}
                Y) as (streams' & w' & Hrun & HY' & Hok' & Hrec).
    + set_solver.
    + unfold write_fails in *; simpl. set_solver.
    + exists streams', w'. split; [exact Hrun|]. split; [done|]. split; [done|].
      rewrite Hrec. simpl. rewrite received_app.
      rewrite received_loop_event by apply NoDup_elements.
      rewrite decide_True by (split; [by apply elem_of_elements|done]).
      by rewrite <- app_assoc.
Qed.

Lemma delivery_in_order_witness :
  ∃ streams' w',
    write_all {[1%nat; 2%nat; 3%nat]} [[x01%byte]; [x02%byte]; [x03%byte]]
      demo_world = (Ret streams', w') ∧
    3%nat ∈ streams' ∧ ¬ write_fails w' 3%nat ∧
    received 3%nat (log w')
    = received 3%nat (log demo_world)
      ++ [[x01%byte]; [x02%byte]; [x03%byte]].
Proof.
  apply (delivery_in_order [[x01%byte]; [x02%byte]; [x03%byte]]
           {[1%nat; 2%nat; 3%nat]} demo_world 3%nat).
  - set_solver.
  - unfold write_fails, demo_world; simpl. set_solver.
Defined.

(** *** close *)

Lemma close_body_run s streams w :
  close_body s streams w
  = (Ret (if decide (s ∈ close_raises w) then streams ∖ {[s]} else streams),
     record (EvClose s) (mark_closed s w)).
Proof.
  unfold close_body, try_except, mbind, M_bind, bind, Sink.close.
  by destruct (decide (s ∈ close_raises w)).
Qed.

Lemma close_loop_run snapshot : ∀ streams w,
  close_loop snapshot streams w
  = (Ret (streams ∖ (list_to_set snapshot ∩ close_raises w)),
     {| closed := closed w ∪ list_to_set snapshot;
        broken := broken w;
        close_raises := close_raises w;
        log := log w ++ (EvClose <$> snapshot) |}).
Proof.
  induction snapshot as [|s rest IH]; intros streams w.
  - simpl. unfold mret, M_ret, ret. rewrite app_nil_r. destruct w; simpl.
    f_equal; [f_equal|f_equal]; set_solver.
  - cbn [close_loop]. erewrite bind_ret by apply close_body_run.
    rewrite IH. simpl. rewrite <- app_assoc. simpl.
    f_equal; [f_equal|f_equal]; [|set_solver].
    destruct (decide (s ∈ close_raises w)); set_solver.
Qed.

(** X4.  [StreamTee.close()] returns to its caller and calls [close] on
    every sink of the set, once each.  Only the sinks whose [close] raises
    leave the set; the sinks that were closed without error stay in it. *)
Theorem close_closes_all (streams : gset sink) (w : world) :
  ∃ w',
    StreamTee.close streams w = (Ret (streams ∖ close_raises w), w') ∧
    closed w' = closed w ∪ streams ∧
    log w' = log w ++ (EvClose <$> elements streams).
Proof.
  unfold StreamTee.close. rewrite close_loop_run.
  assert (Hset : streams ∖ (list_to_set (elements streams) ∩ close_raises w)
                 = streams ∖ close_raises w).
  { apply leibniz_equiv. intros X.
    rewrite !elem_of_difference, elem_of_intersection, elem_of_list_to_set,
      elem_of_elements. tauto. }
  rewrite Hset. eexists. split; [reflexivity|]. split; [|reflexivity].
  simpl. apply leibniz_equiv. intros X.
  rewrite !elem_of_union, elem_of_list_to_set, elem_of_elements. tauto.
Qed.

End StreamTeeMore.

(** ** More on TcpVideoStreamServer: before start, and late joiners *)

Module TcpVideoStreamServerMore.
Import Sink StreamTee TcpVideoStreamServer PyFacts StreamTeeFacts.
Import TcpVideoStreamServerFacts StreamTeeMore Scenario.

Lemma step_not_recording o st :
  is_Start o = false → recording st.1 = None →
  ∃ st', step o st = (Ret tt, st') ∧ recording st'.1 = None ∧
         log st'.2 = log st.2.
Proof.
  intros Ho Hrec. destruct st as [[outs rec] w]. simpl in Hrec. subst rec.
  destruct o; try done; simpl.
  - unfold add_output, mbind, M_bind, bind, modify.
    rewrite _outputs_changed_run. eauto.
  - unfold remove_output, mbind, M_bind, bind, modify.
    rewrite _outputs_changed_run. eauto.
  - eexists. split; [reflexivity|]. done.
  - eexists. split; [reflexivity|]. done.
  - eexists. split; [reflexivity|]. done.
Qed.

Lemma run_not_recording ops : ∀ st,
  forallb (λ o, negb (is_Start o)) ops = true → recording st.1 = None →
  ∃ st', run_ops ops st = (Ret tt, st') ∧ recording st'.1 = None ∧
         log st'.2 = log st.2.
Proof.
  induction ops as [|o ops IH]; intros st Hops Hrec.
  - exists st. done.
  - simpl in Hops. apply andb_true_iff in Hops as [Ho Hops].
    apply negb_true_iff in Ho.
    destruct (step_not_recording o st Ho Hrec) as (st1 & H1 & Hrec1 & Hlog1).
    destruct (IH st1 Hops Hrec1) as (st' & H' & Hrec' & Hlog').
    exists st'. rewrite (run_ops_cons _ _ _ _ H1).
    split; [done|]. split; [done|]. congruence.
Qed.

(** X5.  Before [start()] the camera is not recording: [add_output] and
    [remove_output] swallow PiCameraNotRecording and return, no sink is
    written to, flushed or closed, and [start()] then records to a copy of
    exactly the outputs registered so far. *)
Theorem outputs_before_start (ops : list op) :
  forallb (λ o, negb (is_Start o)) ops = true →
  ∃ st st',
    run_ops ops init = (Ret tt, st) ∧
    recording st.1 = None ∧ log st.2 = [] ∧
    run_ops (ops ++ [Start]) init = (Ret tt, st') ∧
    recording st'.1 = Some (outputs st.1) ∧
    outputs st'.1 = outputs st.1 ∧ log st'.2 = [].
Proof.
  intros Hops.
  destruct (run_not_recording ops init Hops eq_refl) as (st & Hrun & Hrec & Hlog).
  exists st. eexists. split; [exact Hrun|]. split; [exact Hrec|].
  split; [exact Hlog|]. rewrite (run_ops_app _ _ _ _ Hrun).
  split; [reflexivity|]. simpl. split; [done|]. split; [done|]. exact Hlog.
Qed.

Lemma outputs_before_start_witness :
  ∃ st st',
    run_ops [AddOutput 1%nat; AddOutput 2%nat; RemoveOutput 1%nat;
             Broadcast [x2a%byte]] init = (Ret tt, st) ∧
    recording st.1 = None ∧ log st.2 = [] ∧
    run_ops ([AddOutput 1%nat; AddOutput 2%nat; RemoveOutput 1%nat;
              Broadcast [x2a%byte]] ++ [Start]) init = (Ret tt, st') ∧
    recording st'.1 = Some (outputs st.1) ∧
    outputs st'.1 = outputs st.1 ∧ log st'.2 = [].
Proof.
  apply (outputs_before_start
           [AddOutput 1%nat; AddOutput 2%nat; RemoveOutput 1%nat;
            Broadcast [x2a%byte]]).
  reflexivity.
Defined.

(** X6.  While the camera records, [add_output] rebuilds the tee from all
    registered outputs: a client that connects receives the next buffer the
    encoder emits, provided writes to it do not fail. *)
Theorem late_joiner_receives (st : state) (s : sink) (b : bytes) :
  is_Some (recording st.1) → ¬ write_fails st.2 s →
  ∃ st1 st2,
    run_ops [AddOutput s] st = (Ret tt, st1) ∧
    active st1 = outputs st.1 ∪ {[s]} ∧
    outputs st1.1 = outputs st.1 ∪ {[s]} ∧
    run_ops [AddOutput s; Broadcast b] st = (Ret tt, st2) ∧
    s ∈ active st2 ∧
    received s (log st2.2) = received s (log st.2) ++ [b].
Proof.
  intros [tee Hrec] Hok. destruct st as [[outs rec] w].
  cbn [fst snd recording outputs] in *. subst rec.
  assert (Hadd : step (AddOutput s) (Server outs (Some tee), w)
                 = (Ret tt, (Server (outs ∪ {[s]}) (Some (outs ∪ {[s]})), w))).
  { simpl. unfold add_output, mbind, M_bind, bind, modify.
    by rewrite _outputs_changed_run. }
  eexists _, _. split.
  { rewrite (run_ops_cons _ _ _ _ Hadd). reflexivity. }
  split; [done|]. split; [done|].
  rewrite (run_ops_cons _ _ _ _ Hadd). cbn [run_ops step].
  unfold encoder_write, encoder_call. cbn [recording fst snd].
  unfold mbind at 1, M_bind at 1, bind at 1. cbn [recording fst snd].
  rewrite each_run. split; [reflexivity|].
  assert (Hs : s ∉ failing w (elements (outs ∪ {[s]}))).
  { rewrite elem_of_failing. tauto. }
  split.
  - unfold active. simpl. set_solver.
  - simpl. rewrite received_app.
    rewrite received_loop_event by apply NoDup_elements.
    rewrite decide_True; [done|]. split; [|done].
    apply elem_of_elements. set_solver.
Qed.

Lemma late_joiner_receives_witness :
  ∃ st1 st2,
    run_ops [AddOutput 3%nat] two_clients = (Ret tt, st1) ∧
    active st1 = outputs two_clients.1 ∪ {[3%nat]} ∧
    outputs st1.1 = outputs two_clients.1 ∪ {[3%nat]} ∧
    run_ops [AddOutput 3%nat; Broadcast [x2a%byte]] two_clients
      = (Ret tt, st2) ∧
    3%nat ∈ active st2 ∧
    received 3%nat (log st2.2)
    = received 3%nat (log two_clients.2) ++ [[x2a%byte]].
Proof.
  apply (late_joiner_receives two_clients 3%nat [x2a%byte]).
  - by eexists.
  - unfold write_fails, two_clients; simpl. set_solver.
Defined.

End TcpVideoStreamServerMore.

(** ** More on the schedule *)

Module ScheduleMore.
Import Datetime Timelapse DatetimeRange PyFacts ScheduleFacts RunFacts Scenario.

(** X7.  For a [delta] of [k] whole seconds [__floorTime] rounds down: the
    result is not after [dt] and less than [delta] before it, it has no
    microseconds, its seconds of the day are a multiple of [k], and flooring
    it again changes nothing. *)
Theorem floorTime_rounds_down (dt : datetime) (k : Z) :
  0 < k →
  let f := __floorTime dt (seconds_delta k) in
  f ≤ dt ∧ dt - f < seconds_delta k ∧
  microsecond f = 0 ∧ td_seconds f `mod` k = 0 ∧
  __floorTime f (seconds_delta k) = f.
Proof.
  intros Hk f.
  pose proof (floorTime_gt dt k Hk) as Hgt.
  pose proof (floored_seconds_range dt k Hk) as Hrange.
  assert (Hf : f = midnight dt + td_seconds dt `div` k * k * US_PER_SECOND).
  { unfold f. rewrite floorTime_whole_seconds by done.
    unfold seconds_delta. lia. }
  destruct (td_seconds_of_midnight_plus dt _ Hrange) as [Hs Hu].
  rewrite <- Hf in Hs, Hu.
  split; [|split; [lia|split; [done|split]]].
  - by apply floorTime_le.
  - rewrite Hs. apply Z.mod_mul. lia.
  - rewrite floorTime_whole_seconds by done. rewrite Hs.
    rewrite Z.div_mul by lia.
    rewrite Hf at 1. rewrite midnight_add_within_day.
    + rewrite Hf. unfold seconds_delta. lia.
    + unfold US_PER_DAY, SECONDS_PER_DAY, US_PER_SECOND in *. lia.
Qed.

Lemma floorTime_rounds_down_witness :
  let f := __floorTime (at_time 737425 14 0 37 250000) (seconds_delta 15) in
  f ≤ at_time 737425 14 0 37 250000 ∧
  at_time 737425 14 0 37 250000 - f < seconds_delta 15 ∧
  microsecond f = 0 ∧ td_seconds f `mod` 15 = 0 ∧
  __floorTime f (seconds_delta 15) = f.
Proof.
  apply (floorTime_rounds_down (at_time 737425 14 0 37 250000) 15). lia.
Defined.



Lemma next_instant_on_grid (self : timelapse) (now : datetime) (k : Z) :
  0 < k → (k | SECONDS_PER_DAY) → interval self = seconds_delta k →
  next_instant self now
  = seconds_delta k * (now `div` seconds_delta k + 1).
Proof.
  intros Hk [q Hq] Hi. unfold next_instant. rewrite Hi.
  pose proof (floorTime_gt (now + seconds_delta k) k Hk) as Hgt.
  pose proof (floorTime_le (now + seconds_delta k) k Hk) as Hle.
  set (dt := now + seconds_delta k) in *.
  assert (Hf : __floorTime dt (seconds_delta k)
               = seconds_delta k
                 * (q * (dt `div` US_PER_DAY) + td_seconds dt `div` k)).
  { rewrite floorTime_whole_seconds by done.
    unfold midnight. rewrite Z.mod_eq by (unfold US_PER_DAY, SECONDS_PER_DAY,
                                            US_PER_SECOND; lia).
    unfold US_PER_DAY. rewrite Hq. unfold seconds_delta. lia. }
  set (t := q * (dt `div` US_PER_DAY) + td_seconds dt `div` k) in *.
  rewrite Hf in *. f_equal.
  assert (HI : 0 < seconds_delta k) by (unfold seconds_delta, US_PER_SECOND; lia).
  pose proof (Z.div_mod now (seconds_delta k) ltac:(lia)) as Hd.
  pose proof (Z.mod_pos_bound now (seconds_delta k) HI) as Hm.
  unfold dt in *. nia.
Qed.

(** X9.  When the interval is a whole number of seconds that divides the
    day, the ticks lie on a fixed grid and do not drift: the next tick is
    the first multiple of the interval after [now], and a wake anywhere in
    the interval that starts at a tick schedules exactly one interval after
    that tick, however long the capture took. *)
Theorem ticks_do_not_drift (self : timelapse) (now now' : datetime) (k : Z) :
  0 < k → (k | SECONDS_PER_DAY) → interval self = seconds_delta k →
  next_instant self now ≤ now' < next_instant self now + interval self →
  next_instant self now `mod` interval self = 0 ∧
  next_instant self now' = next_instant self now + interval self.
Proof.
  intros Hk Hdiv Hi Hnow'.
  rewrite (next_instant_on_grid self now k) in * by done.
  rewrite (next_instant_on_grid self now' k) by done.
  rewrite Hi in *.
  assert (HI : 0 < seconds_delta k) by (unfold seconds_delta, US_PER_SECOND; lia).
  split.
  - rewrite Z.mul_comm. apply Z.mod_mul. lia.
  - assert (now' `div` seconds_delta k = now `div` seconds_delta k + 1) as ->;
      [|lia].
    symmetry. apply (Z.div_unique _ _ _ (now' - seconds_delta k
                                          * (now `div` seconds_delta k + 1)));
      lia.
Qed.

Lemma ticks_do_not_drift_witness :
  next_instant every_minute (at_time 737425 14 0 37 250000)
    `mod` interval every_minute = 0 ∧
  next_instant every_minute (at_time 737425 14 1 3 500000)
  = next_instant every_minute (at_time 737425 14 0 37 250000)
    + interval every_minute.
Proof.
  apply (ticks_do_not_drift every_minute (at_time 737425 14 0 37 250000)
           (at_time 737425 14 1 3 500000) 60).
  - lia.
  - exists 1440. reflexivity.
  - reflexivity.
  - vm_compute. split; [discriminate|reflexivity].
Defined.

End ScheduleMore.

(** ** More on file names: the layout below a root folder *)

Module LayoutMore.
Import Datetime PosixPath Timelapse Text TextFacts NameFacts MoveImagesFacts.
Import Scenario.

Lemma pretty_N_go_nonempty (x : N) : ∀ s, s ≠ "" → pretty_N_go x s ≠ "".
Proof.
  induction (N.lt_wf_0 x) as [x _ IH]; intros s Hs.
  destruct (decide (x = 0)%N) as [->|Hx].
  - by rewrite pretty_N_go_0.
  - rewrite pretty_N_go_step by lia. apply IH; [|done].
    apply N.div_lt; lia.
Qed.

Lemma decimal_nonempty n : decimal n ≠ "".
Proof.
  unfold decimal, pretty, pretty_N. case_decide; [done|].
  rewrite pretty_N_go_step by lia. by apply pretty_N_go_nonempty.
Qed.

Lemma startswith_sep_stamp s t :
  s ≠ "" → sall stamp_char s = true → startswith_sep (s +:+ t) = false.
Proof.
  destruct s as [|c s]; [done|]. intros _ Hs. rewrite app_cons. simpl in *.
  apply andb_true_iff in Hs as [Hc _]. apply stamp_not_sep in Hc.
  unfold is_not in Hc. by apply negb_true_iff in Hc.
Qed.

Lemma SUBDIR_TEMPLATE_relative time night :
  startswith_sep (SUBDIR_TEMPLATE (strftime_DATESTR_FORMAT time) night) = false.
Proof.
  unfold SUBDIR_TEMPLATE, strftime_DATESTR_FORMAT.
  rewrite <- !app_assoc. apply startswith_sep_stamp.
  - apply decimal_nonempty.
  - apply decimal_stamp.
Qed.

Lemma endswith_sep_app s t : t ≠ "" → endswith_sep (s +:+ t) = endswith_sep t.
Proof.
  intros Ht. induction s as [|c s IH]; [done|]. rewrite app_cons.
  cbn [endswith_sep]. destruct (s +:+ t) eqn:Hst; [|done].
  destruct s; [|done]. rewrite app_nil_l in Hst. done.
Qed.

Lemma is_empty_app s t : t ≠ "" → is_empty (s +:+ t) = false.
Proof. intros Ht. destruct s; [by destruct t|done]. Qed.

(** X10.  The path that [generate_filename] returns has the layout
    [<root>/<YYYYMMDD>/[night/]img_<YYYYMMDD_HHMMSS>_md5-<md5>[_<n>].jpg]:
    the root folder with one separator after it unless it is empty or ends
    in one, the date, the segment [night/] exactly when the time is
    classified as night, and the file name. *)
Theorem generate_filename_layout (self : timelapse) (fs : gset string)
    (root : string) (time : datetime) (md5 : string) :
  ∃ k,
    generate_filename self fs root time md5
    = Some (dir_prefix root +:+ strftime_DATESTR_FORMAT time +:+ "/"
            +:+ (if _is_night self time then "night/" else "")
            +:+ "img_" +:+ strftime_DATETIMESTR_FORMAT time
            +:+ "_md5-" +:+ md5
            +:+ (match k with O => "" | S _ => "_" +:+ pretty k end)
            +:+ ".jpg").
Proof.
  destruct (generate_filename_run self fs root time md5) as (k & Hrun & _).
  exists k. rewrite Hrun. f_equal. unfold candidate.
  rewrite join_file_name.
  rewrite join2_relative by apply SUBDIR_TEMPLATE_relative.
  unfold SUBDIR_TEMPLATE, FILE_NAME_TEMPLATE, suffix_of.
  destruct (_is_night self time).
  - change ("/" +:+ "night") with "/night".
    unfold dir_prefix at 1.
    rewrite (app_assoc (dir_prefix root)).
    rewrite (is_empty_app _ "/night"), (endswith_sep_app _ "/night") by done.
    simpl. rewrite <- !app_assoc. done.
  - change ("/" +:+ "") with "/".
    unfold dir_prefix at 1.
    rewrite (app_assoc (dir_prefix root)).
    rewrite (endswith_sep_app _ "/") by done. simpl.
    rewrite orb_true_r. rewrite <- !app_assoc. done.
Qed.

Example layout_with_bare_root :
  generate_filename every_minute ∅ "/mnt/usb" (at_time 737425 21 30 0 0) digest
  = Some "/mnt/usb/20200101/night/img_20200101_213000_md5-d41d8cd98f00b204e9800998ecf8427e.jpg".
Proof. by vm_compute. Qed.

End LayoutMore.

(** ** More on storing a capture *)

Module StoreMore.
Import Datetime PosixPath Timelapse PyFacts NameFacts StoreFacts RunFacts.
Import Scenario.

Section WithDigest.

Variable hexdigest : bytes → string.
Variable self : timelapse.
Variable input : bytes.
Variable now : datetime.

Lemma write_loop_wrote folders : ∀ success st,
  ∃ b st' new,
    write_loop hexdigest self input now folders success st = (Ret b, st') ∧
    unwritable st' = unwritable st ∧
    log st' = log st ++ new ∧
    files st ⊆ files st' ∧
    NoDup (wrote new) ∧
    (∀ p, p ∈ wrote new → (p ∉ files st) ∧ p ∈ files st') ∧
    length (wrote new) = length (filter (λ r, r ∉ unwritable st) folders).
Proof.
  induction folders as [|root rest IH]; intros success st.
  - exists success, st, []. simpl. rewrite app_nil_r.
    split; [done|]. split; [done|]. split; [done|]. split; [done|].
    split; [constructor|]. split; [|done].
    intros p Hp. by apply not_elem_of_nil in Hp.
  - cbn [write_loop]. destruct (decide (root ∈ unwritable st)) as [Hu|Hw].
    + erewrite bind_ret by (by apply attempt_unwritable).
      destruct (IH false {| files := files st; unwritable := unwritable st;
                            log := log st ++ [EvError root] |})
        as (b & st' & new & Hrun & Hu' & Hlog & Hsub & Hnd & Hnew & Hlen).
      exists b, st', (EvError root :: new). cbn [files unwritable log] in *.
      split; [done|]. split; [done|].
      split; [by rewrite Hlog, <- app_assoc|]. split; [done|].
      change (wrote (EvError root :: new)) with (wrote new).
      split; [done|]. split; [done|].
      rewrite filter_cons_False by (intros H; by apply H). done.
    + destruct (attempt_writable hexdigest self input now root success st Hw)
        as (p & _ & Hp & Hatt).
      erewrite bind_ret by exact Hatt.
      destruct (IH success {| files := files st ∪ {[p]};
                              unwritable := unwritable st;
                              log := log st ++ [EvWrote root p] |})
        as (b & st' & new & Hrun & Hu' & Hlog & Hsub & Hnd & Hnew & Hlen).
      exists b, st', (EvWrote root p :: new). cbn [files unwritable log] in *.
      split; [done|]. split; [done|].
      split; [by rewrite Hlog, <- app_assoc|].
      split; [set_solver|].
      change (wrote (EvWrote root p :: new)) with (p :: wrote new).
      split.
      { constructor; [|done]. intros Hin. apply Hnew in Hin as [Hin _].
        set_solver. }
      split.
      { intros p' [->|Hin]%elem_of_cons; [set_solver|].
        apply Hnew in Hin as [Hin ?]. set_solver. }
      rewrite filter_cons_True by done. simpl. by rewrite Hlen.
Qed.

(** X11.  [_write_to_file] never overwrites or removes a file: every file
    it reports as written is a path that did not exist before the call, is
    different from the other files it reports, and exists afterwards, and
    the files that existed before still exist.  It reports one file for
    every folder in which the attempt does not raise. *)
Theorem write_to_file_adds_new_files (folders : gset string) (st : storage) :
  ∃ b st' new,
    _write_to_file hexdigest self input folders now st = (Ret b, st') ∧
    log st' = log st ++ new ∧
    files st ⊆ files st' ∧
    NoDup (wrote new) ∧
    (∀ p, p ∈ wrote new → (p ∉ files st) ∧ p ∈ files st') ∧
    length (wrote new)
    = length (filter (λ r, r ∉ unwritable st) (elements folders)).
Proof.
  unfold _write_to_file.
  destruct (write_loop_wrote (elements folders) true st)
    as (b & st' & new & Hrun & _ & Hlog & Hsub & Hnd & Hnew & Hlen).
  by exists b, st', new.
Qed.

Lemma fallback_loop_result mem_stream rounds : ∀ success st,
  ∃ st',
    fallback_loop hexdigest self mem_stream now rounds success st
    = (Ret (success
            || negb (bool_decide (rounds = []))
               && bool_decide (∀ f, f ∈ fallback_folders self →
                                    f ∉ unwritable st)), st') ∧
    unwritable st' = unwritable st.
Proof.
  induction rounds as [|round rest IH]; intros success st.
  - exists st. simpl. by rewrite orb_false_r.
  - destruct success.
    + exists st. by rewrite fallback_loop_success.
    + cbn [fallback_loop].
      destruct (_write_to_file_run hexdigest self mem_stream now
                  (fallback_folders self) st)
        as (st1 & new1 & Hrun1 & Hu1 & _).
      erewrite bind_ret by exact Hrun1.
      destruct (IH (bool_decide (∀ r, r ∈ fallback_folders self →
                                      r ∉ unwritable st)) st1)
        as (st' & Hrun' & Hu').
      exists st'. split; [|congruence]. rewrite Hrun'. f_equal. f_equal.
      rewrite Hu1. simpl.
      destruct (bool_decide (∀ r, r ∈ fallback_folders self → r ∉ unwritable st));
        [done|]. by rewrite andb_false_r.
Qed.

(** X12.  What [__run] keeps in [success] after storing a capture: it is
    true exactly when every primary folder was written, or when there is a
    fallback folder and every fallback folder can be written.  One written
    folder among several is not enough. *)
Theorem store_success (mem_stream : bytes) (st : storage) :
  ∃ b st',
    store hexdigest self mem_stream now st = (Ret b, st') ∧
    (b = true ↔
     (∀ r, r ∈ root_folders self → r ∉ unwritable st) ∨
     (fallback_folders self ≠ ∅ ∧
      ∀ f, f ∈ fallback_folders self → f ∉ unwritable st)).
Proof.
  unfold store.
  destruct (_write_to_file_run hexdigest self mem_stream now
              (root_folders self) st) as (st1 & new1 & Hrun1 & Hu1 & _).
  erewrite bind_ret by exact Hrun1.
  destruct (fallback_loop_result mem_stream (elements (fallback_folders self))
              (bool_decide (∀ r, r ∈ root_folders self → r ∉ unwritable st))
              st1) as (st' & Hrun' & _).
  eexists _, st'. split; [exact Hrun'|]. rewrite Hu1.
  rewrite orb_true_iff, andb_true_iff, negb_true_iff.
  rewrite !bool_decide_eq_true, bool_decide_eq_false.
  assert (elements (fallback_folders self) = [] ↔ fallback_folders self = ∅)
    as ->; [|done].
  split.
  - intros H. apply leibniz_equiv. by apply elements_empty_inv.
  - intros ->. apply elements_empty.
Qed.

End WithDigest.

Lemma write_to_file_adds_new_files_witness :
  ∃ b st' new,
    _write_to_file Scenario.hexdigest two_primaries []
      (root_folders two_primaries) two_pm usb2_unmounted = (Ret b, st') ∧
    log st' = log usb2_unmounted ++ new ∧
    NoDup (wrote new) ∧
    (∀ p, p ∈ wrote new → (p ∉ files usb2_unmounted) ∧ p ∈ files st') ∧
    length (wrote new) = 1%nat.
Proof.
  destruct (write_to_file_adds_new_files Scenario.hexdigest two_primaries []
              two_pm (root_folders two_primaries) usb2_unmounted)
    as (b & st' & new & Hrun & Hlog & _ & Hnd & Hnew & Hlen).
  exists b, st', new. split; [exact Hrun|]. split; [exact Hlog|].
  split; [exact Hnd|]. split; [exact Hnew|]. rewrite Hlen. by vm_compute.
Defined.

Lemma store_success_witness :
  ∃ st',
    store Scenario.hexdigest two_primaries [] two_pm usb2_unmounted
    = (Ret true, st').
Proof.
  destruct (store_success Scenario.hexdigest two_primaries two_pm []
              usb2_unmounted) as (b & st' & Hrun & Hb).
  exists st'. rewrite Hrun. f_equal. f_equal. apply Hb. right. split.
  - unfold two_primaries; cbn [fallback_folders].
    intros H. apply (not_elem_of_empty (C:=gset string)
                       "/mnt/sdcard/timelapse/").
    rewrite <- H. by apply elem_of_singleton_2.
  - intros f Hf. unfold two_primaries in Hf; cbn [fallback_folders] in Hf.
    apply elem_of_singleton_1 in Hf. subst f.
    unfold usb2_unmounted; cbn [unwritable].
    intros H. apply elem_of_singleton_1 in H. discriminate H.
Defined.

End StoreMore.

(** ** More on get_md5sum: what the name can yield *)

Module Md5Lookup.
Import Datetime PosixPath Timelapse MoveImages Text TextFacts.
Import Scenario.

Lemma search_match re s m : search re s = Some m → match_here re m = true.
Proof.
  induction s as [|c s IH]; cbn [search].
  - destruct (match_here re "") eqn:Hm; [|done]. by intros [= <-].
  - destruct (match_here re (String c s)) eqn:Hm; [|exact IH].
    by intros [= <-].
Qed.

Lemma match_here_group m :
  match_here MD5SUM_REGEX m = true →
  ∃ c, hexdigit c = true ∧ group_md5sum m = String c "32".
Proof.
  destruct m as [|c0 [|c1 [|c2 [|c3 [|c4 [|c5 [|c6 [|c7 m]]]]]]]];
    simpl; rewrite ?andb_false_r; try done.
  unfold lit. intros H.
  repeat (apply andb_true_iff in H as [? H]).
  repeat match goal with
         | H : bool_decide _ = true |- _ => apply bool_decide_eq_true in H
         end.
  subst. exists c5. split; [done|]. by destruct m.
Qed.

(** X13.  Whatever [get_md5sum] takes from a file name is three characters
    long, a hexadecimal digit followed by [32]: it is never a whole md5
    digest.  Without [try_from_basename] the file is always read. *)
Theorem md5_from_basename_is_three_characters (path : string) (d : string) :
  get_md5sum_source path true = FromBasename d →
  (∃ c, hexdigit c = true ∧ d = String c "32") ∧
  String.length d = 3%nat ∧
  get_md5sum_source path false = FromFile path.
Proof.
  unfold get_md5sum_source.
  destruct (search MD5SUM_REGEX (basename path)) as [m|] eqn:Hs; [|done].
  apply search_match, match_here_group in Hs as (c & Hc & Hg).
  rewrite Hg. simpl. intros [= <-]. split; [by exists c|done].
Qed.

Lemma md5_from_basename_is_three_characters_witness :
  (∃ c, hexdigit c = true ∧ "d32" = String c "32") ∧
  String.length "d32" = 3%nat ∧
  get_md5sum_source "/mnt/usb/timelapse/img_20200101_140000_md5-d32.jpg" false
  = FromFile "/mnt/usb/timelapse/img_20200101_140000_md5-d32.jpg".
Proof.
  apply (md5_from_basename_is_three_characters
           "/mnt/usb/timelapse/img_20200101_140000_md5-d32.jpg" "d32").
  reflexivity.
Defined.

End Md5Lookup.

(** ** moveimages.py: is_subdir_of *)

Module SubdirSpec.
Import PosixPath RelPath Text TextFacts.

Lemma clean_relative c : clean c → relative c.
Proof.
  intros (Hne & _ & _ & Hsep). unfold relative.
  destruct c as [|a c]; [done|]. simpl in *.
  by apply orb_false_iff in Hsep as [-> _].
Qed.

Lemma prefix_cons_cons a b s1 s2 :
  String.prefix (String a s1) (String b s2)
  = bool_decide (a = b) && String.prefix s1 s2.
Proof.
  cbn [String.prefix]. destruct (ascii_dec a b).
  - by rewrite bool_decide_eq_true_2.
  - by rewrite bool_decide_eq_false_2.
Qed.

Lemma prefix_nil_l s : String.prefix "" s = true.
Proof. by destruct s. Qed.

Lemma prefix_cons_nil a s : String.prefix (String a s) "" = false.
Proof. done. Qed.

Lemma prefix_app pre a t :
  String.prefix pre a = true → String.prefix pre (a +:+ t) = true.
Proof.
  revert a. induction pre as [|p pre IH]; intros a H.
  - apply prefix_nil_l.
  - destruct a as [|x a]; [done|]. rewrite app_cons.
    rewrite prefix_cons_cons in *.
    apply andb_true_iff in H as [-> H]. by apply IH.
Qed.

Lemma join2_app_l a b : relative b → ∃ t, join2 a b = a +:+ t.
Proof.
  intros Hb. unfold join2. rewrite Hb.
  destruct (is_empty a || endswith_sep a); eauto.
Qed.

Lemma foldl_join2_prefix pre rest : ∀ a,
  Forall relative rest → String.prefix pre a = true →
  String.prefix pre (foldl join2 a rest) = true.
Proof.
  induction rest as [|b rest IH]; intros a Hrel Ha; [done|].
  apply Forall_cons in Hrel as [Hb Hrel]. simpl. apply IH; [done|].
  destruct (join2_app_l a b Hb) as [t ->]. by apply prefix_app.
Qed.

(** Two components of which the first is [..] join to a text that starts
    with [../]. *)
Lemma join_all_pardir b rest :
  relative b → Forall relative rest →
  String.prefix "../" (join_all (".." :: b :: rest)) = true.
Proof.
  intros Hb Hrest. cbn [join_all foldl].
  apply foldl_join2_prefix; [done|].
  unfold join2. rewrite Hb.
  change (is_empty ".." || endswith_sep "..") with false. cbv iota.
  change (".." +:+ "/" +:+ b) with ("../" +:+ b).
  apply prefix_app. done.
Qed.

Lemma endswith_sep_no_sep c : has_sep c = false → endswith_sep c = false.
Proof.
  intros H. destruct (endswith_sep c) eqn:He; [|done].
  apply MoveImagesFacts.endswith_sep_has_sep in He. congruence.
Qed.

Lemma foldl_join2_after_sep rest : ∀ a u,
  Forall relative rest →
  ∃ t, foldl join2 (a +:+ String sep u) rest = a +:+ String sep t.
Proof.
  induction rest as [|b rest IH]; intros a u Hrel; [by exists u|].
  apply Forall_cons in Hrel as [Hb Hrel]. simpl.
  destruct (join2_app_l (a +:+ String sep u) b Hb) as [t ->].
  rewrite <- app_assoc, app_cons. by apply IH.
Qed.

(** A clean first component is followed by nothing or by a separator. *)
Lemma join_all_clean c rest :
  clean c → Forall relative rest →
  join_all (c :: rest) = c ∨ ∃ t, join_all (c :: rest) = c +:+ String sep t.
Proof.
  intros Hc Hrest. destruct rest as [|b rest]; [by left|]. right.
  apply Forall_cons in Hrest as [Hb Hrest]. cbn [join_all foldl].
  assert (join2 c b = c +:+ String sep b) as ->.
  { destruct Hc as (Hne & _ & _ & Hsep). unfold join2. rewrite Hb.
    rewrite (endswith_sep_no_sep c Hsep). by destruct c. }
  by apply foldl_join2_after_sep.
Qed.

Lemma clean_not_pardir_prefix c t :
  clean c → String.prefix "../" (c +:+ String sep t) = false
            ∧ String.prefix "../" c = false.
Proof.
  intros (Hne & Hdot & Hdd & Hsep).
  destruct c as [|c0 [|c1 [|c2 c]]]; try done.
  - rewrite app_cons, app_nil_l, !prefix_cons_cons, prefix_cons_nil.
    destruct (decide ("."%char = c0)) as [<-|]; [done|].
    by rewrite bool_decide_eq_false_2.
  - rewrite !app_cons, app_nil_l, !prefix_cons_cons, prefix_cons_nil.
    destruct (decide ("."%char = c0)) as [<-|];
      [|by rewrite bool_decide_eq_false_2].
    destruct (decide ("."%char = c1)) as [<-|]; [done|].
    by rewrite (bool_decide_eq_false_2 (_ = c1)), !andb_false_r.
  - rewrite !app_cons, !prefix_cons_cons.
    destruct (decide ("."%char = c0)) as [<-|];
      [|by rewrite bool_decide_eq_false_2].
    destruct (decide ("."%char = c1)) as [<-|];
      [|by rewrite (bool_decide_eq_false_2 (_ = c1)), !andb_false_r].
    destruct (decide ("/"%char = c2)) as [<-|];
      [|by rewrite (bool_decide_eq_false_2 (_ = c2)), !andb_false_r].
    by vm_compute in Hsep.
Qed.

Lemma join_all_clean_not_pardir c rest :
  clean c → Forall relative rest →
  String.prefix "../" (join_all (c :: rest)) = false.
Proof.
  intros Hc Hrest.
  destruct (join_all_clean c rest Hc Hrest) as [->|[t ->]].
  - by destruct (clean_not_pardir_prefix c "" Hc).
  - by destruct (clean_not_pardir_prefix c t Hc).
Qed.

Lemma relpath_of_cons_same x s p :
  relpath_of (x :: s) (x :: p) = relpath_of s p.
Proof.
  unfold relpath_of. cbn [commonprefix].
  rewrite bool_decide_eq_true_2 by done. done.
Qed.

Lemma relpath_of_cons_diff x y s p :
  x ≠ y →
  relpath_of (x :: s) (y :: p)
  = join_all (".." :: (replicate (length s) ".." ++ y :: p)).
Proof.
  intros Hne. unfold relpath_of. cbn [commonprefix].
  rewrite bool_decide_eq_false_2 by done. done.
Qed.

Lemma relpath_of_nil_l c p : relpath_of [] (c :: p) = join_all (c :: p).
Proof. done. Qed.

Lemma relpath_of_nil_r x s :
  relpath_of (x :: s) [] = join_all (".." :: replicate (length s) "..").
Proof.
  unfold relpath_of. cbn [commonprefix length drop Nat.sub replicate app].
  by rewrite List.app_nil_r.
Qed.

Lemma relative_pardirs n p :
  Forall clean p → Forall relative (replicate n ".." ++ p).
Proof.
  intros Hp. apply Forall_app. split.
  - apply Forall_replicate. done.
  - eapply Forall_impl; [exact Hp|]. apply clean_relative.
Qed.

(** The test that [is_subdir_of] makes on the components of the two real
    paths: the relative path does not start with [../] exactly when the
    directory's components are a prefix of the path's, or when the path is
    the parent of the directory. *)
Lemma subdir_test (start_list : list string) : ∀ path_list : list string,
  Forall clean start_list → Forall clean path_list →
  negb (String.prefix "../" (relpath_of start_list path_list)) = true ↔
  start_list `prefix_of` path_list ∨ ∃ x, start_list = path_list ++ [x].
Proof.
  induction start_list as [|x s IH]; intros p Hs Hp.
  - split; [intros _; left; apply prefix_nil|]. intros _.
    destruct p as [|c p]; [done|]. rewrite relpath_of_nil_l.
    apply Forall_cons in Hp as [Hc Hp].
    rewrite join_all_clean_not_pardir; [done|done|].
    eapply Forall_impl; [exact Hp|]. apply clean_relative.
  - apply Forall_cons in Hs as [Hx Hs]. destruct p as [|y p].
    + rewrite relpath_of_nil_r. destruct s as [|x' s].
      * split; [|done]. intros _. right. by exists x.
      * cbn [length replicate].
        rewrite join_all_pardir; [|done|by apply Forall_replicate].
        split; [done|]. intros [H|[z H]].
        -- by apply prefix_nil_inv in H.
        -- done.
    + apply Forall_cons in Hp as [Hy Hp].
      destruct (decide (x = y)) as [->|Hne].
      * rewrite relpath_of_cons_same, IH by done. split.
        -- intros [H|[z ->]]; [left; by apply prefix_cons|right; by exists z].
        -- intros [H|[z H]].
           ++ left. by apply prefix_cons_inv_2 in H.
           ++ right. exists z. by simplify_eq/=.
      * rewrite relpath_of_cons_diff by done.
        assert (Hrel : Forall relative (replicate (length s) ".." ++ y :: p)).
        { apply relative_pardirs. by constructor. }
        destruct (replicate (length s) ".." ++ y :: p) as [|b rest] eqn:Hl.
        { by destruct (replicate (length s) ".."). }
        apply Forall_cons in Hrel as [Hb Hrest].
        rewrite join_all_pardir by done. split; [done|].
        intros [H|[z H]].
        -- by apply prefix_cons_inv_1 in H.
        -- by simplify_eq/=.
Qed.

(** *** From the components back to the paths *)

Lemma split_sep_nonempty s : split_sep s ≠ [].
Proof.
  destruct s as [|c s]; [done|]. cbn [split_sep].
  destruct (bool_decide (c = sep)); [done|]. by destruct (split_sep s).
Qed.

Lemma split_sep_no_sep c : has_sep c = false → split_sep c = [c].
Proof.
  induction c as [|a c IH]; [done|]. cbn [has_sep split_sep].
  intros [Ha Hc]%orb_false_iff. rewrite Ha, IH by done. done.
Qed.

Lemma split_sep_app c r :
  has_sep c = false →
  split_sep (c +:+ String sep r) = c :: split_sep r.
Proof.
  induction c as [|a c IH]; intros Hc.
  - rewrite app_nil_l. cbn [split_sep]. by rewrite bool_decide_eq_true_2.
  - cbn [has_sep] in Hc. apply orb_false_iff in Hc as [Ha Hc].
    rewrite app_cons. cbn [split_sep]. rewrite Ha, IH by done. done.
Qed.

Lemma clean_no_sep c : clean c → has_sep c = false.
Proof. by intros (_ & _ & _ & ?). Qed.

Lemma split_join_sep comps :
  Forall clean comps → comps ≠ [] → split_sep (join_sep comps) = comps.
Proof.
  induction comps as [|c comps IH]; intros Hc Hne; [done|].
  apply Forall_cons in Hc as [Hc Hcs]. destruct comps as [|c' comps].
  - apply split_sep_no_sep, clean_no_sep, Hc.
  - change (join_sep (c :: c' :: comps))
      with (c +:+ String sep (join_sep (c' :: comps))).
    rewrite split_sep_app by by apply clean_no_sep.
    by rewrite IH.
Qed.

Lemma components_root comps :
  Forall clean comps → components ("/" +:+ join_sep comps) = comps.
Proof.
  intros Hc. unfold components.
  change ("/" +:+ join_sep comps) with (String sep (join_sep comps)).
  cbn [split_sep]. rewrite bool_decide_eq_true_2 by done.
  rewrite filter_cons_False by (intros H; by apply H).
  destruct comps as [|c comps]; [done|].
  rewrite split_join_sep by done.
  induction Hc as [|x l Hx Hl IH]; [done|].
  rewrite filter_cons_True by apply Hx. by rewrite IH.
Qed.

Lemma normpath_steps_clean initial comps : ∀ acc,
  Forall clean comps →
  foldl (normpath_step initial) acc comps = acc ++ comps.
Proof.
  induction comps as [|c comps IH]; intros acc Hc.
  - by rewrite List.app_nil_r.
  - apply Forall_cons in Hc as [(Hne & Hdot & Hdd & _) Hcs]. cbn [foldl].
    rewrite IH by done. unfold normpath_step.
    rewrite (bool_decide_eq_false_2 (c = "")) by done.
    rewrite (bool_decide_eq_false_2 (c = ".")) by done.
    rewrite (bool_decide_eq_false_2 (c = "..")) by done.
    simpl. by rewrite <- List.app_assoc.
Qed.

Lemma initial_slashes_root comps :
  Forall clean comps → initial_slashes ("/" +:+ join_sep comps) = 1%nat.
Proof.
  intros Hc. unfold initial_slashes.
  change ("/" +:+ join_sep comps) with (String sep (join_sep comps)).
  destruct comps as [|c comps]; [done|].
  apply Forall_cons in Hc as [Hclean _].
  pose proof (clean_relative c Hclean) as Hc.
  assert (∃ t, join_sep (c :: comps) = c +:+ t) as [t ->].
  { destruct comps; [exists ""; by rewrite TextFacts.app_nil_r|eauto]. }
  destruct c as [|a c]; [by destruct Hclean|]. rewrite app_cons.
  unfold relative in Hc. simpl in Hc. apply bool_decide_eq_false in Hc.
  rewrite !prefix_cons_cons.
  assert (Hne : "/"%char ≠ a) by (intros <-; by apply Hc).
  rewrite (bool_decide_eq_false_2 ("/"%char = a)) by done.
  rewrite (bool_decide_eq_true_2 ("/"%char = "/"%char)) by done.
  rewrite prefix_nil_l. done.
Qed.

(** A normalised absolute path is left as it is by [normpath]. *)
Lemma normpath_comps_root comps :
  Forall clean comps →
  foldl (normpath_step 1) [] (split_sep ("/" +:+ join_sep comps)) = comps.
Proof.
  intros Hc.
  change ("/" +:+ join_sep comps) with (String sep (join_sep comps)).
  cbn [split_sep]. rewrite (bool_decide_eq_true_2 (sep = sep)) by done.
  cbn [foldl]. change (normpath_step 1 [] "") with (@nil string).
  destruct comps as [|c comps]; [done|].
  rewrite split_join_sep by done.
  by rewrite normpath_steps_clean.
Qed.

Lemma normpath_root comps :
  Forall clean comps →
  normpath ("/" +:+ join_sep comps) = "/" +:+ join_sep comps.
Proof.
  intros Hc. unfold normpath.
  change (is_empty ("/" +:+ join_sep comps)) with false. cbv iota.
  rewrite initial_slashes_root by done.
  rewrite (bool_decide_eq_false_2 (1%nat = 0%nat)) by done.
  rewrite normpath_comps_root by done. done.
Qed.

(** X14.  On a file system without symbolic links and for normalised
    absolute paths, [is_subdir_of(path, directory)] raises nothing and is
    true exactly when [path] lies in [directory] or is [directory] itself -
    or when [path] is the parent of [directory]: for the parent [relpath]
    gives the bare [..], which does not start with [../]. *)
Theorem is_subdir_of_spec (cwd : string) (pc dc : list string) :
  Forall clean pc → Forall clean dc →
  ∃ b,
    is_subdir_of cwd ("/" +:+ join_sep pc) ("/" +:+ join_sep dc) = Some b ∧
    (b = true ↔ dc `prefix_of` pc ∨ ∃ x, dc = pc ++ [x]).
Proof.
  intros Hp Hd. unfold is_subdir_of, realpath, relpath, abspath.
  change (isabs ("/" +:+ ?s)) with true. cbv iota.
  rewrite !normpath_root by done.
  change (is_empty ("/" +:+ join_sep pc)) with false. cbv iota.
  change (isabs ("/" +:+ ?s)) with true. cbv iota.
  rewrite !normpath_root, !components_root by done.
  eexists. split; [reflexivity|]. by apply subdir_test.
Qed.

Lemma is_subdir_of_spec_witness :
  ∃ b,
    is_subdir_of "/" ("/" +:+ join_sep ["mnt"; "usb"])
      ("/" +:+ join_sep ["mnt"; "usb"; "timelapse"]) = Some b ∧
    (b = true ↔
     ["mnt"; "usb"; "timelapse"] `prefix_of` ["mnt"; "usb"]
     ∨ ∃ x, ["mnt"; "usb"; "timelapse"] = ["mnt"; "usb"] ++ [x]).
Proof.
  apply (is_subdir_of_spec "/" ["mnt"; "usb"] ["mnt"; "usb"; "timelapse"]);
    repeat constructor; done.
Defined.

(** The parent of a source folder passes the test of [is_subdir_of]; a
    sibling and the grandparent do not. *)
Example parent_counts_as_subdir :
  is_subdir_of "/" "/mnt/usb" "/mnt/usb/timelapse/" = Some true ∧
  is_subdir_of "/" "/mnt/usb/timelapse/20200101/a.jpg" "/mnt/usb/timelapse/"
    = Some true ∧
  is_subdir_of "/" "/mnt/usb/other" "/mnt/usb/timelapse/" = Some false ∧
  is_subdir_of "/" "/mnt" "/mnt/usb/timelapse/" = Some false ∧
  is_subdir_of "/" "/mnt/usb/timelapse/../x" "/mnt/usb/timelapse/"
    = Some false.
Proof. repeat split; by vm_compute. Qed.

End SubdirSpec.

(** ** Moving one file *)

Module MoveFileFacts.
Import PosixPath MoveImages RelPath FileMover.

Section WithMedium.

Variable cwd : string.
Variable hexdigest : bytes → string.
Variable written : string → bytes → bytes.

#[local] Notation key := (key cwd).
Notation file_md5 := (file_md5 cwd hexdigest).
Notation isfile := (isfile cwd).
Notation copy2 := (copy2 cwd written).
Notation remove := (remove cwd).
Notation already_there := (already_there cwd hexdigest).
Notation copy_round := (copy_round cwd hexdigest written).
Notation copy_loop := (copy_loop cwd hexdigest written).

Lemma get_md5sum_file (f : string → option string) (p : string) :
  get_md5sum f p false
  = match f p with Some m => Ret m | None => Raise OSError end.
Proof. done. Qed.

Lemma get_md5sum_unmarked (f : string → option string) (p : string) :
  search MD5SUM_REGEX (basename p) = None →
  get_md5sum f p true
  = match f p with Some m => Ret m | None => Raise OSError end.
Proof. intros H. unfold get_md5sum, get_md5sum_source. by rewrite H. Qed.

Lemma file_md5_key (d : disk) (p q : string) :
  key p = key q → file_md5 d p = file_md5 d q.
Proof. unfold FileMover.file_md5. by intros ->. Qed.

Lemma file_md5_Some (d : disk) (p m : string) :
  file_md5 d p = Some m ↔
  ∃ b, content d !! key p = Some b ∧ (key p ∉ unreadable d) ∧ hexdigest b = m.
Proof.
  unfold FileMover.file_md5. case_decide as Hu.
  - split; [done|]. by intros (b & _ & ? & _).
  - destruct (content d !! key p) as [b|]; simpl.
    + split; [intros [= <-]; by exists b|]. by intros (b' & [= <-] & _ & <-).
    + split; [done|]. by intros (b & ? & _).
Qed.

Lemma file_md5_store (k : string) (v : bytes) (a : action) (d : disk)
    (p : string) :
  key p ≠ k → file_md5 (store_file k v a d) p = file_md5 d p.
Proof.
  intros Hk. unfold FileMover.file_md5, store_file; cbn [content unreadable].
  by rewrite lookup_insert_ne.
Qed.

Lemma already_there_true (md5 dst : string) (d : disk) :
  already_there md5 dst d = true ↔ file_md5 d dst = Some md5.
Proof.
  unfold FileMover.already_there, FileMover.isfile.
  rewrite get_md5sum_file. split.
  - case_bool_decide as Hf; [|done].
    destruct (file_md5 d dst) as [m|]; [|done].
    by intros ->%bool_decide_eq_true.
  - intros Hm. rewrite Hm, bool_decide_eq_true_2.
    + by rewrite bool_decide_eq_true_2.
    + apply file_md5_Some in Hm as (b & -> & _). by eexists.
Qed.

Lemma copy2_ok (src dst : string) (d : disk) (b : bytes) :
  content d !! key src = Some b → key src ≠ key dst →
  key src ∉ unreadable d → key dst ∉ readonly d →
  copy2 src dst d
  = (Ret tt, store_file (key dst) (written (key dst) b) (EvCopied src dst) d).
Proof.
  intros Hb Hk Hr Hw. unfold FileMover.copy2.
  rewrite decide_False by (by intros [? _]).
  by rewrite Hb, !decide_False.
Qed.

Lemma copy2_run (src dst : string) (d : disk) :
  copy2 src dst d = (Raise OSError, d)
  ∨ ∃ b, content d !! key src = Some b ∧ key src ≠ key dst ∧
         copy2 src dst d
         = (Ret tt,
            store_file (key dst) (written (key dst) b) (EvCopied src dst) d).
Proof.
  unfold FileMover.copy2. case_decide as Hs; [by left|].
  destruct (content d !! key src) as [b|] eqn:Hb; [|by left].
  repeat case_decide; try by left.
  right. exists b. split; [done|]. split; [|done].
  intros Hk. apply Hs. split; [done|]. by eexists.
Qed.

(** What one round of the copy loop can do. *)
Lemma copy_round_cases (src md5 fn : string) (ok : bool) (d : disk)
    (dir : string) :
  let dst := join2 dir fn in
  (file_md5 d dst = Some md5 ∧ copy_round src md5 fn (ok, d) dir = (ok, d))
  ∨ (file_md5 d dst ≠ Some md5 ∧ copy2 src dst d = (Raise OSError, d) ∧
     copy_round src md5 fn (ok, d) dir = (false, d))
  ∨ (∃ b d', file_md5 d dst ≠ Some md5 ∧
       content d !! key src = Some b ∧ key src ≠ key dst ∧
       d' = store_file (key dst) (written (key dst) b) (EvCopied src dst) d ∧
       copy2 src dst d = (Ret tt, d') ∧
       ((file_md5 d' dst = Some md5 ∧
         copy_round src md5 fn (ok, d) dir = (ok, d'))
        ∨ (file_md5 d' dst ≠ Some md5 ∧
           copy_round src md5 fn (ok, d) dir = (false, d')))).
Proof.
  intros dst. unfold FileMover.copy_round. fold dst.
  destruct (already_there md5 dst d) eqn:Ha.
  { left. by apply already_there_true in Ha. }
  assert (file_md5 d dst ≠ Some md5) as Hn.
  { intros H%already_there_true. congruence. }
  right. destruct (copy2_run src dst d) as [Hc|(b & Hb & Hk & Hc)];
    rewrite Hc.
  { by left. }
  right. eexists b, _. do 3 (split; [done|]). do 2 (split; [reflexivity|]).
  rewrite get_md5sum_file.
  set (d' := store_file _ _ _ d).
  destruct (file_md5 d' dst) as [m|] eqn:Hm.
  - case_bool_decide as Hd.
    + right. split; [congruence|done].
    + left. by subst.
  - by right.
Qed.

(** A round never touches the source file. *)
Lemma copy_round_source (src md5 fn : string) (acc : bool * disk)
    (dir : string) :
  let d' := (copy_round src md5 fn acc dir).2 in
  content d' !! key src = content acc.2 !! key src ∧
  unreadable d' = unreadable acc.2 ∧ undeletable d' = undeletable acc.2.
Proof.
  destruct acc as [ok d].
  destruct (copy_round_cases src md5 fn ok d dir)
    as [[_ ->]|[(_ & _ & ->)|(b & d' & _ & _ & Hk & -> & _ & [[_ ->]|[_ ->]])]];
    cbn [snd]; try done;
    unfold store_file; cbn [content unreadable undeletable];
    by rewrite lookup_insert_ne.
Qed.

Lemma copy_round_false (src md5 fn : string) (d : disk) (dir : string) :
  (copy_round src md5 fn (false, d) dir).1 = false.
Proof.
  by destruct (copy_round_cases src md5 fn false d dir)
    as [[_ ->]|[(_ & _ & ->)|(b & d' & _ & _ & _ & _ & _ & [[_ ->]|[_ ->]])]].
Qed.

(** A round that leaves [all_ok] true has seen the checksum of the source at
    its destination, and keeps it wherever it was seen before. *)
Lemma copy_round_verified (src md5 fn : string) (ok : bool) (d d' : disk)
    (dir : string) :
  copy_round src md5 fn (ok, d) dir = (true, d') →
  ok = true ∧ file_md5 d' (join2 dir fn) = Some md5 ∧
  ∀ p, file_md5 d p = Some md5 → file_md5 d' p = Some md5.
Proof.
  destruct (copy_round_cases src md5 fn ok d dir)
    as [[Hm ->]|[(_ & _ & ->)|(b & d1 & _ & _ & _ & Hd & _ & [[Hm ->]|[_ ->]])]];
    intros [= ? ?]; subst; try done.
  split; [done|]. split; [done|]. intros p Hp.
  destruct (decide (key p = key (join2 dir fn))) as [Hk|Hk].
  - by rewrite (file_md5_key _ _ _ Hk).
  - by rewrite file_md5_store.
Qed.

Lemma copy_loop_source (src md5 fn : string) (dirs : list string) :
  ∀ acc : bool * disk,
    let d' := (foldl (copy_round src md5 fn) acc dirs).2 in
    content d' !! key src = content acc.2 !! key src ∧
    unreadable d' = unreadable acc.2 ∧ undeletable d' = undeletable acc.2.
Proof.
  induction dirs as [|dir dirs IH]; intros acc; cbn [foldl]; [done|].
  destruct (IH (copy_round src md5 fn acc dir)) as (-> & -> & ->).
  apply copy_round_source.
Qed.

Lemma copy_loop_false (src md5 fn : string) (dirs : list string) :
  ∀ d, (foldl (copy_round src md5 fn) (false, d) dirs).1 = false.
Proof.
  induction dirs as [|dir dirs IH]; intros d; cbn [foldl]; [done|].
  pose proof (copy_round_false src md5 fn d dir) as Hf.
  destruct (copy_round src md5 fn (false, d) dir) as [ok d1].
  cbn [fst] in Hf. subst. apply IH.
Qed.

Lemma copy_loop_verified (src md5 fn : string) (dirs : list string) :
  ∀ (ok : bool) (d d' : disk),
    foldl (copy_round src md5 fn) (ok, d) dirs = (true, d') →
    ok = true ∧
    (∀ dir, dir ∈ dirs → file_md5 d' (join2 dir fn) = Some md5) ∧
    ∀ p, file_md5 d p = Some md5 → file_md5 d' p = Some md5.
Proof.
  induction dirs as [|dir dirs IH]; intros ok d d'; cbn [foldl].
  { intros [= -> ->]. split; [done|]. split; [|done].
    intros dir Hd. by apply elem_of_nil in Hd. }
  destruct (copy_round src md5 fn (ok, d) dir) as [ok1 d1] eqn:Hr.
  intros (-> & Hdirs & Hkeep)%IH.
  apply copy_round_verified in Hr as (-> & Hdst & Hkeep1).
  split; [done|]. split; [|by auto].
  intros dir' [->|Hin]%elem_of_cons; auto.
Qed.

(** The first loop: every destination path is checked, and a failure is an
    [InvalidPathException] for one of them or the [ValueError] of
    [relpath]. *)
Lemma check_path_Done (inside : option bool) (p q : string) :
  check_path inside p = Done q ↔ inside = Some true ∧ q = p.
Proof.
  destruct inside as [[]|]; simpl; split; try done;
    try (by intros [? ?]); try (intros [= <-]; done).
  by intros [_ ->].
Qed.

Lemma check_dst_paths_Done (self : filemover) (fn : string)
    (dirs : list string) :
  check_dst_paths cwd self fn dirs = Done tt ↔
  Forall (λ dir, is_dst_path cwd self (join2 dir fn) = Some true) dirs.
Proof.
  induction dirs as [|dir dirs IH]; cbn [check_dst_paths]; [done|].
  rewrite Forall_cons, <- IH. unfold _check_dst_path.
  destruct (is_dst_path cwd self (join2 dir fn)) as [[]|]; simpl;
    split; try done; try (by intros [? ?]).
Qed.


End WithMedium.

End MoveFileFacts.

Module MoveFileSpec.
Import PosixPath MoveImages RelPath FileMover MoveFileFacts MoverScenario.

Section WithMedium.

Variable cwd : string.
Variable hexdigest : bytes → string.
Variable written : string → bytes → bytes.

#[local] Notation key := (key cwd).
#[local] Notation file_md5 := (file_md5 cwd hexdigest).
#[local] Notation copy_round := (copy_round cwd hexdigest written).
#[local] Notation move_file := (move_file cwd hexdigest written).

Lemma file_md5_content (d : disk) (p m : string) :
  file_md5 d p = Some m →
  ∃ b, content d !! key p = Some b ∧ hexdigest b = m.
Proof. intros (b & ? & _ & ?)%file_md5_Some. by exists b. Qed.

(** X15.  [move_file] removes the source file only after it has seen, at
    every destination path, a file whose MD5 sum is the checksum it holds
    for the source - the MD5 sum of the source's content when the name does
    not carry a checksum.  This needs every destination path to name another
    file than the source path does. *)
Theorem source_removed_only_after_verified_copies (self : filemover)
    (src_dir_path filename : string) (dst_dir_paths : list string)
    (d : disk) (b0 : bytes) :
  let src_path := join2 src_dir_path filename in
  let d' := (move_file self src_dir_path filename dst_dir_paths d).2 in
  content d !! key src_path = Some b0 →
  content d' !! key src_path = None →
  Forall (λ dir, key (join2 dir filename) ≠ key src_path) dst_dir_paths →
  ∃ src_md5sum,
    get_md5sum (file_md5 d) src_path true = Ret src_md5sum ∧
    (search MD5SUM_REGEX (basename src_path) = None →
     src_md5sum = hexdigest b0) ∧
    Forall (λ dir, ∃ b, content d' !! key (join2 dir filename) = Some b ∧
                        hexdigest b = src_md5sum) dst_dir_paths.
Proof.
  intros src_path d' Hb Hgone Hne. subst d'.
  unfold FileMover.move_file in Hgone |- *. fold src_path in Hgone |- *.
  case_bool_decide; [cbn [snd] in Hgone; congruence|].
  unfold _check_src_path in *.
  destruct (is_src_path cwd self src_path) as [[]|];
    cbn [check_path snd] in *; try congruence.
  destruct (check_dst_paths cwd self filename dst_dir_paths) as [[]|e];
    cbn [snd] in *; try congruence.
  destruct (get_md5sum (file_md5 d) src_path true) as [md5|e] eqn:Hg;
    cbn [snd] in *; try congruence.
  destruct (FileMover.isfile cwd d src_path); cbn [snd] in *; try congruence.
  destruct (copy_loop cwd hexdigest written src_path md5 filename
              dst_dir_paths d) as [ok d1] eqn:Hl.
  pose proof (copy_loop_source cwd hexdigest written src_path md5 filename
                dst_dir_paths (true, d)) as (Hsrc & _).
  unfold copy_loop in Hl. rewrite Hl in Hsrc. cbn [snd] in Hsrc.
  destruct ok; cbn [snd] in *; [|congruence].
  unfold remove in *. case_decide; cbn [snd] in *; [|congruence].
  apply copy_loop_verified in Hl as (_ & Hv & _).
  exists md5. split; [done|]. split.
  - intros Hs. rewrite get_md5sum_unmarked in Hg by done.
    destruct (file_md5 d src_path) as [m|] eqn:Hm; [|done].
    injection Hg as ->. apply file_md5_content in Hm as (b & Hb' & <-).
    congruence.
  - apply Forall_forall. intros dir Hdir.
    rewrite Forall_forall in Hne.
    destruct (file_md5_content _ _ _ (Hv dir Hdir)) as (b & Hb' & Hh).
    exists b. split; [|done].
    unfold delete_file; cbn [content]. rewrite lookup_delete_ne; [done|].
    intros Hk. by apply (Hne dir Hdir).
Qed.

(** Once a round has found no file with the checksum of the source,
    [all_ok] is false. *)
Lemma copy_round_mismatch (src md5 fn : string) (ok : bool) (d : disk)
    (dir : string) :
  (∀ d p, file_md5 d p ≠ Some md5) →
  (copy_round src md5 fn (ok, d) dir).1 = false.
Proof.
  intros Hno.
  destruct (copy_round_cases cwd hexdigest written src md5 fn ok d dir)
    as [[Hm _]|[(_ & _ & ->)|(b & d' & _ & _ & _ & _ & _ & [[Hm _]|[_ ->]])]];
    try done; by apply Hno in Hm.
Qed.

(** [all_ok] and the disk after the rounds for healthy destinations. *)
Lemma copy_loop_moves (src fn : string) (b : bytes) (dirs : list string) :
  ∀ (ok : bool) (d : disk),
    content d !! key src = Some b → key src ∉ unreadable d →
    Forall (λ dir, let k := key (join2 dir fn) in
                   k ≠ key src ∧ k ∉ readonly d ∧
                   hexdigest (written k b) = hexdigest b ∧
                   k ∉ unreadable d) dirs →
    ∃ d', foldl (copy_round src (hexdigest b) fn) (ok, d) dirs = (ok, d') ∧
          ∀ k, Forall (λ dir, k ≠ key (join2 dir fn)) dirs →
               content d' !! k = content d !! k.
Proof.
  induction dirs as [|dir dirs IH]; intros ok d Hb Hr Hdirs; cbn [foldl].
  { by exists d. }
  apply Forall_cons in Hdirs as [(Hk & Hw & Hh & Hu) Hdirs].
  destruct (copy_round_cases cwd hexdigest written src (hexdigest b) fn ok d
              dir)
    as [[_ ->]|[(_ & Hc & _)|(b' & d1 & _ & Hb' & _ & Hd1 & Hc & Hv)]].
  - destruct (IH ok d Hb Hr Hdirs) as (d' & -> & Hframe).
    exists d'. split; [done|]. intros k [_ ?]%Forall_cons. auto.
  - rewrite (copy2_ok _ _ _ _ _ b) in Hc by done. done.
  - assert (b' = b) as -> by congruence.
    assert (file_md5 d1 (join2 dir fn) = Some (hexdigest b)) as Hm.
    { apply file_md5_Some. exists (written (key (join2 dir fn)) b).
      subst d1. unfold store_file; cbn [content unreadable].
      by rewrite lookup_insert_eq. }
    destruct Hv as [[_ ->]|[? _]]; [|done].
    destruct (IH ok d1) as (d' & -> & Hframe).
    + subst d1. unfold store_file; cbn [content].
      by rewrite lookup_insert_ne.
    + by subst d1.
    + by subst d1.
    + exists d'. split; [done|]. intros k [Hkd Hks]%Forall_cons.
      rewrite Hframe by done. subst d1. unfold store_file; cbn [content].
      by rewrite lookup_insert_ne.
Qed.

(** X16.  With a readable and removable source, a name without checksum,
    and destinations that can be written and hold what is written to them,
    [move_file] returns, the source file is gone, every destination path
    holds a file with the MD5 sum of the source's content, and no other
    file has changed. *)
Theorem move_file_moves (self : filemover) (src_dir_path filename : string)
    (dst_dir_paths : list string) (d : disk) (b : bytes) :
  let src_path := join2 src_dir_path filename in
  let res := move_file self src_dir_path filename dst_dir_paths d in
  dst_dir_paths ≠ [] →
  is_src_path cwd self src_path = Some true →
  Forall (λ dir, is_dst_path cwd self (join2 dir filename) = Some true)
    dst_dir_paths →
  search MD5SUM_REGEX (basename src_path) = None →
  content d !! key src_path = Some b →
  key src_path ∉ unreadable d → key src_path ∉ undeletable d →
  Forall (λ dir, let k := key (join2 dir filename) in
                 k ≠ key src_path ∧ k ∉ readonly d ∧
                 hexdigest (written k b) = hexdigest b ∧
                 k ∉ unreadable d) dst_dir_paths →
  res.1 = Done tt ∧
  content res.2 !! key src_path = None ∧
  Forall (λ dir, ∃ b', content res.2 !! key (join2 dir filename) = Some b' ∧
                       hexdigest b' = hexdigest b) dst_dir_paths ∧
  ∀ k, k ≠ key src_path →
       Forall (λ dir, k ≠ key (join2 dir filename)) dst_dir_paths →
       content res.2 !! k = content d !! k.
Proof.
  intros src_path res Hne Hsrc Hdst Hs Hb Hr Hdel Hdirs. subst res.
  unfold FileMover.move_file. fold src_path.
  rewrite bool_decide_eq_false_2 by (by destruct dst_dir_paths).
  unfold _check_src_path. rewrite Hsrc. cbn [check_path].
  apply check_dst_paths_Done in Hdst. rewrite Hdst.
  rewrite get_md5sum_unmarked by done.
  assert (file_md5 d src_path = Some (hexdigest b)) as ->.
  { apply file_md5_Some. by exists b. }
  unfold FileMover.isfile. rewrite bool_decide_eq_true_2 by (by rewrite Hb).
  destruct (copy_loop_moves src_path filename b dst_dir_paths true d Hb Hr
              Hdirs) as (d1 & Hl & Hframe).
  unfold copy_loop. rewrite Hl.
  pose proof (copy_loop_source cwd hexdigest written src_path (hexdigest b)
                filename dst_dir_paths (true, d)) as (Hsame & _ & Hund).
  rewrite Hl in Hsame, Hund. cbn [snd] in Hsame, Hund.
  apply copy_loop_verified in Hl as (_ & Hv & _).
  unfold remove. rewrite decide_True; cycle 1.
  { split; [by rewrite Hsame, Hb|by rewrite Hund]. }
  cbn [fst snd delete_file content]. split; [done|].
  split; [by rewrite lookup_delete_eq|]. split.
  - apply Forall_forall. intros dir Hdir.
    rewrite Forall_forall in Hdirs. destruct (Hdirs dir Hdir) as (Hk & _).
    destruct (file_md5_content _ _ _ (Hv dir Hdir)) as (b' & Hb' & Hh).
    exists b'. split; [|done]. by rewrite lookup_delete_ne.
  - intros k Hk Hks. rewrite lookup_delete_ne by done. by apply Hframe.
Qed.

Lemma copy_loop_same_file (src fn : string) (b : bytes) (dirs : list string)
    (d : disk) :
  content d !! key src = Some b → key src ∉ unreadable d →
  Forall (λ dir, key (join2 dir fn) = key src) dirs →
  foldl (copy_round src (hexdigest b) fn) (true, d) dirs = (true, d).
Proof.
  intros Hb Hr. induction 1 as [|dir dirs Hk _ IH]; cbn [foldl]; [done|].
  destruct (copy_round_cases cwd hexdigest written src (hexdigest b) fn true d
              dir) as [[_ ->]|[(Hn & _)|(b' & d1 & Hn & _)]]; [done|..];
    destruct Hn; rewrite (file_md5_key _ _ _ _ _ Hk);
    apply file_md5_Some; by exists b.
Qed.

(** X17.  When every destination path names the source file itself (a
    folder is both source and destination), [move_file] finds the checksum
    it looks for at each destination, copies nothing and removes the file:
    its content is lost. *)
Theorem source_in_destination_folder_is_lost (self : filemover)
    (src_dir_path filename : string) (dst_dir_paths : list string)
    (d : disk) (b : bytes) :
  let src_path := join2 src_dir_path filename in
  dst_dir_paths ≠ [] →
  is_src_path cwd self src_path = Some true →
  Forall (λ dir, is_dst_path cwd self (join2 dir filename) = Some true)
    dst_dir_paths →
  Forall (λ dir, key (join2 dir filename) = key src_path) dst_dir_paths →
  search MD5SUM_REGEX (basename src_path) = None →
  content d !! key src_path = Some b →
  key src_path ∉ unreadable d → key src_path ∉ undeletable d →
  move_file self src_dir_path filename dst_dir_paths d
  = (Done tt, delete_file (key src_path) (EvRemoved src_path) d).
Proof.
  intros src_path Hne Hsrc Hdst Hsame Hs Hb Hr Hdel.
  unfold FileMover.move_file. fold src_path.
  rewrite bool_decide_eq_false_2 by (by destruct dst_dir_paths).
  unfold _check_src_path. rewrite Hsrc. cbn [check_path].
  apply check_dst_paths_Done in Hdst. rewrite Hdst.
  rewrite get_md5sum_unmarked by done.
  assert (file_md5 d src_path = Some (hexdigest b)) as ->.
  { apply file_md5_Some. by exists b. }
  unfold FileMover.isfile. rewrite bool_decide_eq_true_2 by (by rewrite Hb).
  unfold copy_loop. rewrite (copy_loop_same_file _ _ b) by done.
  unfold remove. rewrite decide_True; [done|]. by rewrite Hb.
Qed.

(** X18.  A file whose name carries a checksum that [MD5SUM_REGEX] finds is
    never removed by [move_file]: the three characters taken from the name
    are compared with MD5 sums of 32 characters. *)
Theorem marked_name_is_never_removed (self : filemover)
    (src_dir_path filename : string) (dst_dir_paths : list string)
    (d : disk) (m : string) :
  let src_path := join2 src_dir_path filename in
  let res := move_file self src_dir_path filename dst_dir_paths d in
  (∀ b, String.length (hexdigest b) = 32%nat) →
  search MD5SUM_REGEX (basename src_path) = Some m →
  content res.2 !! key src_path = content d !! key src_path.
Proof.
  intros src_path res Hlen Hs. subst res.
  unfold FileMover.move_file. fold src_path.
  case_bool_decide as Hnil; [done|].
  destruct (_check_src_path cwd self src_path) as [p|e] eqn:Hp; [|done].
  apply check_path_Done in Hp as [_ ->].
  destruct (check_dst_paths cwd self filename dst_dir_paths); [|done].
  unfold get_md5sum, get_md5sum_source. rewrite Hs.
  apply Md5Lookup.search_match, Md5Lookup.match_here_group in Hs
    as (c & _ & ->).
  cbn [is_empty negb].
  destruct (FileMover.isfile cwd d src_path); [|done].
  set (md5 := String c "32").
  assert (∀ d p, file_md5 d p ≠ Some md5) as Hno.
  { intros d0 p (b & _ & _ & Hb)%file_md5_Some.
    apply (f_equal String.length) in Hb. by rewrite Hlen in Hb. }
  pose proof (copy_loop_source cwd hexdigest written src_path md5 filename
                dst_dir_paths (true, d)) as (Hsame & _).
  unfold copy_loop.
  destruct dst_dir_paths as [|dir dirs]; [done|]. cbn [foldl] in *.
  pose proof (copy_round_mismatch src_path md5 filename true d dir Hno) as Hf.
  destruct (copy_round src_path md5 filename (true, d) dir) as [ok d1].
  cbn [fst] in Hf. subst ok.
  pose proof (copy_loop_false cwd hexdigest written src_path md5 filename
                dirs d1) as Hf.
  destruct (foldl _ (false, d1) dirs) as [ok d2]. cbn [fst] in Hf. subst ok.
  done.
Qed.


End WithMedium.

Lemma source_removed_only_after_verified_copies_witness :
  ∃ src_md5sum,
    get_md5sum (file_md5 "/" toy_digest one_picture)
      (join2 "/mnt/usb/timelapse/" "a.jpg") true = Ret src_md5sum ∧
    (search MD5SUM_REGEX (basename (join2 "/mnt/usb/timelapse/" "a.jpg"))
     = None → src_md5sum = toy_digest picture) ∧
    Forall (λ dir, ∃ b,
              content (move_file "/" toy_digest sound mover
                         "/mnt/usb/timelapse/" "a.jpg"
                         ["/mnt/storage0/timelapse/"] one_picture).2
                !! key "/" (join2 dir "a.jpg") = Some b ∧
              toy_digest b = src_md5sum) ["/mnt/storage0/timelapse/"].
Proof.
  apply (source_removed_only_after_verified_copies "/" toy_digest sound mover
           "/mnt/usb/timelapse/" "a.jpg" ["/mnt/storage0/timelapse/"]
           one_picture picture).
  - reflexivity.
  - vm_compute. reflexivity.
  - repeat constructor. vm_compute. discriminate.
Defined.

Lemma move_file_moves_witness :
  let res := move_file "/" toy_digest sound mover "/mnt/usb/timelapse/"
               "a.jpg" ["/mnt/storage0/timelapse/"] one_picture in
  res.1 = Done tt ∧
  content res.2 !! key "/" (join2 "/mnt/usb/timelapse/" "a.jpg") = None ∧
  Forall (λ dir, ∃ b', content res.2 !! key "/" (join2 dir "a.jpg") = Some b' ∧
                       toy_digest b' = toy_digest picture)
    ["/mnt/storage0/timelapse/"] ∧
  ∀ k, k ≠ key "/" (join2 "/mnt/usb/timelapse/" "a.jpg") →
       Forall (λ dir, k ≠ key "/" (join2 dir "a.jpg"))
         ["/mnt/storage0/timelapse/"] →
       content res.2 !! k = content one_picture !! k.
Proof.
  apply (move_file_moves "/" toy_digest sound mover "/mnt/usb/timelapse/"
           "a.jpg" ["/mnt/storage0/timelapse/"] one_picture picture).
  - discriminate.
  - vm_compute. reflexivity.
  - repeat constructor.
  - vm_compute. reflexivity.
  - reflexivity.
  - apply not_elem_of_empty.
  - apply not_elem_of_empty.
  - repeat constructor; try apply not_elem_of_empty.
    vm_compute. discriminate.
Defined.

Lemma source_in_destination_folder_is_lost_witness :
  move_file "/" toy_digest sound overlapping "/mnt/usb/timelapse/" "a.jpg"
    ["/mnt/usb/timelapse/"] one_picture
  = (Done tt,
     delete_file (key "/" (join2 "/mnt/usb/timelapse/" "a.jpg"))
       (EvRemoved (join2 "/mnt/usb/timelapse/" "a.jpg")) one_picture).
Proof.
  apply (source_in_destination_folder_is_lost "/" toy_digest sound overlapping
           "/mnt/usb/timelapse/" "a.jpg" ["/mnt/usb/timelapse/"] one_picture
           picture).
  - discriminate.
  - vm_compute. reflexivity.
  - repeat constructor.
  - repeat constructor.
  - vm_compute. reflexivity.
  - reflexivity.
  - apply not_elem_of_empty.
  - apply not_elem_of_empty.
Defined.

Lemma marked_name_is_never_removed_witness :
  content (move_file "/" toy_digest sound mover "/mnt/usb/timelapse/"
             "img_md5-a32.jpg" ["/mnt/storage0/timelapse/"] marked_picture).2
    !! key "/" (join2 "/mnt/usb/timelapse/" "img_md5-a32.jpg")
  = content marked_picture
      !! key "/" (join2 "/mnt/usb/timelapse/" "img_md5-a32.jpg").
Proof.
  apply (marked_name_is_never_removed "/" toy_digest sound mover
           "/mnt/usb/timelapse/" "img_md5-a32.jpg"
           ["/mnt/storage0/timelapse/"] marked_picture "_md5-a32.jpg").
  - intros [|? ?]; reflexivity.
  - vm_compute. reflexivity.
Defined.


(** On a medium that loses what is written to it the copy is made, its
    checksum differs, and the source stays; the marked file is copied and
    stays as well. *)
Example lossy_medium_keeps_source :
  let res := move_file "/" toy_digest lossy mover "/mnt/usb/timelapse/"
               "a.jpg" ["/mnt/storage0/timelapse/"] one_picture in
  res.1 = Done tt ∧
  content res.2 !! "/mnt/usb/timelapse/a.jpg" = Some picture ∧
  content res.2 !! "/mnt/storage0/timelapse/a.jpg" = Some [] ∧
  journal res.2 = [EvCopied "/mnt/usb/timelapse/a.jpg"
                     "/mnt/storage0/timelapse/a.jpg"].
Proof. repeat split; by vm_compute. Qed.

Example marked_name_is_copied_and_kept :
  let res := move_file "/" toy_digest sound mover "/mnt/usb/timelapse/"
               "img_md5-a32.jpg" ["/mnt/storage0/timelapse/"]
               marked_picture in
  res.1 = Done tt ∧
  content res.2 !! "/mnt/usb/timelapse/img_md5-a32.jpg" = Some picture ∧
  content res.2 !! "/mnt/storage0/timelapse/img_md5-a32.jpg" = Some picture ∧
  journal res.2 = [EvCopied "/mnt/usb/timelapse/img_md5-a32.jpg"
                     "/mnt/storage0/timelapse/img_md5-a32.jpg"].
Proof. repeat split; by vm_compute. Qed.

End MoveFileSpec.
